(** * Check-Shortest-Path: the weighted graph of [graph.hpp] and its checkers

    A shallow embedding of [Checking_Shortest_Path/graph.hpp]:
    the class template [Graph<T>] (a [std::vector] of
    [std::unordered_map<int, T>]) and the four function templates
    [isSubgraph], [isTreePlusIsolated], [pathLengthsFromRoot] and
    [allEdgesRelaxed] that certify a shortest-path tree.

    - [int] vertex numbers are [Z];
    - [std::unordered_map<int, T>] is [gmap Z T]; its iteration order is
      implementation-defined in C++ and is the order of [map_to_list] here;
    - [std::vector<X>] is [list X], [std::queue<int>] is [list Z] (front
      first);
    - a call either returns, throws, or has undefined behaviour
      ([outcome]): an unchecked access outside a container, or a sum of
      two [int] that overflows;
    - the weight type [T] is an arithmetic type on which [a + b] has the
      type [T] again, with the operations the templates use ([Numeric]);
      [int] and [double] are the two instances.  The types below [int]
      ([short], [char]) are outside: their sums are formed in [int] and
      converted back when they are stored. *)

From Stdlib Require Import ZArith Floats Relation_Operators Wellfounded.
From stdpp Require Import gmap list.

Local Open Scope Z_scope.

(** ** Outcomes of a call *)

Inductive exception : Set :=
  | out_of_range   (* std::out_of_range *)
  | length_error.  (* std::length_error *)

Inductive outcome (A : Type) : Type :=
  | Return (a : A)
  | Throw (e : exception)
  | Undefined.     (* unchecked access outside a container, signed overflow *)
Arguments Return {A} a.
Arguments Throw {A} e.
Arguments Undefined {A}.

Global Instance outcome_ret : MRet outcome := λ A, Return.
Global Instance outcome_bind : MBind outcome := λ A B k c,
  match c with
  | Return a => k a
  | Throw e => Throw e
  | Undefined => Undefined
  end.

(** What a loop body hands back: [Break r] is a [return r;] inside the
    loop, [Next s] falls through to the next iteration with the local
    variables [s]. *)
Inductive flow (R S : Type) : Type :=
  | Break (r : R)
  | Next (s : S).
Arguments Break {R S} r.
Arguments Next {R S} s.

(** [for (const auto& x : l) body] *)
Fixpoint for_each {A R S} (body : A → S → outcome (flow R S))
    (l : list A) (s : S) : outcome (flow R S) :=
  match l with
  | [] => Return (Next s)
  | x :: l' =>
      r ← body x s ;
      match r with
      | Break v => Return (Break v)
      | Next s' => for_each body l' s'
      end
  end.

(** ** Containers *)

(** [v.at(i)] with an [int] argument: the argument converts to the unsigned
    [size_type], so a negative [i] is above every size and [at] throws for
    each [i] outside [0, v.size())]. *)
Definition vector_at {A} (v : list A) (i : Z) : outcome A :=
  if decide (0 ≤ i < Z.of_nat (length v)) then
    match v !! Z.to_nat i with
    | Some x => Return x
    | None => Throw out_of_range
    end
  else Throw out_of_range.

(** [v.at(i) = x] *)
Definition vector_set {A} (v : list A) (i : Z) (x : A) : outcome (list A) :=
  _ ← vector_at v i ; Return (<[Z.to_nat i := x]> v).

(** [*(v.begin() + i)]: no bounds check. *)
Definition vector_deref {A} (v : list A) (i : Z) : outcome A :=
  if decide (0 ≤ i) then
    match v !! Z.to_nat i with
    | Some x => Return x
    | None => Undefined
    end
  else Undefined.

(** [m.at(k)] *)
Definition map_at {T} (m : gmap Z T) (k : Z) : outcome T :=
  match m !! k with
  | Some x => Return x
  | None => Throw out_of_range
  end.

(** [m.insert({k, x})]: [std::unordered_map::insert] leaves the map as it
    is when the key is already there. *)
Definition map_insert {T} (k : Z) (x : T) (m : gmap Z T) : gmap Z T :=
  match m !! k with
  | Some _ => m
  | None => <[k := x]> m
  end.

(** [m.contains(k)] *)
Definition map_contains {T} (m : gmap Z T) (k : Z) : bool :=
  bool_decide (is_Some (m !! k)).

(** [m.empty()] *)
Definition map_empty {T} (m : gmap Z T) : bool :=
  match map_to_list m with
  | [] => true
  | _ :: _ => false
  end.

(** ** The weight type *)

(** The operations of [T] that the templates use. *)
Class Numeric (T : Type) : Type := {
  zero : T;                 (* T converted from the literal 0 *)
  add : T → T → option T;   (* a + b; [None]: undefined behaviour *)
  ltb : T → T → bool;       (* a < b *)
  eqb : T → T → bool;       (* a == b *)
  has_infinity : bool;      (* std::numeric_limits<T>::has_infinity *)
  limits_infinity : T;      (* std::numeric_limits<T>::infinity() *)
  limits_max : T            (* std::numeric_limits<T>::max() *)
}.

Definition gtb `{Numeric T} (a b : T) : bool := ltb b a.
Definition neqb `{Numeric T} (a b : T) : bool := negb (eqb a b).

(** [infinity<T>()] *)
Definition infinity `{Numeric T} : T :=
  if has_infinity then limits_infinity else limits_max.

(** [a <= b], read as "not [a > b]". *)
Definition leb `{Numeric T} (a b : T) : bool := negb (gtb a b).

(** The evaluation of [a + b]. *)
Definition plus `{Numeric T} (a b : T) : outcome T :=
  match add a b with
  | Some s => Return s
  | None => Undefined
  end.

(** *** [int]: 32 bits, two's complement

    An [int] is the [Z] in [-2^31, 2^31) that [wrap] gives; the operations
    normalise their operands, so they are defined on all of [Z].  A sum
    outside [-2^31, 2^31) is a signed overflow: the behaviour is
    undefined. *)
Module Int.
Definition max_value : Z := 2 ^ 31 - 1.
Definition min_value : Z := - 2 ^ 31.
Definition wrap (z : Z) : Z := (z + 2 ^ 31) mod 2 ^ 32 - 2 ^ 31.
Definition add (a b : Z) : option Z :=
  let s := wrap a + wrap b in
  if (min_value <=? s) && (s <=? max_value) then Some s else None.
Definition ltb (a b : Z) : bool := Z.ltb (wrap a) (wrap b).
Definition eqb (a b : Z) : bool := Z.eqb (wrap a) (wrap b).
End Int.

(** [numeric_limits<int>::infinity()] is 0 and is never used. *)
Global Instance int_Numeric : Numeric Z := {|
  zero := 0;
  add := Int.add;
  ltb := Int.ltb;
  eqb := Int.eqb;
  has_infinity := false;
  limits_infinity := 0;
  limits_max := Int.max_value
|}.

(** *** [double]: IEEE 754 binary64 *)
Module Double.
Definition max_value : float := 0x1.fffffffffffffp+1023%float.
End Double.

Global Instance double_Numeric : Numeric float := {|
  zero := 0%float;
  add := λ a b, Some (PrimFloat.add a b);
  ltb := PrimFloat.ltb;
  eqb := PrimFloat.eqb;
  has_infinity := true;
  limits_infinity := PrimFloat.infinity;
  limits_max := Double.max_value
|}.

(** ** [class Graph] *)

Record Graph (T : Type) : Type := mkGraph {
  adjList : list (gmap Z T);
  numVertices : Z
}.
Arguments mkGraph {T} adjList numVertices.
Arguments adjList {T} g.
Arguments numVertices {T} g.

Section GraphOps.
Context {T : Type}.
Implicit Types (G : Graph T) (i j : Z) (weight : T).

(** [Graph(int N)]: [adjList(N)] converts [N] to [size_type]; a negative
    [N] is above [max_size()]. *)
Definition Graph_new (N : Z) : outcome (Graph T) :=
  if decide (0 ≤ N) then Return (mkGraph (replicate (Z.to_nat N) ∅) N)
  else Throw length_error.

Definition size G : Z := numVertices G.

(** [adjList[i]]: unchecked. *)
Definition addEdge i j weight G : outcome unit * Graph T :=
  if decide (i < 0 ∨ i >= numVertices G ∨ j < 0 ∨ j >= numVertices G) then
    (Throw out_of_range, G)
  else
    match adjList G !! Z.to_nat i with
    | Some m =>
        (Return (),
         mkGraph (<[Z.to_nat i := map_insert j weight m]> (adjList G))
                 (numVertices G))
    | None => (Undefined, G)
    end.

Definition removeEdge i j G : outcome unit * Graph T :=
  if decide (i >= 0 ∧ i < numVertices G ∧ j >= 0 ∧ j < numVertices G) then
    match adjList G !! Z.to_nat i with
    | Some m =>
        (Return (),
         mkGraph (<[Z.to_nat i := delete j m]> (adjList G)) (numVertices G))
    | None => (Undefined, G)
    end
  else (Return (), G).

Definition isEdge G i j : outcome bool :=
  if decide (i >= 0 ∧ i < numVertices G ∧ j >= 0 ∧ j < numVertices G) then
    m ← vector_at (adjList G) i ; Return (map_contains m j)
  else Return false.

Definition getEdgeWeight G i j : outcome T :=
  m ← vector_at (adjList G) i ; map_at m j.

Definition neighbours G (a : Z) : outcome (gmap Z T) :=
  vector_deref (adjList G) a.

(** The class invariant: one adjacency map per vertex, and every edge
    ends at a vertex of the graph. *)
Definition graph_wf G : Prop :=
  0 ≤ numVertices G
  ∧ Z.of_nat (length (adjList G)) = numVertices G
  ∧ ∀ (n : nat) m j weight,
      adjList G !! n = Some m → m !! j = Some weight →
      0 ≤ j < numVertices G.

(** There is an edge from [i] to [j] with this weight. *)
Definition edge G i j weight : Prop :=
  0 ≤ i ∧ ∃ m, adjList G !! Z.to_nat i = Some m ∧ m !! j = Some weight.

(** Run a sequence of [addEdge] calls, stopping at the first that does
    not return. *)
Fixpoint addEdges (l : list (Z * Z * T)) G : outcome unit * Graph T :=
  match l with
  | [] => (Return (), G)
  | (i, j, weight) :: l' =>
      match addEdge i j weight G with
      | (Return _, G') => addEdges l' G'
      | r => r
      end
  end.
End GraphOps.

(** There is an edge from [u] to [v]. *)
Definition has_edge {T} (G : Graph T) (u v : Z) : Prop :=
  ∃ weight, edge G u v weight.

(** [v] can be reached from [root] along edges of [G]. *)
Definition reachable {T} (G : Graph T) (root v : Z) : Prop :=
  rtc (has_edge G) root v.

(** ** The checkers *)

(** [std::vector<X> v(n, x)] with an [int] size: a negative [n] converts to
    a size that no vector can have.  The size of a constructed graph is
    never negative. *)
Definition vector_new {A} (n : Z) (x : A) : outcome (list A) :=
  if decide (0 ≤ n) then Return (replicate (Z.to_nat n) x)
  else Throw length_error.

(** The result of a function whose loops ran to the end ([Next]) or left
    through a [return] ([Break]); [last] is the [return] after the loops. *)
Definition finish {R S} (last : S → R) (f : flow R S) : R :=
  match f with
  | Break r => r
  | Next s => last s
  end.

Section Checkers.
Context {T : Type} {NT : Numeric T}.

(** *** [isSubgraph] *)

Definition isSubgraph_edge (G : Graph T) (vertexH : Z) (edge : Z * T)
    (_ : unit) : outcome (flow bool unit) :=
  let nextVertex := edge.1 in
  let weight := edge.2 in
  present ← isEdge G vertexH nextVertex ;
  if bool_decide (present = false) then Return (Break false)
  else
    w ← getEdgeWeight G vertexH nextVertex ;
    if neqb w weight then Return (Break false) else Return (Next ()).

Definition isSubgraph_vertex (H G : Graph T) (vertexH : Z) (_ : unit)
    : outcome (flow bool unit) :=
  nb ← neighbours H vertexH ;
  for_each (isSubgraph_edge G vertexH) (map_to_list nb) ().

Definition isSubgraph (H G : Graph T) : outcome bool :=
  if decide (size H > size G) then Return false
  else
    r ← for_each (isSubgraph_vertex H G) (seqZ 0 (size H)) () ;
    Return (finish (λ _, true) r).

(** *** [isTreePlusIsolated] *)

(** The body of the [for] loop over the edges of [currentVertex]; the
    local variables are [marked] and [visit_queue]. *)
Definition visit_edge (edge : Z * T) (st : list bool * list Z)
    : outcome (flow bool (list bool * list Z)) :=
  let nextVertex := edge.1 in
  is_marked ← vector_at st.1 nextVertex ;
  if bool_decide (is_marked = true) then Return (Break false)
  else
    marked ← vector_set st.1 nextVertex true ;
    Return (Next (marked, st.2 ++ [nextVertex])).

(** One turn of the [while] loop, after the [pop]. *)
Definition visit_vertex (G : Graph T) (currentVertex : Z)
    (st : list bool * list Z) : outcome (flow bool (list bool * list Z)) :=
  nb ← neighbours G currentVertex ;
  for_each visit_edge (map_to_list nb) st.

(** The [while] loop, run with fuel, one unit per turn: [None] says that
    the fuel ran out before the loop ended. *)
Fixpoint visit_loop (fuel : nat) (G : Graph T) (marked : list bool)
    (visit_queue : list Z) : option (outcome (flow bool (list bool))) :=
  match visit_queue with
  | [] => Some (Return (Next marked))
  | currentVertex :: rest =>
      match fuel with
      | O => None
      | S fuel' =>
          match visit_vertex G currentVertex (marked, rest) with
          | Return (Next (marked', visit_queue')) =>
              visit_loop fuel' G marked' visit_queue'
          | Return (Break b) => Some (Return (Break b))
          | Throw e => Some (Throw e)
          | Undefined => Some Undefined
          end
      end
  end.

Definition isolated_vertex (G : Graph T) (marked : list bool) (isoV : Z)
    (_ : unit) : outcome (flow bool unit) :=
  is_marked ← vector_at marked isoV ;
  if bool_decide (is_marked = false) then
    nb ← neighbours G isoV ;
    if bool_decide (map_empty nb = false) then Return (Break false)
    else Return (Next ())
  else Return (Next ()).

Definition isTreePlusIsolated (fuel : nat) (G : Graph T) (root : Z)
    : option (outcome bool) :=
  match (vector_new (size G) false ≫= λ marked,
         vector_set marked root true) with
  | Return marked =>
      r ← visit_loop fuel G marked [root] ;
      Some (f ← r ;
            match f with
            | Break b => Return b
            | Next marked' =>
                r' ← for_each (isolated_vertex G marked')
                       (seqZ 0 (size G)) () ;
                Return (finish (λ _, true) r')
            end)
  | Throw e => Some (Throw e)
  | Undefined => Some Undefined
  end.

(** *** [pathLengthsFromRoot] *)

(** The body of the [for] loop over the edges of [currentVertex]; the
    local variables are [dist_to] and [visit_queue]. *)
Definition relax_edge (currentVertex : Z) (edge : Z * T)
    (st : list T * list Z) : outcome (flow Empty_set (list T * list Z)) :=
  let nextVertex := edge.1 in
  let weight := edge.2 in
  d_next ← vector_at st.1 nextVertex ;
  d_cur ← vector_at st.1 currentVertex ;
  sum ← plus d_cur weight ;
  if gtb d_next sum then
    dist_to ← vector_set st.1 nextVertex sum ;
    Return (Next (dist_to, st.2 ++ [nextVertex]))
  else Return (Next st).

(** One turn of the [while] loop, after the [pop]. *)
Definition relax_vertex (tree : Graph T) (currentVertex : Z)
    (st : list T * list Z) : outcome (flow Empty_set (list T * list Z)) :=
  nb ← neighbours tree currentVertex ;
  for_each (relax_edge currentVertex) (map_to_list nb) st.

(** The [while] loop, with fuel as above. *)
Fixpoint relax_loop (fuel : nat) (tree : Graph T) (dist_to : list T)
    (visit_queue : list Z) : option (outcome (list T)) :=
  match visit_queue with
  | [] => Some (Return dist_to)
  | currentVertex :: rest =>
      match fuel with
      | O => None
      | S fuel' =>
          match relax_vertex tree currentVertex (dist_to, rest) with
          | Return (Next (dist_to', visit_queue')) =>
              relax_loop fuel' tree dist_to' visit_queue'
          | Return (Break r) => match r with end
          | Throw e => Some (Throw e)
          | Undefined => Some Undefined
          end
      end
  end.

Definition pathLengthsFromRoot (fuel : nat) (tree : Graph T) (root : Z)
    : option (outcome (list T)) :=
  match (vector_new (size tree) limits_max ≫= λ dist_to,
         vector_set dist_to root zero) with
  | Return dist_to => relax_loop fuel tree dist_to [root]
  | Throw e => Some (Throw e)
  | Undefined => Some Undefined
  end.

(** *** [allEdgesRelaxed] *)

Definition allEdgesRelaxed_edge (bestDistanceTo : list T)
    (currentVertex : Z) (edge : Z * T) (_ : unit)
    : outcome (flow bool unit) :=
  let nextVertex := edge.1 in
  let weight := edge.2 in
  d_cur ← vector_at bestDistanceTo currentVertex ;
  if neqb d_cur infinity then
    d_next ← vector_at bestDistanceTo nextVertex ;
    sum ← plus d_cur weight ;
    if gtb d_next sum then Return (Break false)
    else Return (Next ())
  else Return (Next ()).

Definition allEdgesRelaxed_vertex (bestDistanceTo : list T) (G : Graph T)
    (currentVertex : Z) (_ : unit) : outcome (flow bool unit) :=
  nb ← neighbours G currentVertex ;
  for_each (allEdgesRelaxed_edge bestDistanceTo currentVertex)
    (map_to_list nb) ().

Definition allEdgesRelaxed (bestDistanceTo : list T) (G : Graph T)
    (source : Z) : outcome bool :=
  d_source ← vector_at bestDistanceTo source ;
  if neqb d_source zero then Return false
  else
    r ← for_each (allEdgesRelaxed_vertex bestDistanceTo G)
          (seqZ 0 (size G)) () ;
    Return (finish (λ _, true) r).
End Checkers.

(** ** Building a graph *)

(** [Graph<T> G(N)] followed by one [addEdge] call per triple, as the
    constructor from a file does for the triples it reads. *)
Definition Graph_from {T} (N : Z) (edges : list (Z * Z * T))
    : outcome (Graph T) :=
  G ← Graph_new N ;
  match addEdges edges G with
  | (Return _, G') => Return G'
  | (Throw e, _) => Throw e
  | (Undefined, _) => Undefined
  end.

(** The graph at hand when the construction returned. *)
Definition returned {A} (d : A) (c : outcome A) : A :=
  match c with
  | Return a => a
  | _ => d
  end.

Definition empty_graph {T} : Graph T := mkGraph [] 0.

Module Examples.
(** Two vertices and the edge (0, 1) of weight 3. *)
Definition one_edge : Graph Z :=
  returned empty_graph (Graph_from 2 [(0, 1, 3)]).

(** Scenario A: the graph and the candidate tree. *)
Definition scenario_G : Graph Z :=
  returned empty_graph
    (Graph_from 4 [(0, 1, 1); (0, 2, 4); (1, 2, 2); (1, 3, 5); (2, 3, 1)]).

Definition scenario_T : Graph Z :=
  returned empty_graph (Graph_from 4 [(0, 1, 1); (1, 2, 2); (2, 3, 1)]).

(** [Graph<double>]: two vertices and no edge. *)
Definition double_isolated : Graph float :=
  returned empty_graph (Graph_from 2 []).

(** [Graph<double>]: three vertices and one edge, from 1 to 2, of weight
    [-2^1000]; the candidate tree on three vertices has no edge. *)
Definition double_G : Graph float :=
  returned empty_graph (Graph_from 3 [(1, 2, (-0x1p+1000)%float)]).

Definition double_T : Graph float :=
  returned empty_graph (Graph_from 3 []).

(** One vertex and no edge. *)
Definition single_vertex : Graph Z :=
  returned empty_graph (Graph_from 1 []).

(** [Graph<int>]: one vertex with an edge to itself, of weight [-2^30]. *)
Definition negative_loop : Graph Z :=
  returned empty_graph (Graph_from 1 [(0, 0, - 2 ^ 30)]).

(** [Graph<int>]: three vertices and the one edge (1, 2) of weight 5. *)
Definition int_edge : Graph Z :=
  returned empty_graph (Graph_from 3 [(1, 2, 5)]).

(** [Graph<int>]: two vertices on a cycle of weight 5. *)
Definition two_cycle : Graph Z :=
  returned empty_graph (Graph_from 2 [(0, 1, 2); (1, 0, 3)]).
End Examples.

(** ** Vocabulary of the statements *)

(** The edge is in [G], with an equal weight. *)
Definition edge_in `{Numeric T} (G : Graph T) (v w : Z) (weight : T) : Prop :=
  isEdge G v w = Return true
  ∧ ∃ weight', getEdgeWeight G v w = Return weight'
               ∧ eqb weight' weight = true.

(** The edge from [u] to [v] cannot be relaxed under the distances [d]:
    [d[u]] is [infinity<T>()], or the sum [d[u] + weight] is defined and
    [d[v] <= d[u] + weight]. *)
Definition relaxed `{Numeric T} (d : list T) (u v : Z) (weight : T) : Prop :=
  ∀ du dv, d !! Z.to_nat u = Some du → d !! Z.to_nat v = Some dv →
    neqb du infinity = true →
    ∃ sum, add du weight = Some sum ∧ leb dv sum = true.

(** The sums that [allEdgesRelaxed] forms under the distances [d] are all
    defined: none overflows. *)
Definition sums_defined `{Numeric T} (G : Graph T) (d : list T) : Prop :=
  ∀ u v weight du, edge G u v weight → d !! Z.to_nat u = Some du →
    neqb du infinity = true → is_Some (add du weight).

(** Every sum of the weight type is defined, as for [double]. *)
Definition add_total (T : Type) `{Numeric T} : Prop :=
  ∀ a b : T, is_Some (add a b).

(** Some sum of the weight type is not defined. *)
Definition add_overflows (T : Type) `{Numeric T} : Prop :=
  ∃ a b : T, add a b = None.

(** One entry of a distance vector is smaller, the others are the same:
    what an assignment [dist_to.at(nextVertex) = ...] of
    [pathLengthsFromRoot] does to [dist_to]. *)
Inductive dist_lt `{Numeric T} : list T → list T → Prop :=
  | dist_lt_here x y l : ltb x y = true → dist_lt (x :: l) (y :: l)
  | dist_lt_there x l l' : dist_lt l' l → dist_lt (x :: l') (x :: l).

(** [<] of the weight type, as a relation. *)
Definition weight_lt `{Numeric T} (a b : T) : Prop := ltb a b = true.

(** The traversal of [isTreePlusIsolated] comes to a vertex a second time:
    an edge from a vertex that [root] reaches leads back to [root], or two
    edges from two such vertices lead to the same vertex. *)
Definition revisit {T} (G : Graph T) (root : Z) : Prop :=
  ∃ u v, reachable G root u ∧ has_edge G u v
         ∧ (v = root
            ∨ ∃ u', u' ≠ u ∧ reachable G root u' ∧ has_edge G u' v).

(** A vertex that [root] does not reach has an outgoing edge. *)
Definition unreached_with_edge {T} (G : Graph T) (root : Z) : Prop :=
  ∃ v w, 0 ≤ v < numVertices G ∧ ¬ reachable G root v ∧ has_edge G v w.

(** *** The invariant of the traversal

    [P] are the vertices popped and done with, [cur] is the vertex whose
    edges are being followed, [todo] the ends of its edges not followed
    yet, [q] the queue.  The vertices seen are these, in the order in which
    they were marked. *)
Definition seen (P : list Z) (cur : option Z) (q : list Z) : list Z :=
  P ++ option_list cur ++ q.

Record visit_inv {T} (G : Graph T) (root : Z) (P : list Z) (cur : option Z)
    (todo : list Z) (marked : list bool) (q : list Z) : Prop := {
  inv_length : Z.of_nat (length marked) = numVertices G;
  inv_seen : ∀ v,
    v ∈ seen P cur q ↔ 0 ≤ v ∧ marked !! Z.to_nat v = Some true;
  inv_nodup : NoDup (seen P cur q);
  inv_root : root ∈ seen P cur q;
  inv_reach : ∀ v, v ∈ seen P cur q → reachable G root v;
  inv_closed : ∀ u v, u ∈ P → has_edge G u v → v ∈ seen P cur q;
  inv_one_parent : ∀ u v, u ∈ P → has_edge G u v →
    v ≠ root ∧ ∀ u', u' ∈ P → has_edge G u' v → u' = u;
  inv_has_parent : ∀ v, v ∈ seen P cur q → v ≠ root →
    (∃ u, u ∈ P ∧ has_edge G u v)
    ∨ (∃ u, cur = Some u ∧ has_edge G u v ∧ v ∉ todo);
  inv_cur_done : ∀ u v, cur = Some u → has_edge G u v → v ∉ todo →
    v ∈ seen P cur q ∧ v ≠ root ∧ ∀ u', u' ∈ P → ¬ has_edge G u' v;
  inv_todo : ∀ u, cur = Some u →
    NoDup todo ∧ ∀ v, v ∈ todo → has_edge G u v
}.

(** Two vertices that [root] reaches have an edge to [v]: [v] has an
    in-degree above 1 among the vertices reached. *)
Definition two_parents {T} (G : Graph T) (root v : Z) : Prop :=
  ∃ u u', u ≠ u' ∧ reachable G root u ∧ reachable G root u'
          ∧ has_edge G u v ∧ has_edge G u' v.

(** [v] lies on a cycle. *)
Definition on_cycle {T} (G : Graph T) (v : Z) : Prop :=
  tc (has_edge G) v v.

(** *** An order-preserving rank of the values of [double]

    The rank of a valid binary64 value, so that [x < y] makes the rank of
    [x] smaller than that of [y]; it lies between [-bound] and [bound]. *)
Module DoubleOrder.
Definition key (m : positive) (e : Z) : Z := (e + 1074) * 2 ^ 53 + Z.pos m.
Definition bound : Z := 2046 * 2 ^ 53 + 1.
Definition rank (x : spec_float) : Z :=
  match x with
  | S754_zero _ | S754_nan => 0
  | S754_infinity s => if s then - bound else bound
  | S754_finite s m e => if s then - key m e else key m e
  end.
End DoubleOrder.

(** The weight of the first triple of [edges] that goes from [i] to [j]. *)
Fixpoint first_weight {T} (edges : list (Z * Z * T)) (i j : Z) : option T :=
  match edges with
  | [] => None
  | (i', j', weight) :: rest =>
      if decide (i' = i ∧ j' = j) then Some weight
      else first_weight rest i j
  end.

(** Both ends of the triple are vertices of a graph with [N] vertices. *)
Definition triple_in_range {T} (N : Z) (e : Z * Z * T) : Prop :=
  0 ≤ e.1.1 < N ∧ 0 ≤ e.1.2 < N.

(** Under the distances [d] the distance of [v] is not above that of [u]
    plus the weight: the sum is defined and the test of
    [pathLengthsFromRoot] for the edge from [u] to [v] fails. *)
Definition edge_settled `{Numeric T} (d : list T) (u v : Z) (weight : T)
    : Prop :=
  ∀ du dv, d !! Z.to_nat u = Some du → d !! Z.to_nat v = Some dv →
    ∃ sum, add du weight = Some sum ∧ gtb dv sum = false.

(** What the loop of [pathLengthsFromRoot] keeps for a vertex [x]: it is in
    the queue, or its distance is still [numeric_limits<T>::max()], or all
    its edges are settled. *)
Definition vertex_settled `{Numeric T} (G : Graph T) (d : list T)
    (q : list Z) (x : Z) : Prop :=
  x ∈ q
  ∨ d !! Z.to_nat x = Some limits_max
  ∨ ∀ v weight, edge G x v weight → edge_settled d x v weight.

(** [G] is a tree with the root [root], and vertices without any edge:
    every edge leaves a vertex that [root] reaches, no edge leads to
    [root], and no vertex has edges from two vertices. *)
Definition tree_plus_isolated {T} (G : Graph T) (root : Z) : Prop :=
  (∀ u v, has_edge G u v → reachable G root u)
  ∧ (∀ u, ¬ has_edge G u root)
  ∧ (∀ u u' v, has_edge G u v → has_edge G u' v → u = u').

(** What [pathLengthsFromRoot] leaves at the end of an edge that still has
    [numeric_limits<T>::max()], when [sum] is the distance of the origin
    plus the weight. *)
Definition child_distance `{Numeric T} (sum : T) : T :=
  if gtb limits_max sum then sum else limits_max.

(** *** The invariant of [pathLengthsFromRoot] on a tree

    [P], [cur], [todo] and [q] are as for the traversal of
    [isTreePlusIsolated]: the vertices popped and done with, the vertex
    whose edges are being followed, the ends of its edges not followed yet,
    and the queue. *)
Record relax_inv {T} `{Numeric T} (G : Graph T) (root : Z) (P : list Z)
    (cur : option Z) (todo : list Z) (d : list T) (q : list Z) : Prop := {
  rinv_length : Z.of_nat (length d) = numVertices G;
  rinv_nodup : NoDup (seen P cur q);
  rinv_range : ∀ x, x ∈ seen P cur q → 0 ≤ x < numVertices G;
  rinv_root : root ∈ seen P cur q;
  rinv_parent : ∀ x, x ∈ seen P cur q → x ≠ root →
    (∃ p, p ∈ P ∧ has_edge G p x)
    ∨ (∃ u, cur = Some u ∧ has_edge G u x ∧ x ∉ todo);
  rinv_fresh : ∀ x, 0 ≤ x < numVertices G → x ∉ seen P cur q →
    d !! Z.to_nat x = Some limits_max;
  rinv_children : ∀ p v weight dp, p ∈ P → edge G p v weight →
    d !! Z.to_nat p = Some dp →
    ∃ sum, add dp weight = Some sum
           ∧ d !! Z.to_nat v = Some (child_distance sum)
           ∧ (v ∈ seen P cur q ↔ gtb limits_max sum = true);
  rinv_cur : ∀ u v weight du, cur = Some u → edge G u v weight →
    v ∉ todo → d !! Z.to_nat u = Some du →
    ∃ sum, add du weight = Some sum
           ∧ d !! Z.to_nat v = Some (child_distance sum)
           ∧ (v ∈ seen P cur q ↔ gtb limits_max sum = true);
  rinv_todo : ∀ u, cur = Some u →
    NoDup todo ∧ ∀ v, v ∈ todo → has_edge G u v;
  rinv_zero : d !! Z.to_nat root = Some zero
}.

(** The loop of [pathLengthsFromRoot] on a tree comes to a sum that is not
    defined: the distance of the current vertex plus the weight of its
    next edge. *)
Definition tree_overflow `{Numeric T} (G : Graph T) (root : Z) : Prop :=
  ∃ P todo d q u v weight du,
    relax_inv G root P (Some u) (v :: todo) d q
    ∧ edge G u v weight ∧ d !! Z.to_nat u = Some du
    ∧ add du weight = None.

(** *** Walks and their weights, for [Graph<int>]

    A walk in [G] from [u]: the vertices it leaves, the last one first, the
    vertex where it ends, and the sum of the weights of its edges, in
    [Z]. *)
Inductive walk (G : Graph Z) (u : Z) : list Z → Z → Z → Prop :=
  | walk_nil : walk G u [] u 0
  | walk_snoc l v x weight W :
      walk G u l v W → edge G v x weight →
      walk G u (v :: l) x (W + weight).

(** Every weight of [G] is between [lo] and [hi]. *)
Definition weights_within (lo hi : Z) (G : Graph Z) : Prop :=
  ∀ u v weight, edge G u v weight → lo ≤ weight ≤ hi.

(** The same, as a test on the adjacency maps. *)
Definition weights_withinb (lo hi : Z) (G : Graph Z) : bool :=
  forallb
    (λ m : gmap Z Z,
       forallb (λ e : Z * Z, (lo <=? e.2) && (e.2 <=? hi)) (map_to_list m))
    (adjList G).

(** * Properties *)

(** ** Containers *)

Lemma vector_at_Return {A} (v : list A) (i : Z) (x : A) :
  vector_at v i = Return x ↔ 0 ≤ i ∧ v !! Z.to_nat i = Some x.
Proof.
  unfold vector_at. split.
  - case_decide as Hi; [|done].
    destruct (v !! Z.to_nat i) eqn:E; [|done].
    intros [= ->]. split; [lia|done].
  - intros [Hi Hx]. pose proof (lookup_lt_Some _ _ _ Hx) as Hlt.
    rewrite decide_True by lia. by rewrite Hx.
Qed.

Lemma vector_at_outside {A} (v : list A) (i : Z) :
  ¬ (0 ≤ i < Z.of_nat (length v)) → vector_at v i = Throw out_of_range.
Proof. intros Hi. unfold vector_at. by rewrite decide_False. Qed.

Lemma vector_at_inside {A} (v : list A) (i : Z) :
  0 ≤ i < Z.of_nat (length v) → ∃ x, vector_at v i = Return x.
Proof.
  intros Hi. destruct (lookup_lt_is_Some_2 v (Z.to_nat i)) as [x Hx]; [lia|].
  exists x. apply vector_at_Return. split; [lia|done].
Qed.

Lemma vector_at_cases {A} (v : list A) (i : Z) :
  (∃ x, vector_at v i = Return x) ∨ vector_at v i = Throw out_of_range.
Proof.
  destruct (decide (0 ≤ i < Z.of_nat (length v))) as [Hi|Hi].
  - left. by apply vector_at_inside.
  - right. by apply vector_at_outside.
Qed.

Lemma vector_set_Return {A} (v v' : list A) (i : Z) (x : A) :
  vector_set v i x = Return v' ↔
  0 ≤ i < Z.of_nat (length v) ∧ v' = <[Z.to_nat i := x]> v.
Proof.
  unfold vector_set. split.
  - destruct (vector_at v i) as [y| |] eqn:E; simpl; [|done..].
    intros [= <-]. apply vector_at_Return in E as [Hi Hy].
    apply lookup_lt_Some in Hy. split; [lia|done].
  - intros [Hi ->]. destruct (vector_at_inside v i Hi) as [y ->]. done.
Qed.

Lemma vector_set_outside {A} (v : list A) (i : Z) (x : A) :
  ¬ (0 ≤ i < Z.of_nat (length v)) → vector_set v i x = Throw out_of_range.
Proof. intros Hi. unfold vector_set. by rewrite vector_at_outside. Qed.

Lemma vector_new_Return {A} (n : Z) (x : A) :
  0 ≤ n → vector_new n x = Return (replicate (Z.to_nat n) x).
Proof. intros Hn. unfold vector_new. by rewrite decide_True. Qed.

Lemma map_contains_true {T} (m : gmap Z T) (k : Z) :
  map_contains m k = true ↔ is_Some (m !! k).
Proof. unfold map_contains. apply bool_decide_eq_true. Qed.

Lemma map_contains_false {T} (m : gmap Z T) (k : Z) :
  map_contains m k = false ↔ m !! k = None.
Proof.
  unfold map_contains. rewrite bool_decide_eq_false.
  by rewrite eq_None_not_Some.
Qed.

Lemma map_insert_lookup {T} (m : gmap Z T) (k : Z) (x : T) :
  map_insert k x m !! k = Some (default x (m !! k)).
Proof.
  unfold map_insert. destruct (m !! k) eqn:E; simpl; [done|].
  apply lookup_insert_eq.
Qed.

Lemma map_insert_lookup_ne {T} (m : gmap Z T) (k k' : Z) (x : T) :
  k ≠ k' → map_insert k x m !! k' = m !! k'.
Proof.
  intros Hne. unfold map_insert. destruct (m !! k); [done|].
  by apply lookup_insert_ne.
Qed.

Lemma map_empty_true {T} (m : gmap Z T) : map_empty m = true ↔ m = ∅.
Proof.
  unfold map_empty. destruct (map_to_list m) eqn:E.
  - by apply map_to_list_empty_iff in E.
  - split; [done|]. intros ->. by rewrite map_to_list_empty in E.
Qed.

(** ** The graph and its invariant *)

Section GraphFacts.
Context {T : Type}.
Implicit Types (G : Graph T) (i j u v : Z) (weight : T).

Lemma Graph_new_wf N G : Graph_new N = Return G → graph_wf G.
Proof.
  unfold Graph_new. case_decide; [|done]. intros [= <-].
  split_and!; simpl; [done|rewrite length_replicate; lia|].
  intros n m j w [-> _]%lookup_replicate. by rewrite lookup_empty.
Qed.

Lemma addEdge_wf i j weight G : graph_wf G → graph_wf (addEdge i j weight G).2.
Proof.
  intros (HN & Hlen & Hkeys). unfold addEdge.
  case_decide as Hr; [done|].
  destruct (adjList G !! Z.to_nat i) as [m|] eqn:Hm; [|done].
  split_and!; simpl; [done|by rewrite length_insert|].
  intros n m' k w Hn Hk.
  destruct (decide (n = Z.to_nat i)) as [->|Hne].
  - rewrite list_lookup_insert_eq in Hn by (by eapply lookup_lt_Some).
    injection Hn as <-.
    destruct (decide (j = k)) as [->|Hjk]; [lia|].
    rewrite map_insert_lookup_ne in Hk by done. eauto.
  - rewrite list_lookup_insert_ne in Hn by done. eauto.
Qed.

Lemma addEdges_wf l G : graph_wf G → graph_wf (addEdges l G).2.
Proof.
  revert G. induction l as [|[[i j] w] l IH]; intros G HG; [done|].
  simpl. pose proof (addEdge_wf i j w G HG) as HG'.
  destruct (addEdge i j w G) as [[[]| |] G']; simpl in *; auto.
Qed.

Lemma Graph_from_wf N l G : Graph_from N l = Return G → graph_wf G.
Proof.
  unfold Graph_from. destruct (Graph_new N) as [G0| |] eqn:E; [|done..].
  simpl. pose proof (addEdges_wf l G0 (Graph_new_wf _ _ E)) as HG'.
  destruct (addEdges l G0) as [[[]| |] G']; [|done..].
  by intros [= <-].
Qed.

Lemma removeEdge_wf i j G : graph_wf G → graph_wf (removeEdge i j G).2.
Proof.
  intros (HN & Hlen & Hkeys). unfold removeEdge.
  case_decide as Hr; [|done].
  destruct (adjList G !! Z.to_nat i) as [m|] eqn:Hm; [|done].
  split_and!; simpl; [done|by rewrite length_insert|].
  intros n m' k w Hn Hk.
  destruct (decide (n = Z.to_nat i)) as [->|Hne].
  - rewrite list_lookup_insert_eq in Hn by (by eapply lookup_lt_Some).
    injection Hn as <-. apply lookup_delete_Some in Hk as [_ Hk]. eauto.
  - rewrite list_lookup_insert_ne in Hn by done. eauto.
Qed.

(** A vertex of a well-formed graph has its adjacency map. *)
Lemma graph_wf_lookup G i :
  graph_wf G → 0 ≤ i < numVertices G →
  ∃ m, adjList G !! Z.to_nat i = Some m.
Proof.
  intros (HN & Hlen & _) Hi. apply lookup_lt_is_Some_2. lia.
Qed.

Lemma neighbours_Return G a m :
  neighbours G a = Return m ↔ 0 ≤ a ∧ adjList G !! Z.to_nat a = Some m.
Proof.
  unfold neighbours, vector_deref. case_decide as Ha.
  - destruct (adjList G !! Z.to_nat a) as [m'|]; split;
      try done; intros Hm; [split; [done|]|destruct Hm as [_ ?]..];
      congruence.
  - split; [done|]. by intros [? _].
Qed.

Lemma neighbours_vertex G a :
  graph_wf G → 0 ≤ a < numVertices G → ∃ m, neighbours G a = Return m.
Proof.
  intros HG Ha. destruct (graph_wf_lookup G a HG Ha) as [m Hm].
  exists m. apply neighbours_Return. split; [lia|done].
Qed.

(** [isEdge] and [getEdgeWeight] against the edges of the graph. *)
Lemma isEdge_true G i j :
  graph_wf G → isEdge G i j = Return true ↔ ∃ weight, edge G i j weight.
Proof.
  intros HG. unfold isEdge, edge. split.
  - case_decide as Hr; [|done].
    destruct (vector_at (adjList G) i) as [m| |] eqn:E; [|done..].
    simpl. intros [= Hc]. apply map_contains_true in Hc as [w Hw].
    apply vector_at_Return in E as [? E]. eauto.
  - intros (w & Hi & m & Hm & Hw).
    destruct HG as (HN & Hlen & Hkeys).
    pose proof (Hkeys _ _ _ _ Hm Hw) as Hj.
    pose proof (lookup_lt_Some _ _ _ Hm) as Hlt.
    rewrite decide_True by lia.
    assert (vector_at (adjList G) i = Return m) as ->
      by (by apply vector_at_Return).
    simpl. f_equal. apply map_contains_true. eauto.
Qed.

Lemma isEdge_total G i j :
  graph_wf G → isEdge G i j = Return true ∨ isEdge G i j = Return false.
Proof.
  intros (HN & Hlen & _). unfold isEdge. case_decide as Hr; [|by right].
  destruct (vector_at_inside (adjList G) i) as [m ->]; [lia|].
  simpl. destruct (map_contains m j); auto.
Qed.

Lemma getEdgeWeight_Return G i j weight :
  getEdgeWeight G i j = Return weight ↔ edge G i j weight.
Proof.
  unfold getEdgeWeight, edge, map_at. split.
  - destruct (vector_at (adjList G) i) as [m| |] eqn:E; [|done..].
    simpl. destruct (m !! j) eqn:Hj; [|done]. intros [= ->].
    apply vector_at_Return in E as [? E]. eauto.
  - intros (Hi & m & Hm & Hw).
    assert (vector_at (adjList G) i = Return m) as ->
      by (by apply vector_at_Return).
    simpl. by rewrite Hw.
Qed.

Lemma getEdgeWeight_cases G i j :
  (∃ weight, getEdgeWeight G i j = Return weight)
  ∨ getEdgeWeight G i j = Throw out_of_range.
Proof.
  unfold getEdgeWeight, map_at.
  destruct (vector_at_cases (adjList G) i) as [[m ->] | ->]; [|by right].
  simpl. destruct (m !! j); eauto.
Qed.

(** Where [isEdge] says no, [getEdgeWeight] throws. *)
Lemma getEdgeWeight_not_isEdge G i j :
  graph_wf G → isEdge G i j = Return false →
  getEdgeWeight G i j = Throw out_of_range.
Proof.
  intros HG Hno.
  destruct (getEdgeWeight_cases G i j) as [[w Hw] | Hw]; [|done].
  apply getEdgeWeight_Return in Hw.
  assert (isEdge G i j = Return true) by (apply isEdge_true; eauto).
  congruence.
Qed.

(** After [removeEdge(i, j)] there is no edge from [i] to [j]. *)
Lemma removeEdge_not_edge G i j weight :
  graph_wf G → ¬ edge (removeEdge i j G).2 i j weight.
Proof.
  intros HG (Hi & m & Hm & Hw). unfold removeEdge in Hm.
  case_decide as Hr.
  - destruct (adjList G !! Z.to_nat i) as [m0|] eqn:Hm0; simpl in Hm.
    + rewrite list_lookup_insert_eq in Hm by (by eapply lookup_lt_Some).
      injection Hm as <-. by rewrite lookup_delete_eq in Hw.
    + congruence.
  - destruct HG as (_ & Hlen & Hkeys). simpl in Hm.
    pose proof (lookup_lt_Some _ _ _ Hm).
    pose proof (Hkeys _ _ _ _ Hm Hw). lia.
Qed.

(** [addEdge] where there is no edge yet: the edge is there afterwards,
    with the weight given. *)
Lemma addEdge_fresh G i j weight :
  graph_wf G → 0 ≤ i < numVertices G → 0 ≤ j < numVertices G →
  isEdge G i j = Return false →
  (addEdge i j weight G).1 = Return ()
  ∧ isEdge (addEdge i j weight G).2 i j = Return true
  ∧ getEdgeWeight (addEdge i j weight G).2 i j = Return weight.
Proof.
  intros HG Hi Hj Hno.
  pose proof (addEdge_wf i j weight G HG) as HG'.
  destruct (graph_wf_lookup G i HG Hi) as [m Hm].
  assert (m !! j = None) as Hmj.
  { unfold isEdge in Hno. rewrite decide_True in Hno by lia.
    assert (vector_at (adjList G) i = Return m) as E
      by (apply vector_at_Return; split; [lia|done]).
    rewrite E in Hno. simpl in Hno. injection Hno as Hno.
    by apply map_contains_false. }
  assert (edge (addEdge i j weight G).2 i j weight) as He.
  { unfold addEdge. rewrite decide_False by lia. rewrite Hm. simpl.
    split; [lia|]. eexists. split.
    - apply list_lookup_insert_eq. by eapply lookup_lt_Some.
    - rewrite map_insert_lookup, Hmj. done. }
  split_and!.
  - unfold addEdge. rewrite decide_False by lia. by rewrite Hm.
  - apply isEdge_true; eauto.
  - by apply getEdgeWeight_Return.
Qed.

(** [addEdge] where there is an edge already: the call returns and the
    graph is as before, so the edge keeps the weight it had. *)
Lemma addEdge_existing G i j weight old :
  graph_wf G → edge G i j old →
  addEdge i j weight G = (Return (), G).
Proof.
  intros HG (Hi & m & Hm & Hw).
  destruct HG as (HN & Hlen & Hkeys).
  pose proof (Hkeys _ _ _ _ Hm Hw) as Hj.
  pose proof (lookup_lt_Some _ _ _ Hm) as Hlt.
  unfold addEdge. rewrite decide_False by lia. rewrite Hm.
  unfold map_insert. rewrite Hw. rewrite list_insert_id by done.
  by destruct G.
Qed.
Lemma has_edge_range G u v :
  graph_wf G → has_edge G u v →
  0 ≤ u < numVertices G ∧ 0 ≤ v < numVertices G.
Proof.
  intros (_ & Hlen & Hkeys) (w & Hu & m & Hm & Hw).
  pose proof (lookup_lt_Some _ _ _ Hm). pose proof (Hkeys _ _ _ _ Hm Hw).
  lia.
Qed.

Lemma has_edge_neighbours G u m v :
  neighbours G u = Return m →
  has_edge G u v ↔ v ∈ (map_to_list m).*1.
Proof.
  intros [Hu Hm]%neighbours_Return. unfold has_edge, edge. split.
  - intros (w & _ & m' & Hm' & Hw). assert (m' = m) as -> by congruence.
    apply list_elem_of_fmap. exists (v, w). split; [done|].
    by apply elem_of_map_to_list.
  - intros ([v' w] & -> & Hvw%elem_of_map_to_list)%list_elem_of_fmap.
    exists w. eauto.
Qed.
(** A vertex that [root] reaches and that lies on a cycle makes the
    traversal come to some vertex twice, and so do two reached parents;
    there is no other way. *)
Lemma cycle_revisit G root v :
  reachable G root v → on_cycle G v → revisit G root.
Proof.
  intros [n Hn]%rtc_nsteps_1. revert v Hn.
  induction n as [|n IH]; intros v Hn Hcyc.
  - inversion Hn; subst.
    apply tc_nsteps in Hcyc as ([|k] & Hk & Hsteps); [lia|].
    apply nsteps_inv_r in Hsteps as (z & Hz%rtc_nsteps_2 & He).
    exists z, v. split_and!; [done..|by left].
  - pose proof (rtc_nsteps_2 _ _ _ Hn) as Hv.
    apply nsteps_inv_r in Hn as (p & Hp & Hpv).
    apply tc_nsteps in Hcyc as ([|k] & Hk & Hsteps); [lia|].
    apply nsteps_inv_r in Hsteps as (z & Hz%rtc_nsteps_2 & He).
    destruct (decide (p = z)) as [->|Hne].
    + apply (IH z Hp). eapply tc_rtc_r; [by apply tc_once|done].
    + exists z, v. split_and!; [unfold reachable in *; by etrans|done|].
      right. exists p. split_and!; [done|by eapply rtc_nsteps_2|done].
Qed.

Lemma revisit_iff G root :
  revisit G root ↔
  ∃ v, reachable G root v ∧ (two_parents G root v ∨ on_cycle G v).
Proof.
  split.
  - intros (u & v & Hu & He & [-> | (u' & Hne & Hu' & He')]).
    + exists root. split; [apply rtc_refl|]. right.
      eapply tc_rtc_l; [done|by apply tc_once].
    + exists v. split; [by eapply rtc_r|]. left. exists u', u.
      by split_and!.
  - intros (v & Hv & [(u & u' & Hne & Hu & Hu' & He & He') | Hcyc]).
    + exists u, v. split_and!; [done..|]. right. by exists u'.
    + by eapply cycle_revisit.
Qed.
End GraphFacts.

(** C1: after [addEdge(i, j, w)], [isEdge(i, j)] is true and
    [edgeWeight(i, j)] is [w], also when there was an edge from [i] to [j].
    The code keeps the old weight: on the graph with two vertices and the
    edge (0, 1) of weight 3, [addEdge(0, 1, 5)] returns, and
    [getEdgeWeight(0, 1)] is 3 afterwards, not 5. *)
Theorem addEdge_existing_edge_keeps_old_weight :
  graph_wf Examples.one_edge
  ∧ getEdgeWeight Examples.one_edge 0 1 = Return 3
  ∧ (addEdge 0 1 5 Examples.one_edge).1 = Return ()
  ∧ isEdge (addEdge 0 1 5 Examples.one_edge).2 0 1 = Return true
  ∧ getEdgeWeight (addEdge 0 1 5 Examples.one_edge).2 0 1 = Return 3
  ∧ getEdgeWeight (addEdge 0 1 5 Examples.one_edge).2 0 1 ≠ Return 5.
Proof.
  split; [by apply (Graph_from_wf 2 [(0, 1, 3)])|].
  by vm_compute.
Qed.

(** C7: [addEdge(i, j, w)] with [i] or [j] outside [0, N) throws
    [std::out_of_range], and the graph is as it was before the call. *)
Theorem addEdge_out_of_range {T} (G : Graph T) (i j : Z) (weight : T) :
  i < 0 ∨ i >= numVertices G ∨ j < 0 ∨ j >= numVertices G →
  addEdge i j weight G = (Throw out_of_range, G).
Proof. intros Hr. unfold addEdge. by rewrite decide_True. Qed.

Lemma addEdge_out_of_range_witness :
  addEdge 0 2 7 Examples.one_edge = (Throw out_of_range, Examples.one_edge).
Proof. apply addEdge_out_of_range. vm_compute. intuition congruence. Defined.

(** C8: [getEdgeWeight(i, j)] where there is no edge from [i] to [j], whether
    [i] is a vertex or not, throws [std::out_of_range]; it returns no
    weight. *)
Theorem getEdgeWeight_no_edge {T} (G : Graph T) (i j : Z) :
  (∀ weight, ¬ edge G i j weight) →
  getEdgeWeight G i j = Throw out_of_range
  ∧ ∀ weight, getEdgeWeight G i j ≠ Return weight.
Proof.
  intros Hno.
  destruct (getEdgeWeight_cases G i j) as [[w Hw] | Hw].
  - apply getEdgeWeight_Return in Hw. by destruct (Hno w).
  - split; [done|]. intros w. by rewrite Hw.
Qed.

Lemma getEdgeWeight_no_edge_witness :
  getEdgeWeight Examples.one_edge 1 0 = Throw out_of_range
  ∧ ∀ weight, getEdgeWeight Examples.one_edge 1 0 ≠ Return weight.
Proof.
  apply getEdgeWeight_no_edge. intros w (_ & m & Hm & Hw).
  vm_compute in Hm. injection Hm as <-. done.
Defined.

(** ** Loops that only check *)

(** A loop whose body either goes on or leaves with [false] computes a
    conjunction. *)
Lemma for_each_check {A} (P : A → Prop)
    (body : A → unit → outcome (flow bool unit)) (l : list A) :
  (∀ x, x ∈ l →
     (P x ∧ body x () = Return (Next ()))
     ∨ (¬ P x ∧ body x () = Return (Break false))) →
  (Forall P l ∧ for_each body l () = Return (Next ()))
  ∨ (¬ Forall P l ∧ for_each body l () = Return (Break false)).
Proof.
  induction l as [|x l IH]; intros Hbody.
  - left. by split.
  - destruct (Hbody x) as [[HP Hx] | [HP Hx]]; [by left| |].
    + destruct IH as [[HF Hl] | [HF Hl]].
      * intros y Hy. apply Hbody. by right.
      * left. split; [by constructor|]. simpl. by rewrite Hx.
      * right. split; [|simpl; by rewrite Hx].
        intros HF'. by apply Forall_cons in HF' as [_ ?].
    + right. split; [|simpl; by rewrite Hx].
      intros HF'. by apply Forall_cons in HF' as [? _].
Qed.

(** The same for a body that can also have undefined behaviour. *)
Lemma for_each_verdict {A} (P : A → Prop) (U : Prop)
    (body : A → unit → outcome (flow bool unit)) (l : list A) :
  (∀ x, x ∈ l →
     (P x ∧ body x () = Return (Next ()))
     ∨ (¬ P x ∧ body x () = Return (Break false))
     ∨ (¬ P x ∧ U ∧ body x () = Undefined)) →
  (Forall P l ∧ for_each body l () = Return (Next ()))
  ∨ (¬ Forall P l ∧ for_each body l () = Return (Break false))
  ∨ (¬ Forall P l ∧ U ∧ for_each body l () = Undefined).
Proof.
  induction l as [|x l IH]; intros Hbody.
  - left. by split.
  - assert (∀ Q : Prop, ¬ P x → ¬ Forall P (x :: l)) as Hhead
      by (intros _ HP HF; by apply Forall_cons in HF as [? _]).
    destruct (Hbody x) as [[HP Hx] | [[HP Hx] | (HP & HU & Hx)]];
      [by left| | |].
    + destruct IH as [[HF Hl] | [[HF Hl] | (HF & HU & Hl)]].
      * intros y Hy. apply Hbody. by right.
      * left. split; [by constructor|]. simpl. by rewrite Hx.
      * right. left. split; [|simpl; by rewrite Hx].
        intros HF'. by apply Forall_cons in HF' as [_ ?].
      * right. right. split_and!; [|done|simpl; by rewrite Hx].
        intros HF'. by apply Forall_cons in HF' as [_ ?].
    + right. left. split; [by apply Hhead|simpl; by rewrite Hx].
    + right. right. split_and!; [by apply Hhead|done|simpl; by rewrite Hx].
Qed.

Lemma for_each_cons {A R S} (body : A → S → outcome (flow R S))
    (x : A) (l : list A) (s : S) :
  for_each body (x :: l) s
  = body x s ≫= λ r, match r with
                     | Break v => Return (Break v)
                     | Next s' => for_each body l s'
                     end.
Proof. done. Qed.

Lemma Forall_map_to_list {T} (P : Z → T → Prop) (m : gmap Z T) :
  Forall (λ e, P e.1 e.2) (map_to_list m) ↔ ∀ k x, m !! k = Some x → P k x.
Proof.
  rewrite Forall_forall. split.
  - intros HP k x Hk. by apply (HP (k, x)), elem_of_map_to_list.
  - intros HP [k x] Hk. by apply HP, elem_of_map_to_list.
Qed.

Lemma Forall_seqZ_vertices (P : Z → Prop) (n : Z) :
  Forall P (seqZ 0 n) ↔ ∀ v, 0 ≤ v < n → P v.
Proof.
  rewrite Forall_forall. split.
  - intros HP v Hv. apply HP, elem_of_seqZ. lia.
  - intros HP v Hv%elem_of_seqZ. apply HP. lia.
Qed.

(** ** [isSubgraph] *)

Section IsSubgraph.
Context {T : Type} {NT : Numeric T}.
Implicit Types (H G : Graph T).

Lemma isSubgraph_edge_spec G vertexH (e : Z * T) :
  graph_wf G →
  (edge_in G vertexH e.1 e.2
   ∧ isSubgraph_edge G vertexH e () = Return (Next ()))
  ∨ (¬ edge_in G vertexH e.1 e.2
     ∧ isSubgraph_edge G vertexH e () = Return (Break false)).
Proof.
  intros HG. unfold isSubgraph_edge, edge_in.
  destruct (isEdge_total G vertexH e.1 HG) as [Hp | Hp]; rewrite Hp; simpl.
  - apply isEdge_true in Hp as [w' Hw']; [|done].
    apply getEdgeWeight_Return in Hw'. rewrite Hw'. simpl.
    unfold neqb. destruct (eqb w' e.2) eqn:Heq; simpl.
    + left. eauto.
    + right. split; [|done]. intros (_ & w'' & [= <-] & ?). congruence.
  - right. split; [|done]. by intros [? _].
Qed.

Lemma isSubgraph_vertex_spec H G vertexH :
  graph_wf H → graph_wf G → 0 ≤ vertexH < size H →
  let P := ∀ w weight, edge H vertexH w weight → edge_in G vertexH w weight in
  (P ∧ isSubgraph_vertex H G vertexH () = Return (Next ()))
  ∨ (¬ P ∧ isSubgraph_vertex H G vertexH () = Return (Break false)).
Proof.
  intros HH HG Hv P. unfold isSubgraph_vertex.
  destruct (neighbours_vertex H vertexH HH Hv) as [m Hm]. rewrite Hm. simpl.
  apply neighbours_Return in Hm as [_ Hm].
  assert (P ↔ Forall (λ e, edge_in G vertexH e.1 e.2) (map_to_list m)) as ->.
  { rewrite (Forall_map_to_list (edge_in G vertexH)). unfold P, edge.
    split.
    - intros HP k x Hk. apply HP. split; [lia|eauto].
    - intros HP w weight (_ & m' & Hm' & Hw). apply HP. congruence. }
  apply for_each_check. intros e _. by apply isSubgraph_edge_spec.
Qed.

(** [isSubgraph] returns a verdict on well-formed graphs. *)
Lemma isSubgraph_returns H G :
  graph_wf H → graph_wf G → ∃ b, isSubgraph H G = Return b.
Proof.
  intros HH HG. unfold isSubgraph. case_decide; [by eexists|].
  destruct (for_each_check
    (λ v, ∀ w weight, edge H v w weight → edge_in G v w weight)
    (isSubgraph_vertex H G) (seqZ 0 (size H))) as [[_ ->] | [_ ->]];
    [|by eexists..].
  intros v Hv%elem_of_seqZ. apply isSubgraph_vertex_spec; [done..|lia].
Qed.
End IsSubgraph.

(** C6: [isSubgraph(H, G)] is false when [H] has more vertices than [G];
    otherwise it is true exactly when for every edge [(v, w, weight)] of
    [H], [G.isEdge(v, w)] is true and [G.getEdgeWeight(v, w) == weight]. *)
Theorem isSubgraph_spec {T} {NT : Numeric T} (H G : Graph T) :
  graph_wf H → graph_wf G →
  (size H > size G → isSubgraph H G = Return false)
  ∧ (size H ≤ size G →
     ∃ b, isSubgraph H G = Return b
          ∧ (b = true ↔
             ∀ v w weight, edge H v w weight →
               isEdge G v w = Return true
               ∧ ∃ weight', getEdgeWeight G v w = Return weight'
                            ∧ eqb weight' weight = true)).
Proof.
  intros HH HG. unfold isSubgraph. split.
  - intros Hgt. by rewrite decide_True.
  - intros Hle. rewrite decide_False by lia.
    destruct (for_each_check
      (λ v, ∀ w weight, edge H v w weight → edge_in G v w weight)
      (isSubgraph_vertex H G) (seqZ 0 (size H))) as [[HF ->] | [HF ->]].
    + intros v Hv%elem_of_seqZ. apply isSubgraph_vertex_spec; [done..|lia].
    + exists true. split; [done|]. split; [|done]. intros _ v w weight He.
      rewrite Forall_seqZ_vertices in HF. apply (HF v); [|done].
      destruct He as (Hv & m & Hm%lookup_lt_Some & _).
      destruct HH as (_ & Hlen & _). unfold size. lia.
    + exists false. split; [done|]. split; [done|]. intros Hall.
      destruct HF. apply Forall_seqZ_vertices. intros v _ w weight He.
      by apply Hall.
Qed.

Lemma isSubgraph_spec_witness :
  (size Examples.scenario_T > size Examples.scenario_G →
   isSubgraph Examples.scenario_T Examples.scenario_G = Return false)
  ∧ (size Examples.scenario_T ≤ size Examples.scenario_G →
     ∃ b, isSubgraph Examples.scenario_T Examples.scenario_G = Return b
          ∧ (b = true ↔
             ∀ v w weight, edge Examples.scenario_T v w weight →
               isEdge Examples.scenario_G v w = Return true
               ∧ ∃ weight',
                   getEdgeWeight Examples.scenario_G v w = Return weight'
                   ∧ eqb weight' weight = true)).
Proof.
  apply isSubgraph_spec.
  - by apply (Graph_from_wf 4 [(0, 1, 1); (1, 2, 2); (2, 3, 1)]).
  - by apply (Graph_from_wf 4
      [(0, 1, 1); (0, 2, 4); (1, 2, 2); (1, 3, 5); (2, 3, 1)]).
Defined.

(** ** [allEdgesRelaxed] *)

Section AllEdgesRelaxed.
Context {T : Type} {NT : Numeric T}.
Implicit Types (G : Graph T) (d : list T).

Lemma allEdgesRelaxed_edge_spec d u (e : Z * T) :
  0 ≤ u < Z.of_nat (length d) → 0 ≤ e.1 < Z.of_nat (length d) →
  (relaxed d u e.1 e.2
   ∧ allEdgesRelaxed_edge d u e () = Return (Next ()))
  ∨ (¬ relaxed d u e.1 e.2
     ∧ allEdgesRelaxed_edge d u e () = Return (Break false))
  ∨ (¬ relaxed d u e.1 e.2
     ∧ (∃ du, d !! Z.to_nat u = Some du ∧ neqb du infinity = true
              ∧ add du e.2 = None)
     ∧ allEdgesRelaxed_edge d u e () = Undefined).
Proof.
  intros Hu Hv. unfold allEdgesRelaxed_edge, relaxed, plus.
  destruct (vector_at_inside d u Hu) as [du Hdu].
  destruct (vector_at_inside d e.1 Hv) as [dv Hdv].
  rewrite Hdu. simpl. apply vector_at_Return in Hdu as [_ Hdu].
  destruct (neqb du infinity) eqn:Hinf.
  - rewrite Hdv. simpl. apply vector_at_Return in Hdv as [_ Hdv].
    destruct (add du e.2) as [sum|] eqn:Hsum; simpl.
    + destruct (gtb dv sum) eqn:Hgt.
      * right. left. split; [|done]. intros Hr.
        destruct (Hr du dv Hdu Hdv Hinf) as (sum' & Hsum' & Hle).
        assert (sum' = sum) as -> by congruence.
        unfold leb in Hle. by rewrite Hgt in Hle.
      * left. split; [|done]. intros du' dv' Hdu' Hdv' _.
        assert (du' = du) as -> by congruence.
        assert (dv' = dv) as -> by congruence.
        exists sum. split; [done|]. unfold leb. by rewrite Hgt.
    + right. right. split_and!; [|by eauto|done]. intros Hr.
      destruct (Hr du dv Hdu Hdv Hinf) as (sum' & ? & _). congruence.
  - left. split; [|done]. intros du' dv' Hdu' _ Hinf'.
    assert (du' = du) as -> by congruence. congruence.
Qed.

Lemma allEdgesRelaxed_vertex_spec d G u :
  graph_wf G → Z.of_nat (length d) = size G → 0 ≤ u < size G →
  let P := ∀ v weight, edge G u v weight → relaxed d u v weight in
  (P ∧ allEdgesRelaxed_vertex d G u () = Return (Next ()))
  ∨ (¬ P ∧ allEdgesRelaxed_vertex d G u () = Return (Break false))
  ∨ (¬ P ∧ (add_overflows T ∧ ¬ sums_defined G d)
     ∧ allEdgesRelaxed_vertex d G u () = Undefined).
Proof.
  intros HG Hlen Hu P. unfold allEdgesRelaxed_vertex.
  destruct (neighbours_vertex G u HG Hu) as [m Hm]. rewrite Hm. simpl.
  apply neighbours_Return in Hm as [_ Hm].
  assert (P ↔ Forall (λ e, relaxed d u e.1 e.2) (map_to_list m)) as ->.
  { rewrite (Forall_map_to_list (relaxed d u)). unfold P, edge.
    split.
    - intros HP k x Hk. apply HP. split; [lia|eauto].
    - intros HP w weight (_ & m' & Hm' & Hw). apply HP. congruence. }
  apply for_each_verdict. intros [v w] Hvw%elem_of_map_to_list.
  destruct HG as (_ & _ & Hkeys). pose proof (Hkeys _ _ _ _ Hm Hvw).
  destruct (allEdgesRelaxed_edge_spec d u (v, w))
    as [? | [? | (Hnot & (du & Hdu & Hinf & Hsum) & Hrun)]];
    [simpl; unfold size in *; lia..|by left|by right; left|].
  right. right. split_and!; [done| | |done].
  - by exists du, w.
  - intros Hdef. simpl in Hsum.
    destruct (Hdef u v w du) as [sum Hsum']; [|done|done|congruence].
    split; [lia|eauto].
Qed.

(** [allEdgesRelaxed] on a vector with one distance per vertex and
    [d[source] == 0]: the verdict is true exactly when every edge of [G] is
    relaxed.  Otherwise the verdict is false, unless a sum that is formed
    before overflows. *)
Lemma allEdgesRelaxed_spec d G source :
  graph_wf G → Z.of_nat (length d) = size G →
  (∃ ds, vector_at d source = Return ds ∧ eqb ds zero = true) →
  let P := ∀ u v weight, edge G u v weight → relaxed d u v weight in
  (P ∧ allEdgesRelaxed d G source = Return true)
  ∨ (¬ P ∧ allEdgesRelaxed d G source = Return false)
  ∨ (¬ P ∧ (add_overflows T ∧ ¬ sums_defined G d)
     ∧ allEdgesRelaxed d G source = Undefined).
Proof.
  intros HG Hlen (ds & Hds & Hzero) P. unfold allEdgesRelaxed.
  rewrite Hds. simpl. unfold neqb. rewrite Hzero. simpl.
  assert (P ↔ Forall
    (λ u, ∀ v weight, edge G u v weight → relaxed d u v weight)
    (seqZ 0 (size G))) as ->.
  { rewrite Forall_seqZ_vertices. unfold P. split; [by eauto|].
    intros HF u v weight He. apply (HF u); [|done].
    destruct He as (Hu & m & Hm%lookup_lt_Some & _).
    destruct HG as (_ & Hl & _). unfold size. lia. }
  destruct (for_each_verdict
    (λ u, ∀ v weight, edge G u v weight → relaxed d u v weight)
    (add_overflows T ∧ ¬ sums_defined G d)
    (allEdgesRelaxed_vertex d G) (seqZ 0 (size G)))
    as [[HF ->] | [[HF ->] | (HF & HU & ->)]]; simpl; auto.
  intros v Hv%elem_of_seqZ. apply allEdgesRelaxed_vertex_spec; [done..|lia].
Qed.

(** So the verdict is true exactly when every edge is relaxed. *)
Lemma allEdgesRelaxed_true_iff d G source :
  graph_wf G → Z.of_nat (length d) = size G →
  (∃ ds, vector_at d source = Return ds ∧ eqb ds zero = true) →
  allEdgesRelaxed d G source = Return true ↔
  ∀ u v weight, edge G u v weight → relaxed d u v weight.
Proof.
  intros HG Hlen Hs.
  destruct (allEdgesRelaxed_spec d G source HG Hlen Hs)
    as [[HP ->] | [[HP ->] | (HP & _ & ->)]]; split; done.
Qed.

(** A vector whose entry for [source] is not 0 is turned down. *)
Lemma allEdgesRelaxed_source_not_zero d G source ds :
  vector_at d source = Return ds → eqb ds zero = false →
  allEdgesRelaxed d G source = Return false.
Proof.
  intros Hds Hz. unfold allEdgesRelaxed. rewrite Hds. simpl.
  unfold neqb. by rewrite Hz.
Qed.

(** On a vector with one distance per vertex the call throws nothing: it
    returns a verdict, or a sum that it forms overflows. *)
Lemma allEdgesRelaxed_outcome d G source :
  graph_wf G → Z.of_nat (length d) = size G → 0 ≤ source < size G →
  (∃ b, allEdgesRelaxed d G source = Return b)
  ∨ (allEdgesRelaxed d G source = Undefined
     ∧ add_overflows T ∧ ¬ sums_defined G d).
Proof.
  intros HG Hlen Hs.
  destruct (vector_at_inside d source) as [ds Hds]; [lia|].
  destruct (eqb ds zero) eqn:Hz.
  - destruct (allEdgesRelaxed_spec d G source HG Hlen)
      as [[_ ->] | [[_ ->] | (_ & HU & ->)]]; by eauto.
  - left. exists false. by eapply allEdgesRelaxed_source_not_zero.
Qed.

(** It returns a verdict when no sum that it can form overflows. *)
Lemma allEdgesRelaxed_returns d G source :
  graph_wf G → Z.of_nat (length d) = size G → 0 ≤ source < size G →
  sums_defined G d →
  ∃ b, allEdgesRelaxed d G source = Return b.
Proof.
  intros HG Hlen Hs Hdef.
  by destruct (allEdgesRelaxed_outcome d G source HG Hlen Hs)
    as [? | (_ & _ & ?)].
Qed.

(** An edge that leaves a vertex whose distance is [infinity<T>()] is
    relaxed, whatever its weight and its end. *)
Lemma relaxed_from_infinity d u v weight du :
  d !! Z.to_nat u = Some du → eqb du infinity = true → relaxed d u v weight.
Proof.
  intros Hdu Hinf du' dv Hdu' _. assert (du' = du) as -> by congruence.
  unfold neqb. by rewrite Hinf.
Qed.
End AllEdgesRelaxed.

(** ** Fuel *)

(** More fuel does not change what a loop computes. *)
Section Fuel.
Context {T : Type} {NT : Numeric T}.

Lemma visit_loop_mono (n m : nat) (G : Graph T) marked visit_queue r :
  visit_loop n G marked visit_queue = Some r → (n ≤ m)%nat →
  visit_loop m G marked visit_queue = Some r.
Proof.
  revert m marked visit_queue.
  induction n as [|n IH]; intros m marked [|u q]; simpl.
  - destruct m; done.
  - done.
  - destruct m; done.
  - intros Hn Hm. destruct m as [|m]; [lia|]. simpl.
    destruct (visit_vertex G u (marked, q)) as [[b|[marked' q']]| |];
      try done.
    apply IH; [done|lia].
Qed.

Lemma relax_loop_mono (n m : nat) (tree : Graph T) dist_to visit_queue r :
  relax_loop n tree dist_to visit_queue = Some r → (n ≤ m)%nat →
  relax_loop m tree dist_to visit_queue = Some r.
Proof.
  revert m dist_to visit_queue.
  induction n as [|n IH]; intros m dist_to [|u q]; simpl.
  - destruct m; done.
  - done.
  - destruct m; done.
  - intros Hn Hm. destruct m as [|m]; [lia|]. simpl.
    destruct (relax_vertex tree u (dist_to, q)) as [[[]|[dist_to' q']]| |];
      try done.
    apply IH; [done|lia].
Qed.

Lemma isTreePlusIsolated_mono (n m : nat) (G : Graph T) root r :
  isTreePlusIsolated n G root = Some r → (n ≤ m)%nat →
  isTreePlusIsolated m G root = Some r.
Proof.
  unfold isTreePlusIsolated. intros Hn Hm.
  destruct (vector_new (size G) false ≫= _) as [marked| |]; [|done..].
  destruct (visit_loop n G marked [root]) as [r'|] eqn:E; [|done].
  by rewrite (visit_loop_mono n m _ _ _ _ E Hm).
Qed.

Lemma pathLengthsFromRoot_mono (n m : nat) (tree : Graph T) root r :
  pathLengthsFromRoot n tree root = Some r → (n ≤ m)%nat →
  pathLengthsFromRoot m tree root = Some r.
Proof.
  unfold pathLengthsFromRoot. intros Hn Hm.
  destruct (vector_new (size tree) limits_max ≫= _) as [dist_to| |];
    [|done..].
  by apply (relax_loop_mono n m).
Qed.

(** So a call has one result at most, whatever the fuel. *)
Lemma isTreePlusIsolated_deterministic (n m : nat) (G : Graph T) root r r' :
  isTreePlusIsolated n G root = Some r →
  isTreePlusIsolated m G root = Some r' → r = r'.
Proof.
  intros Hn Hm. destruct (Nat.le_ge_cases n m) as [Hle|Hle].
  - rewrite (isTreePlusIsolated_mono n m _ _ _ Hn Hle) in Hm. congruence.
  - rewrite (isTreePlusIsolated_mono m n _ _ _ Hm Hle) in Hn. congruence.
Qed.

Lemma pathLengthsFromRoot_deterministic (n m : nat) (tree : Graph T) root
    r r' :
  pathLengthsFromRoot n tree root = Some r →
  pathLengthsFromRoot m tree root = Some r' → r = r'.
Proof.
  intros Hn Hm. destruct (Nat.le_ge_cases n m) as [Hle|Hle].
  - rewrite (pathLengthsFromRoot_mono n m _ _ _ Hn Hle) in Hm. congruence.
  - rewrite (pathLengthsFromRoot_mono m n _ _ _ Hm Hle) in Hn. congruence.
Qed.
End Fuel.

(** ** [pathLengthsFromRoot] terminates *)

(** Every assignment of the loop makes an entry of [dist_to] smaller, so
    the loop ends when [<] has no infinite descending chain, as for every
    type with finitely many values. *)
Section RelaxTermination.
Context {T : Type} {NT : Numeric T}.
Implicit Types (tree : Graph T) (d : list T) (q : list Z).

Lemma dist_lt_insert d (i : nat) old new :
  d !! i = Some old → ltb new old = true → dist_lt (<[i := new]> d) d.
Proof.
  revert i. induction d as [|x d IH]; intros [|i] Hi Hlt; simplify_eq/=.
  - by constructor.
  - constructor. by apply IH.
Qed.

Lemma dist_lt_length d d' : dist_lt d' d → length d' = length d.
Proof. induction 1; simpl; by f_equal. Qed.

Lemma dist_lt_wf : well_founded (weight_lt (T:=T)) → well_founded (dist_lt (T:=T)).
Proof.
  intros Hwf d. induction d as [|x d IHd].
  - constructor. intros d' Hd'. inversion Hd'.
  - revert d IHd. induction (Hwf x) as [x _ IHx]. intros d Hd.
    induction Hd as [d Hd IHd]. constructor. intros d' Hd'.
    inversion Hd' as [x' ? ? Hlt | ? ? d'' Hlt]; subst.
    + apply IHx; [done|]. by constructor.
    + by apply IHd.
Qed.

(** One edge: a sum that overflows, or the vector is as before, or one
    entry is smaller and its vertex is pushed. *)
Lemma relax_edge_spec u (e : Z * T) d q :
  0 ≤ u < Z.of_nat (length d) → 0 ≤ e.1 < Z.of_nat (length d) →
  (relax_edge u e (d, q) = Undefined ∧ add_overflows T)
  ∨ ∃ d' q', relax_edge u e (d, q) = Return (Next (d', q'))
    ∧ ((d' = d ∧ q' = q)
       ∨ (dist_lt d' d ∧ q' = q ++ [e.1]
          ∧ ∃ x, d' = <[Z.to_nat e.1 := x]> d)).
Proof.
  intros Hu Hv. unfold relax_edge, plus. simpl.
  destruct (vector_at_inside d e.1 Hv) as [dv Hdv].
  destruct (vector_at_inside d u Hu) as [du Hdu].
  rewrite Hdv, Hdu. simpl.
  destruct (add du e.2) as [sum|] eqn:Hsum; simpl;
    [right|left; split; [done|by exists du, e.2]].
  destruct (gtb dv sum) eqn:Hgt; [|by eauto 6].
  assert (vector_set d e.1 sum = Return (<[Z.to_nat e.1 := sum]> d)) as ->
    by (by apply vector_set_Return).
  simpl. do 2 eexists. split; [done|]. right. split_and!; [|done|by eexists].
  apply vector_at_Return in Hdv as [_ Hdv]. by eapply dist_lt_insert.
Qed.

(** The [for] loop over the edges of [u]: the vector is as before, or
    smaller; only entries of ends of the edges change, and only such ends
    are pushed. *)
Lemma relax_edges_spec u (l : list (Z * T)) d q :
  0 ≤ u < Z.of_nat (length d) →
  (∀ e, e ∈ l → 0 ≤ e.1 < Z.of_nat (length d)) →
  (for_each (relax_edge u) l (d, q) = Undefined ∧ add_overflows T)
  ∨ ∃ d' q', for_each (relax_edge u) l (d, q) = Return (Next (d', q'))
    ∧ length d' = length d
    ∧ (∀ x, x ∈ q' → x ∈ q ∨ x ∈ l.*1)
    ∧ (∀ x, 0 ≤ x → x ∉ l.*1 → d' !! Z.to_nat x = d !! Z.to_nat x)
    ∧ ((d' = d ∧ q' = q) ∨ clos_trans _ dist_lt d' d).
Proof.
  revert d q. induction l as [|e l IH]; intros d q Hu Hl.
  - right. exists d, q. simpl. split_and!; auto.
  - rewrite for_each_cons.
    destruct (relax_edge_spec u e d q)
      as [[-> Hover] | (d1 & q1 & -> & Hcase)];
      [done|apply Hl; by left|by left|]. simpl.
    assert (length d1 = length d) as Hlen1.
    { destruct Hcase as [[-> _] | (Hlt & _)]; [done|].
      by apply dist_lt_length. }
    destruct (IH d1 q1)
      as [[-> Hover] | (d' & q' & -> & Hlen & Hq & Hframe & Hcase')];
      [by rewrite Hlen1| |by left|right].
    { intros e' He'. rewrite Hlen1. apply Hl. by right. }
    exists d', q'. split_and!; [done|lia| | |].
    + intros x [Hx | Hx]%Hq.
      * destruct Hcase as [[_ ->] | (_ & -> & _)]; [by left|].
        apply elem_of_app in Hx as [Hx | ->%list_elem_of_singleton];
          [by left|right; by left].
      * right. by right.
    + intros x Hx Hnot. apply not_elem_of_cons in Hnot as [Hne Hnot].
      rewrite (Hframe x Hx Hnot).
      destruct Hcase as [[-> _] | (_ & _ & y & ->)]; [done|].
      pose proof (Hl e (list_elem_of_here _ _)).
      apply list_lookup_insert_ne. lia.
    + destruct Hcase as [[-> ->] | (Hlt & _)]; [done|]. right.
      destruct Hcase' as [[-> _] | Htc]; [by constructor|].
      eapply t_trans; [done|by constructor].
Qed.

(** One turn of the [while] loop. *)
Lemma relax_vertex_spec tree u d q :
  graph_wf tree → Z.of_nat (length d) = size tree → 0 ≤ u < size tree →
  (relax_vertex tree u (d, q) = Undefined ∧ add_overflows T)
  ∨ ∃ d' q', relax_vertex tree u (d, q) = Return (Next (d', q'))
    ∧ length d' = length d
    ∧ (∀ x, x ∈ q' → x ∈ q ∨ has_edge tree u x)
    ∧ (∀ x, 0 ≤ x → ¬ has_edge tree u x →
         d' !! Z.to_nat x = d !! Z.to_nat x)
    ∧ ((d' = d ∧ q' = q) ∨ clos_trans _ dist_lt d' d).
Proof.
  intros HG Hlen Hu. unfold relax_vertex.
  destruct (neighbours_vertex tree u HG Hu) as [m Hm]. rewrite Hm. simpl.
  pose proof (λ v, has_edge_neighbours tree u m v Hm) as Hedge.
  destruct (relax_edges_spec u (map_to_list m) d q)
    as [? | (d' & q' & Hfor & Hlen' & Hq & Hframe & Hcase)]; [| |by left|].
  { unfold size in *. lia. }
  { intros e He. assert (has_edge tree u e.1) as Hue.
    { apply Hedge, list_elem_of_fmap. eauto. }
    apply (has_edge_range tree _ _ HG) in Hue. unfold size in *. lia. }
  right. exists d', q'. split_and!; [done..| | |done].
  - intros x [Hx | Hx]%Hq; [by left|right]. by apply Hedge.
  - intros x Hx Hno. apply Hframe; [done|]. intros Hin. by apply Hno, Hedge.
Qed.

(** The loop ends: in a vector, or in a sum that overflows. *)
Lemma relax_loop_terminates tree :
  well_founded (weight_lt (T:=T)) → graph_wf tree →
  ∀ d q, Z.of_nat (length d) = size tree →
    (∀ x, x ∈ q → 0 ≤ x < size tree) →
    ∃ fuel r, relax_loop fuel tree d q = Some r
      ∧ ((r = Undefined ∧ add_overflows T)
         ∨ ∃ d', r = Return d' ∧ length d' = length d).
Proof.
  intros Hwf HG d.
  pose proof (Acc_clos_trans _ _ _ (dist_lt_wf Hwf d)) as Hacc.
  induction Hacc as [d _ IHd]. intros q.
  remember (length q) as n eqn:Hn. revert q Hn.
  induction (lt_wf n) as [n _ IHn]. intros [|u q] Hn Hlen Hq.
  - exists 0%nat, (Return d). split; [done|]. right. by exists d.
  - destruct (relax_vertex_spec tree u d q HG Hlen)
      as [[Hstep Hover] | (d' & q' & Hstep & Hlen' & Hq' & _ & Hcase)].
    { apply Hq. by left. }
    { exists 1%nat, Undefined. simpl. rewrite Hstep. split; [done|by left]. }
    assert (∀ x, x ∈ q' → 0 ≤ x < size tree) as Hrange.
    { intros x [Hx | He]%Hq'; [apply Hq; by right|].
      by apply (has_edge_range tree _ _ HG) in He as [_ ?]. }
    assert (∃ fuel r, relax_loop fuel tree d' q' = Some r
      ∧ ((r = Undefined ∧ add_overflows T)
         ∨ ∃ d'', r = Return d'' ∧ length d'' = length d'))
      as (fuel & r & Hrun & Hr).
    { destruct Hcase as [[-> ->] | Hlt].
      - apply (IHn (length q)); [simpl in Hn; lia|done..].
      - apply IHd; [done|lia|done]. }
    exists (S fuel), r. simpl. rewrite Hstep. split; [done|].
    destruct Hr as [? | (d'' & -> & Hl)]; [by left|right].
    exists d''. split; [done|lia].
Qed.

(** [pathLengthsFromRoot] ends on every well-formed graph, tree or not: it
    returns a vector with one distance per vertex, or a sum overflows. *)
Lemma pathLengthsFromRoot_ends tree root :
  well_founded (weight_lt (T:=T)) → graph_wf tree → 0 ≤ root < size tree →
  ∃ fuel r, pathLengthsFromRoot fuel tree root = Some r
    ∧ ((r = Undefined ∧ add_overflows T)
       ∨ ∃ d, r = Return d ∧ Z.of_nat (length d) = size tree).
Proof.
  intros Hwf HG Hroot. unfold pathLengthsFromRoot.
  rewrite vector_new_Return by lia. simpl.
  set (d0 := replicate (Z.to_nat (size tree)) limits_max).
  assert (Z.of_nat (length d0) = size tree) as Hlen0
    by (unfold d0; rewrite length_replicate; lia).
  assert (vector_set d0 root zero = Return (<[Z.to_nat root := zero]> d0))
    as -> by (apply vector_set_Return; split; [lia|done]).
  destruct (relax_loop_terminates tree Hwf HG
              (<[Z.to_nat root := zero]> d0) [root])
    as (fuel & r & Hrun & Hr).
  { by rewrite length_insert. }
  { by intros x ->%list_elem_of_singleton. }
  exists fuel, r. split; [done|].
  destruct Hr as [? | (d & -> & Hlen)]; [by left|right].
  exists d. split; [done|]. rewrite Hlen, length_insert. done.
Qed.

(** It returns when every sum of the weight type is defined. *)
Lemma pathLengthsFromRoot_returns tree root :
  well_founded (weight_lt (T:=T)) → add_total T →
  graph_wf tree → 0 ≤ root < size tree →
  ∃ fuel d, pathLengthsFromRoot fuel tree root = Some (Return d)
            ∧ Z.of_nat (length d) = size tree.
Proof.
  intros Hwf Htotal HG Hroot.
  destruct (pathLengthsFromRoot_ends tree root Hwf HG Hroot)
    as (fuel & r & Hrun & [[_ (a & b & Hab)] | (d & -> & Hlen)]).
  - destruct (Htotal a b) as [? ?]. congruence.
  - by exists fuel, d.
Qed.
End RelaxTermination.

(** [<] of [int] has no infinite descending chain. *)
Lemma int_lt_wf : well_founded (weight_lt (T:=Z)).
Proof.
  apply (well_founded_lt_compat _ (λ a, Z.to_nat (Int.wrap a + 2 ^ 31))).
  intros a b. unfold weight_lt. simpl. unfold Int.ltb. intros Hlt%Z.ltb_lt.
  assert (∀ z, 0 ≤ Int.wrap z + 2 ^ 31) as Hpos.
  { intros z. unfold Int.wrap.
    pose proof (Z.mod_pos_bound (z + 2 ^ 31) (2 ^ 32)). lia. }
  pose proof (Hpos a). pose proof (Hpos b). lia.
Qed.

(** ** [isTreePlusIsolated] *)

Section TreeShape.
Context {T : Type} {NT : Numeric T}.
Context (G : Graph T) (root : Z).
Context (HG : graph_wf G) (Hroot : 0 ≤ root < numVertices G).
Implicit Types (P q todo : list Z) (marked : list bool) (u v : Z).

Lemma elem_of_seen P cur q v :
  v ∈ seen P cur q ↔ v ∈ P ∨ cur = Some v ∨ v ∈ q.
Proof.
  unfold seen. rewrite !elem_of_app. destruct cur as [u|]; simpl.
  - rewrite list_elem_of_singleton. intuition congruence.
  - rewrite elem_of_nil. intuition congruence.
Qed.

(** The state in which the loop is entered. *)
Lemma visit_inv_init :
  visit_inv G root [] None []
    (<[Z.to_nat root := true]> (replicate (Z.to_nat (numVertices G)) false))
    [root].
Proof.
  assert (∀ v, 0 ≤ v ∧
    <[Z.to_nat root := true]> (replicate (Z.to_nat (numVertices G)) false)
      !! Z.to_nat v = Some true ↔ v = root) as Hmark.
  { intros v. split.
    - intros [Hv Hm]. destruct (decide (v = root)) as [|Hne]; [done|].
      rewrite list_lookup_insert_ne in Hm by lia.
      by apply lookup_replicate in Hm as [? _].
    - intros ->. split; [lia|]. apply list_lookup_insert_eq.
      rewrite length_replicate. lia. }
  split.
  - rewrite length_insert, length_replicate. lia.
  - intros v. rewrite Hmark, elem_of_seen.
    rewrite elem_of_nil, list_elem_of_singleton. intuition congruence.
  - apply NoDup_singleton.
  - by apply list_elem_of_singleton.
  - intros v ->%list_elem_of_singleton. apply rtc_refl.
  - intros u v Hu. by apply elem_of_nil in Hu.
  - intros u v Hu. by apply elem_of_nil in Hu.
  - intros v ->%list_elem_of_singleton Hne. done.
  - done.
  - done.
Qed.

(** A vertex is popped. *)
Lemma visit_inv_pop P todo marked q u m :
  neighbours G u = Return m →
  visit_inv G root P None todo marked (u :: q) →
  visit_inv G root P (Some u) (map_to_list m).*1 marked q.
Proof.
  intros Hm [Hlen Hseen Hnd Hr Hreach Hcl Hone Hpar _ _].
  split; try done.
  - intros v Hv Hne. destruct (Hpar v Hv Hne) as [?|(?&?&_)]; [by left|done].
  - intros u' v [= ->] He Hv. by apply (has_edge_neighbours G u' m v) in He.
  - intros u' [= ->]. split; [apply NoDup_fst_map_to_list|].
    intros v Hv. by apply (has_edge_neighbours G u' m v).
Qed.

(** The edges of the current vertex are all followed. *)
Lemma visit_inv_done P marked q u :
  visit_inv G root P (Some u) [] marked q →
  visit_inv G root (P ++ [u]) None [] marked q.
Proof.
  intros [Hlen Hseen Hnd Hr Hreach Hcl Hone Hpar Hcur Htodo].
  assert (seen (P ++ [u]) None q = seen P (Some u) q) as Heq
    by (unfold seen; simpl; by rewrite <- app_assoc).
  assert (u ∉ P) as HuP.
  { unfold seen in Hnd. simpl in Hnd.
    apply NoDup_app in Hnd as (_ & Hd & _). intros Hu.
    apply (Hd u Hu). by left. }
  split; rewrite ?Heq; try done.
  - intros u' v [Hu' | ->%list_elem_of_singleton]%elem_of_app He; [eauto|].
    apply (Hcur u v); [done..|apply not_elem_of_nil].
  - intros u' v [Hu' | ->%list_elem_of_singleton]%elem_of_app He.
    + destruct (Hone u' v Hu' He) as [Hne Huniq]. split; [done|].
      intros u'' [Hu'' | ->%list_elem_of_singleton]%elem_of_app He'';
        [eauto|].
      destruct (Hcur u v eq_refl He'' (not_elem_of_nil _)) as (_ & _ & Hno).
      by destruct (Hno u' Hu').
    + destruct (Hcur u v eq_refl He (not_elem_of_nil _)) as (_ & Hne & Hno).
      split; [done|].
      intros u'' [Hu'' | ->%list_elem_of_singleton]%elem_of_app He'';
        [|done].
      by destruct (Hno u'' Hu'').
  - intros v Hv Hne. left.
    destruct (Hpar v Hv Hne) as [(u' & Hu' & He) | (u' & [= <-] & He & _)].
    + exists u'. split; [apply elem_of_app; by left|done].
    + exists u. split; [apply elem_of_app; right; by left|done].
Qed.
(** An edge to a vertex that is not marked is followed. *)
Lemma visit_inv_edge P todo marked q u v :
  visit_inv G root P (Some u) (v :: todo) marked q →
  marked !! Z.to_nat v = Some false →
  visit_inv G root P (Some u) todo (<[Z.to_nat v := true]> marked)
    (q ++ [v]).
Proof.
  intros [Hlen Hseen Hnd Hr Hreach Hcl Hone Hpar Hcur Htodo] Hv.
  destruct (Htodo u eq_refl) as [Hndt Hedges].
  apply NoDup_cons in Hndt as [Hvt Hndt].
  assert (has_edge G u v) as He by (apply Hedges; by left).
  destruct (has_edge_range G u v HG He) as [_ Hvr].
  assert (v ∉ seen P (Some u) q) as Hvs.
  { intros [_ Hm]%Hseen. congruence. }
  assert (seen P (Some u) (q ++ [v]) = seen P (Some u) q ++ [v]) as Heq
    by (unfold seen; by rewrite !app_assoc).
  split; rewrite ?Heq.
  - by rewrite length_insert.
  - intros x. rewrite elem_of_app, list_elem_of_singleton, Hseen.
    destruct (decide (x = v)) as [->|Hne].
    + rewrite list_lookup_insert_eq by lia. intuition lia.
    + split.
      * intros [[? ?] | ?]; [|done].
        rewrite list_lookup_insert_ne by lia. done.
      * intros [? Hx]. rewrite list_lookup_insert_ne in Hx by lia. by left.
  - apply NoDup_app. split_and!; [done| |apply NoDup_singleton].
    intros x Hx ->%list_elem_of_singleton. done.
  - apply elem_of_app. by left.
  - intros x [Hx | ->%list_elem_of_singleton]%elem_of_app; [by apply Hreach|].
    eapply rtc_r; [|done]. apply Hreach, elem_of_seen. right. by left.
  - intros u' x Hu' He'. apply elem_of_app. left. by eapply Hcl.
  - done.
  - intros x [Hx | ->%list_elem_of_singleton]%elem_of_app Hne.
    + destruct (Hpar x Hx Hne) as [? | (u' & Hu' & He' & Hxt)]; [by left|].
      right. exists u'. split_and!; [done..|].
      intros Hin. apply Hxt. by right.
    + right. by exists u.
  - intros u' x [= <-] He' Hxt. destruct (decide (x = v)) as [->|Hne].
    + split_and!.
      * apply elem_of_app. right. by left.
      * by intros ->.
      * intros u' Hu' He''. apply Hvs. by eapply Hcl.
    + destruct (Hcur u x eq_refl He') as (Hx & Hxr & Hno).
      { by intros [?| ?]%elem_of_cons. }
      split_and!; [apply elem_of_app; by left|done..].
  - intros u' [= <-]. split; [done|]. intros x Hx. apply Hedges. by right.
Qed.

(** An edge to a marked vertex is a second way to come to it. *)
Lemma visit_inv_revisit P todo marked q u v :
  visit_inv G root P (Some u) (v :: todo) marked q →
  marked !! Z.to_nat v = Some true →
  revisit G root.
Proof.
  intros [Hlen Hseen Hnd Hr Hreach Hcl Hone Hpar Hcur Htodo] Hv.
  destruct (Htodo u eq_refl) as [Hndt Hedges].
  assert (has_edge G u v) as He by (apply Hedges; by left).
  destruct (has_edge_range G u v HG He) as [_ Hvr].
  assert (v ∈ seen P (Some u) q) as Hvs by (apply Hseen; split; [lia|done]).
  assert (reachable G root u) as Hu.
  { apply Hreach, elem_of_seen. right. by left. }
  exists u, v. split_and!; [done..|].
  destruct (decide (v = root)) as [|Hne]; [by left|right].
  destruct (Hpar v Hvs Hne) as [(u' & Hu' & He') | (u' & _ & _ & Hvt)].
  - exists u'. split_and!; [|apply Hreach, elem_of_seen; by left|done].
    intros ->. unfold seen in Hnd. simpl in Hnd.
    apply NoDup_app in Hnd as (_ & Hd & _). apply (Hd u Hu'). by left.
  - destruct Hvt. by left.
Qed.

(** When the queue is empty, the marked vertices are those that [root]
    reaches, and no vertex was come to twice. *)
Lemma visit_inv_final P todo marked :
  visit_inv G root P None todo marked [] →
  (∀ v, reachable G root v ↔ 0 ≤ v ∧ marked !! Z.to_nat v = Some true)
  ∧ ¬ revisit G root.
Proof.
  intros [Hlen Hseen Hnd Hr Hreach Hcl Hone Hpar Hcur Htodo].
  assert (seen P None [] = P) as Heq by (unfold seen; simpl; apply app_nil_r).
  rewrite Heq in *.
  assert (∀ v, reachable G root v → v ∈ P) as Hall.
  { apply (rtc_ind_r (λ v, v ∈ P)); [done|].
    intros y z _ He Hy. by eapply Hcl. }
  split.
  - intros v. rewrite <- Hseen. split; [apply Hall|apply Hreach].
  - intros (u & v & Hu%Hall & He & [-> | (u' & Hne & Hu'%Hall & He')]).
    + by destruct (Hone u root Hu He).
    + destruct (Hone u v Hu He) as [_ Huniq]. by destruct Hne; apply Huniq.
Qed.

(** There are no more seen vertices than vertices. *)
Lemma visit_inv_bound P cur todo marked q :
  visit_inv G root P cur todo marked q →
  (length P + length (option_list cur) + length q ≤
   Z.to_nat (numVertices G))%nat.
Proof.
  intros [Hlen Hseen Hnd _ _ _ _ _ _ _].
  assert (seen P cur q ⊆+ seqZ 0 (numVertices G)) as Hsub.
  { apply NoDup_submseteq; [done|]. intros x [Hx Hm]%Hseen.
    apply lookup_lt_Some in Hm. apply elem_of_seqZ. lia. }
  apply submseteq_length in Hsub. rewrite length_seqZ in Hsub.
  unfold seen in Hsub. rewrite !length_app in Hsub. lia.
Qed.

Lemma visit_edge_marked v (w : T) marked q :
  0 ≤ v → marked !! Z.to_nat v = Some true →
  visit_edge (v, w) (marked, q) = Return (Break false).
Proof.
  intros Hv Hm. unfold visit_edge. simpl.
  assert (vector_at marked v = Return true) as ->
    by (by apply vector_at_Return).
  done.
Qed.

Lemma visit_edge_unmarked v (w : T) marked q :
  0 ≤ v → marked !! Z.to_nat v = Some false →
  visit_edge (v, w) (marked, q)
  = Return (Next (<[Z.to_nat v := true]> marked, q ++ [v])).
Proof.
  intros Hv Hm. unfold visit_edge. simpl.
  assert (vector_at marked v = Return false) as Hat
    by (by apply vector_at_Return).
  rewrite Hat. simpl.
  assert (vector_set marked v true = Return (<[Z.to_nat v := true]> marked))
    as ->; [|done].
  apply vector_set_Return. split; [|done].
  apply lookup_lt_Some in Hm. lia.
Qed.

(** The [for] loop over the edges of the current vertex. *)
Lemma visit_edges_spec (l : list (Z * T)) P marked q u :
  visit_inv G root P (Some u) l.*1 marked q →
  (for_each visit_edge l (marked, q) = Return (Break false)
   ∧ revisit G root)
  ∨ (∃ marked' q',
       for_each visit_edge l (marked, q) = Return (Next (marked', q'))
       ∧ visit_inv G root P (Some u) [] marked' q').
Proof.
  revert marked q. induction l as [|[v w] l IH]; intros marked q Hinv.
  - right. by exists marked, q.
  - simpl in Hinv. rewrite !for_each_cons.
    assert (0 ≤ v < Z.of_nat (length marked)) as Hv.
    { destruct (inv_todo _ _ _ _ _ _ _ Hinv u eq_refl) as [_ Hedges].
      rewrite (inv_length _ _ _ _ _ _ _ Hinv).
      apply (has_edge_range G u v HG), Hedges. by left. }
    destruct (lookup_lt_is_Some_2 marked (Z.to_nat v)) as [[] Hb]; [lia|..].
    + rewrite visit_edge_marked by (done || lia). simpl.
      left. split; [done|]. by eapply visit_inv_revisit.
    + rewrite visit_edge_unmarked by (done || lia). simpl.
      apply IH. by apply visit_inv_edge.
Qed.

(** The [while] loop: with one unit of fuel per vertex not yet popped, it
    either leaves because a vertex was come to twice, or ends with an empty
    queue. *)
Lemma visit_loop_spec (fuel : nat) P marked q :
  visit_inv G root P None [] marked q →
  (Z.to_nat (numVertices G) ≤ fuel + length P)%nat →
  (visit_loop fuel G marked q = Some (Return (Break false))
   ∧ revisit G root)
  ∨ (∃ P' marked',
       visit_loop fuel G marked q = Some (Return (Next marked'))
       ∧ visit_inv G root P' None [] marked' []).
Proof.
  revert P marked q.
  induction fuel as [|fuel IH]; intros P marked [|u q] Hinv Hfuel.
  - right. by exists P, marked.
  - apply visit_inv_bound in Hinv. simpl in *. lia.
  - right. by exists P, marked.
  - simpl. unfold visit_vertex.
    destruct (neighbours_vertex G u HG) as [m Hm].
    { destruct (inv_seen _ _ _ _ _ _ _ Hinv u) as [Hu _].
      destruct Hu as [Hu Hmu]; [apply elem_of_seen; right; right; by left|].
      apply lookup_lt_Some in Hmu.
      rewrite <- (inv_length _ _ _ _ _ _ _ Hinv). lia. }
    rewrite Hm. simpl.
    destruct (visit_edges_spec (map_to_list m) P marked q u)
      as [[-> Hrev] | (marked' & q' & -> & Hinv')].
    + by eapply visit_inv_pop.
    + by left.
    + apply (IH (P ++ [u])); [by apply visit_inv_done|].
      rewrite length_app. simpl. lia.
Qed.
(** The loop over the vertices after the traversal: it leaves with [false]
    at a vertex that is not marked and has an edge. *)
Lemma isolated_vertex_spec marked v :
  Z.of_nat (length marked) = numVertices G →
  (∀ x, reachable G root x ↔ 0 ≤ x ∧ marked !! Z.to_nat x = Some true) →
  0 ≤ v < numVertices G →
  let P := reachable G root v ∨ ∀ w, ¬ has_edge G v w in
  (P ∧ isolated_vertex G marked v () = Return (Next ()))
  ∨ (¬ P ∧ isolated_vertex G marked v () = Return (Break false)).
Proof.
  intros Hlen Hmarked Hv P. unfold isolated_vertex.
  destruct (lookup_lt_is_Some_2 marked (Z.to_nat v)) as [b Hb]; [lia|].
  assert (vector_at marked v = Return b) as ->
    by (apply vector_at_Return; split; [lia|done]).
  simpl. destruct b; simpl.
  - left. split; [|done]. left. apply Hmarked. split; [lia|done].
  - assert (¬ reachable G root v) as Hnr.
    { intros [_ Hm]%Hmarked. congruence. }
    destruct (neighbours_vertex G v HG Hv) as [m Hm]. rewrite Hm. simpl.
    destruct (map_empty m) eqn:Hempty; simpl.
    + left. split; [|done]. right. intros w Hw.
      apply (has_edge_neighbours G v m w Hm) in Hw.
      apply map_empty_true in Hempty as ->.
      rewrite map_to_list_empty in Hw. by apply elem_of_nil in Hw.
    + right. split; [|done]. intros [Hr | Hno]; [done|].
      assert (m ≠ ∅) as Hne.
      { intros Hm'%map_empty_true. congruence. }
      apply map_choose in Hne as (k & x & Hk).
      apply (Hno k), (has_edge_neighbours G v m k Hm), list_elem_of_fmap.
      exists (k, x). split; [done|]. by apply elem_of_map_to_list.
Qed.

(** The verdict of [isTreePlusIsolated], with one unit of fuel per vertex:
    false when the traversal comes to a vertex a second time, false when a
    vertex that [root] does not reach has an edge, true otherwise. *)
Lemma isTreePlusIsolated_verdict :
  ∃ b, (∀ fuel, (Z.to_nat (numVertices G) ≤ fuel)%nat →
          isTreePlusIsolated fuel G root = Some (Return b))
       ∧ (revisit G root → b = false)
       ∧ (unreached_with_edge G root → b = false)
       ∧ (¬ revisit G root → ¬ unreached_with_edge G root → b = true).
Proof.
  set (N := Z.to_nat (numVertices G)).
  cut (∃ b, isTreePlusIsolated N G root = Some (Return b)
            ∧ (revisit G root → b = false)
            ∧ (unreached_with_edge G root → b = false)
            ∧ (¬ revisit G root → ¬ unreached_with_edge G root → b = true)).
  { intros (b & Hrun & Hrest). exists b. split; [|done].
    intros fuel Hfuel. by apply (isTreePlusIsolated_mono N). }
  unfold isTreePlusIsolated, size.
  rewrite vector_new_Return by lia. simpl.
  assert (vector_set (replicate (Z.to_nat (numVertices G)) false) root true
          = Return (<[Z.to_nat root := true]>
                      (replicate (Z.to_nat (numVertices G)) false))) as ->.
  { apply vector_set_Return. split; [|done]. rewrite length_replicate. lia. }
  destruct (visit_loop_spec N [] _ [root] visit_inv_init)
    as [[-> Hrev] | (P' & marked' & -> & Hinv)]; [simpl; lia|..]; simpl.
  - exists false. by split_and!.
  - destruct (visit_inv_final _ _ _ Hinv) as [Hmarked Hnorev].
    pose proof (inv_length _ _ _ _ _ _ _ Hinv) as Hlen.
    destruct (for_each_check
      (λ v, reachable G root v ∨ ∀ w, ¬ has_edge G v w)
      (isolated_vertex G marked') (seqZ 0 (numVertices G)))
      as [[HF ->] | [HF ->]]; simpl.
    + intros v Hv%elem_of_seqZ. apply isolated_vertex_spec; [done..|lia].
    + exists true. split_and!; [done| | |done].
      * intros Hrev. by destruct Hnorev.
      * intros (v & w & Hv & Hnr & He).
        rewrite Forall_seqZ_vertices in HF.
        destruct (HF v Hv) as [? | Hno]; [done|]. by destruct (Hno w).
    + exists false. split_and!; [done..|]. intros _ Hnu. destruct HF.
      apply Forall_seqZ_vertices. intros v Hv.
      destruct (lookup_lt_is_Some_2 marked' (Z.to_nat v)) as [[] Hb]; [lia|..].
      * left. apply Hmarked. split; [lia|done].
      * right. intros w He. apply Hnu. exists v, w.
        split_and!; [lia|lia| |done].
        intros [_ Hm]%Hmarked. congruence.
Qed.
End TreeShape.

(** [<] of [double] has none either: a valid binary64 value has a mantissa
    below [2^53] and an exponent between -1074 and 971. *)
Lemma digits2_pos_bound (m : positive) : Z.pos m < 2 ^ Z.pos (digits2_pos m).
Proof.
  induction m as [m IH|m IH|]; simpl digits2_pos;
    rewrite ?Pos2Z.inj_succ, ?Z.pow_succ_r by lia; lia.
Qed.

Lemma valid_finite s m e :
  valid_binary (S754_finite s m e) = true →
  Z.pos m < 2 ^ 53 ∧ -1074 ≤ e ≤ 971.
Proof.
  unfold valid_binary, bounded, canonical_mantissa, fexp, SpecFloat.emin.
  unfold prec, emax. intros [Hc He]%andb_prop.
  apply Z.eqb_eq in Hc. apply Z.leb_le in He.
  pose proof (digits2_pos_bound m) as Hm.
  assert (Z.pos (digits2_pos m) <= 53) as Hd by lia.
  pose proof (Z.pow_le_mono_r 2 _ _ ltac:(lia) Hd) as Hp.
  lia.
Qed.

Lemma SFltb_rank x y :
  valid_binary x = true → valid_binary y = true →
  SFltb x y = true → DoubleOrder.rank x < DoubleOrder.rank y.
Proof.
  intros Hx Hy. unfold SFltb, SFcompare.
  destruct x as [sx|sx| |sx mx ex], y as [sy|sy| |sy my ey];
    try discriminate;
    try (apply (valid_finite sx mx ex) in Hx);
    try (apply (valid_finite sy my ey) in Hy);
    try destruct sx; try destruct sy; try discriminate; simpl;
    unfold DoubleOrder.bound, DoubleOrder.key;
    try (destruct (Z.compare_spec ex ey) as [->|Hlt|Hlt];
         change (Pos.compare_cont Eq mx my) with (Pos.compare mx my);
         try destruct (Pos.compare_spec mx my));
    try discriminate; intros _;
    set (p := 2 ^ 53) in *; nia.
Qed.

Lemma rank_bound x :
  valid_binary x = true → - DoubleOrder.bound ≤ DoubleOrder.rank x.
Proof.
  intros Hx. destruct x as [s|[]| |[] m e];
    try apply valid_finite in Hx; simpl;
    unfold DoubleOrder.bound, DoubleOrder.key;
    assert (0 < 2 ^ 53) by lia; set (p := 2 ^ 53) in *; nia.
Qed.

Lemma double_lt_wf : well_founded (weight_lt (T:=float)).
Proof.
  apply (well_founded_lt_compat _
    (λ x, Z.to_nat (DoubleOrder.rank (Prim2SF x) + DoubleOrder.bound))).
  intros x y Hlt. unfold weight_lt in Hlt. simpl in Hlt.
  rewrite ltb_spec in Hlt.
  apply SFltb_rank in Hlt; [|apply Prim2SF_valid..].
  pose proof (rank_bound _ (Prim2SF_valid x)).
  pose proof (rank_bound _ (Prim2SF_valid y)). lia.
Qed.

(** ** Vertices that [pathLengthsFromRoot] does not reach *)

Section Unreached.
Context {T : Type} {NT : Numeric T}.
Context (tree : Graph T) (root : Z).
Context (HG : graph_wf tree) (Hroot : 0 ≤ root < numVertices tree).
Implicit Types (d : list T) (q : list Z).

Lemma reachable_range x :
  reachable tree root x → 0 ≤ x < numVertices tree.
Proof.
  intros [->|(y & _ & He)]%rtc_inv_r; [done|].
  by apply (has_edge_range tree _ _ HG) in He as [_ ?].
Qed.

(** The loop leaves the entries of the vertices that [root] does not reach
    as they are. *)
Lemma relax_loop_unreached (fuel : nat) d q d' :
  Z.of_nat (length d) = size tree →
  (∀ x, x ∈ q → reachable tree root x) →
  relax_loop fuel tree d q = Some (Return d') →
  ∀ x, 0 ≤ x → ¬ reachable tree root x →
    d' !! Z.to_nat x = d !! Z.to_nat x.
Proof.
  revert d q. induction fuel as [|fuel IH]; intros d [|u q] Hlen Hq; simpl;
    try done.
  - by intros [= ->].
  - by intros [= ->].
  - assert (reachable tree root u) as Hu by (apply Hq; by left).
    destruct (relax_vertex_spec tree u d q HG Hlen)
      as [[-> _] | (d1 & q1 & -> & Hlen1 & Hq1 & Hframe & _)];
      [by apply reachable_range|done|].
    intros Hrun x Hx Hnr.
    rewrite (IH d1 q1); [|lia| |done..].
    + apply Hframe; [done|]. intros He. apply Hnr. by eapply rtc_r.
    + intros y [Hy | He]%Hq1; [apply Hq; by right|]. by eapply rtc_r.
Qed.

(** In the vector that [pathLengthsFromRoot] returns, a vertex that [root]
    does not reach has the distance [numeric_limits<T>::max()]. *)
Lemma pathLengthsFromRoot_unreached (fuel : nat) d x :
  pathLengthsFromRoot fuel tree root = Some (Return d) →
  0 ≤ x < numVertices tree → ¬ reachable tree root x →
  d !! Z.to_nat x = Some limits_max.
Proof.
  unfold pathLengthsFromRoot, size. rewrite vector_new_Return by lia. simpl.
  set (d0 := replicate (Z.to_nat (numVertices tree)) limits_max).
  assert (vector_set d0 root zero = Return (<[Z.to_nat root := zero]> d0))
    as ->.
  { apply vector_set_Return. split; [|done]. unfold d0.
    rewrite length_replicate. lia. }
  intros Hrun Hx Hnr.
  rewrite (relax_loop_unreached fuel (<[Z.to_nat root := zero]> d0) [root] d);
    [|..|done|lia|done].
  - rewrite list_lookup_insert_ne.
    + apply lookup_replicate. split; [done|lia].
    + intros Heq. apply Hnr. assert (x = root) as -> by lia. apply rtc_refl.
  - rewrite length_insert. unfold d0, size. rewrite length_replicate. lia.
  - intros y ->%list_elem_of_singleton. apply rtc_refl.
Qed.

(** For a type without a native infinity that is [infinity<T>()], and an
    edge that leaves such a vertex is relaxed. *)
Lemma pathLengthsFromRoot_unreached_infinity (fuel : nat) d x :
  has_infinity = false →
  pathLengthsFromRoot fuel tree root = Some (Return d) →
  0 ≤ x < numVertices tree → ¬ reachable tree root x →
  d !! Z.to_nat x = Some infinity.
Proof.
  intros Hno Hrun Hx Hnr. unfold infinity. rewrite Hno.
  by eapply pathLengthsFromRoot_unreached.
Qed.

Lemma unreached_edge_relaxed (fuel : nat) d u v weight :
  has_infinity = false → eqb (limits_max : T) limits_max = true →
  pathLengthsFromRoot fuel tree root = Some (Return d) →
  0 ≤ u < numVertices tree → ¬ reachable tree root u →
  relaxed d u v weight.
Proof.
  intros Hno Heq Hrun Hu Hnr.
  eapply relaxed_from_infinity.
  - by eapply pathLengthsFromRoot_unreached_infinity.
  - unfold infinity. by rewrite Hno.
Qed.
End Unreached.

(** ** No edge of a graph without edges *)

Lemma edge_replicate_empty {T} (n : nat) (N u v : Z) (weight : T) :
  ¬ edge (mkGraph (replicate n ∅) N) u v weight.
Proof.
  intros (_ & m & [-> _]%lookup_replicate & Hw). by rewrite lookup_empty in Hw.
Qed.

Lemma reachable_replicate_empty {T} (n : nat) (N root v : Z) :
  reachable (mkGraph (T:=T) (replicate n ∅) N) root v → v = root.
Proof.
  intros Hr. destruct Hr as [|x y z [w Hw] _]; [done|].
  by apply edge_replicate_empty in Hw.
Qed.

(** C2: in the vector that [pathLengthsFromRoot] returns, a vertex that
    cannot be reached from the root has the distance [infinity<T>()].
    For [double] it has not: the code fills the vector with
    [numeric_limits<T>::max()].  On the graph with two vertices and no
    edge, with root 0, vertex 1 is not reachable and gets the largest
    finite [double], which is not the infinity of [double]. *)
Theorem pathLengthsFromRoot_double_unreachable_is_max :
  (∀ fuel, pathLengthsFromRoot (S fuel) Examples.double_isolated 0
           = Some (Return [0%float; Double.max_value]))
  ∧ ¬ reachable Examples.double_isolated 0 1
  ∧ infinity = PrimFloat.infinity
  ∧ eqb Double.max_value infinity = false.
Proof.
  split_and!; [|intros Hr|done..].
  - intros fuel. apply (pathLengthsFromRoot_mono 1); [by vm_compute|lia].
  - by apply (reachable_replicate_empty 2 2) in Hr.
Qed.

(** C3: [allEdgesRelaxed] is true exactly when every edge whose origin has
    a finite distance is relaxed, and on the vector of
    [pathLengthsFromRoot] an edge that leaves a vertex the tree does not
    reach never makes it fail.  For [double] such an edge does: [G] has
    three vertices and the one edge (1, 2) of weight [-2^1000], the tree
    has no edge, the root is 0.  The tree passes [isSubgraph] and
    [isTreePlusIsolated], vertex 1 is not reached and has the distance
    [numeric_limits<double>::max()], which is not [infinity<double>()], so
    the edge is tested, and [max() > max() + -2^1000] makes the check
    fail. *)
Theorem allEdgesRelaxed_double_unreached_edge_fails :
  let d := [0%float; Double.max_value; Double.max_value] in
  isSubgraph Examples.double_T Examples.double_G = Return true
  ∧ (∀ fuel, isTreePlusIsolated (S fuel) Examples.double_T 0
             = Some (Return true))
  ∧ (∀ fuel, pathLengthsFromRoot (S fuel) Examples.double_T 0
             = Some (Return d))
  ∧ ¬ reachable Examples.double_T 0 1
  ∧ (∀ u v weight, edge Examples.double_G u v weight → u = 1)
  ∧ allEdgesRelaxed d Examples.double_G 0 = Return false.
Proof.
  split_and!; [by vm_compute|intros fuel..|intros Hr| |].
  - apply (isTreePlusIsolated_mono 1); [by vm_compute|lia].
  - apply (pathLengthsFromRoot_mono 1); [by vm_compute|lia].
  - by apply (reachable_replicate_empty 3 3) in Hr.
  - intros u v weight (Hu & m & Hm & Hw).
    destruct (decide (u = 1)) as [|Hne]; [done|]. exfalso.
    assert (Z.to_nat u ≠ 1%nat) as Hn by lia.
    destruct (Z.to_nat u) as [|[|[|n]]]; [|done|..];
      vm_compute in Hm; try done; injection Hm as <-; done.
  - by vm_compute.
Qed.

(** C5: scenario A.  [G] has four vertices and the edges (0,1,1), (0,2,4),
    (1,2,2), (1,3,5), (2,3,1); [T] has the edges (0,1,1), (1,2,2), (2,3,1);
    the root is 0.  [isSubgraph(T, G)] and [isTreePlusIsolated(T, 0)] are
    true, [pathLengthsFromRoot(T, 0)] is [0, 1, 3, 4], [allEdgesRelaxed] on
    that vector, [G] and 0 is true, and so all three checks of the
    verification pass. *)
Theorem scenario_A_valid :
  isSubgraph Examples.scenario_T Examples.scenario_G = Return true
  ∧ (∀ fuel, isTreePlusIsolated (4 + fuel) Examples.scenario_T 0
             = Some (Return true))
  ∧ (∀ fuel, pathLengthsFromRoot (4 + fuel) Examples.scenario_T 0
             = Some (Return [0; 1; 3; 4]))
  ∧ allEdgesRelaxed [0; 1; 3; 4] Examples.scenario_G 0 = Return true
  ∧ (∀ fuel, ∃ d,
       isSubgraph Examples.scenario_T Examples.scenario_G = Return true
       ∧ isTreePlusIsolated (4 + fuel) Examples.scenario_T 0
         = Some (Return true)
       ∧ pathLengthsFromRoot (4 + fuel) Examples.scenario_T 0
         = Some (Return d)
       ∧ allEdgesRelaxed d Examples.scenario_G 0 = Return true).
Proof.
  assert (∀ fuel, pathLengthsFromRoot (4 + fuel) Examples.scenario_T 0
                  = Some (Return [0; 1; 3; 4])) as Hd
    by (intros fuel; apply (pathLengthsFromRoot_mono 4);
        [by vm_compute|lia]).
  assert (∀ fuel, isTreePlusIsolated (4 + fuel) Examples.scenario_T 0
                  = Some (Return true)) as Ht
    by (intros fuel; apply (isTreePlusIsolated_mono 4);
        [by vm_compute|lia]).
  split_and!; [by vm_compute|done|done|by vm_compute|].
  intros fuel. exists [0; 1; 3; 4].
  split_and!; [by vm_compute|done|done|by vm_compute].
Qed.

(** C10: [isTreePlusIsolated(T, root)] with [root] outside [0, N) throws
    [std::out_of_range] at [marked.at(root)], before the loop is entered
    (whatever the fuel, also none): it returns no verdict and has no
    undefined behaviour. *)
Theorem isTreePlusIsolated_invalid_root {T} {NT : Numeric T}
    (fuel : nat) (G : Graph T) (root : Z) :
  graph_wf G → ¬ (0 ≤ root < numVertices G) →
  isTreePlusIsolated fuel G root = Some (Throw out_of_range).
Proof.
  intros (HN & _ & _) Hroot. unfold isTreePlusIsolated, size.
  rewrite vector_new_Return by done. simpl.
  rewrite vector_set_outside; [done|].
  rewrite length_replicate. lia.
Qed.

Lemma isTreePlusIsolated_invalid_root_witness :
  isTreePlusIsolated 0 Examples.scenario_T (-1) = Some (Throw out_of_range).
Proof.
  apply isTreePlusIsolated_invalid_root.
  - by apply (Graph_from_wf 4 [(0, 1, 1); (1, 2, 2); (2, 3, 1)]).
  - vm_compute. intros [H _]. by apply H.
Defined.

(** C4: [isTreePlusIsolated(T, root)] is false when the traversal from
    [root] comes to a marked vertex (an edge leads from a reached vertex
    back to the root, or a vertex has edges from two reached vertices; in
    other words a reached vertex has an in-degree above 1 or lies on a
    cycle), false when a vertex left unmarked, that is not reached from
    [root], has an outgoing edge, and true otherwise; on the graph with one
    vertex and no edge it is true. *)
Theorem isTreePlusIsolated_spec {T} {NT : Numeric T} (G : Graph T)
    (root : Z) :
  graph_wf G → 0 ≤ root < numVertices G →
  ∃ b, (∀ fuel, (Z.to_nat (numVertices G) ≤ fuel)%nat →
          isTreePlusIsolated fuel G root = Some (Return b))
       ∧ (revisit G root → b = false)
       ∧ (unreached_with_edge G root → b = false)
       ∧ (¬ revisit G root → ¬ unreached_with_edge G root → b = true)
       ∧ (revisit G root ↔
          ∃ v, reachable G root v ∧ (two_parents G root v ∨ on_cycle G v))
       ∧ (numVertices G = 1 → (∀ u v, ¬ has_edge G u v) → b = true).
Proof.
  intros HG Hroot.
  destruct (isTreePlusIsolated_verdict G root HG Hroot)
    as (b & Hrun & Hrev & Hun & Htrue).
  exists b. split_and!; [done..|apply revisit_iff|].
  intros _ Hno. apply Htrue.
  - intros (u & v & _ & He & _). by destruct (Hno u v).
  - intros (v & w & _ & _ & He). by destruct (Hno v w).
Qed.

Lemma isTreePlusIsolated_spec_witness :
  ∃ b, (∀ fuel, (Z.to_nat (numVertices Examples.single_vertex) ≤ fuel)%nat →
          isTreePlusIsolated fuel Examples.single_vertex 0 = Some (Return b))
       ∧ (revisit Examples.single_vertex 0 → b = false)
       ∧ (unreached_with_edge Examples.single_vertex 0 → b = false)
       ∧ (¬ revisit Examples.single_vertex 0 →
          ¬ unreached_with_edge Examples.single_vertex 0 → b = true)
       ∧ (revisit Examples.single_vertex 0 ↔
          ∃ v, reachable Examples.single_vertex 0 v
               ∧ (two_parents Examples.single_vertex 0 v
                  ∨ on_cycle Examples.single_vertex v))
       ∧ (numVertices Examples.single_vertex = 1 →
          (∀ u v, ¬ has_edge Examples.single_vertex u v) → b = true).
Proof.
  apply isTreePlusIsolated_spec.
  - by apply (Graph_from_wf 1 []).
  - by vm_compute.
Defined.

(** Every [double] sum is defined. *)
Lemma double_add_total : add_total float.
Proof. intros a b. by eexists. Qed.

(** C9, as the code has it: [isSubgraph] and [isTreePlusIsolated] return
    on every well-formed graph and every vertex as root.
    [allEdgesRelaxed] returns a verdict on every vector with one distance
    per vertex, unless a sum [d[u] + weight] that it forms overflows.
    [pathLengthsFromRoot] on a [Graph<double>] returns on every graph,
    tree or not; on a [Graph<int>] its loop ends on every graph, tree or
    not, in a returned vector or in a sum that overflows, which is
    undefined behaviour. *)
Theorem checkers_terminate :
  (∀ {T} {NT : Numeric T} (H G : Graph T) (root : Z) (d : list T),
     graph_wf H → graph_wf G → 0 ≤ root < numVertices G →
     Z.of_nat (length d) = numVertices G →
     (∃ b, isSubgraph H G = Return b)
     ∧ (∃ fuel b, isTreePlusIsolated fuel G root = Some (Return b))
     ∧ ((∃ b, allEdgesRelaxed d G root = Return b)
        ∨ (allEdgesRelaxed d G root = Undefined ∧ ¬ sums_defined G d)))
  ∧ (∀ (G : Graph float) (root : Z) (d : list float),
       graph_wf G → 0 ≤ root < numVertices G →
       Z.of_nat (length d) = numVertices G →
       (∃ fuel d', pathLengthsFromRoot fuel G root = Some (Return d'))
       ∧ (∃ b, allEdgesRelaxed d G root = Return b))
  ∧ (∀ (G : Graph Z) (root : Z),
       graph_wf G → 0 ≤ root < numVertices G →
       ∃ fuel r, pathLengthsFromRoot fuel G root = Some r
                 ∧ (r = Undefined ∨ ∃ d', r = Return d')).
Proof.
  split_and!.
  - intros T NT H G root d HH HG Hroot Hlen. split_and!.
    + by apply isSubgraph_returns.
    + destruct (isTreePlusIsolated_verdict G root HG Hroot)
        as (b & Hrun & _).
      exists (Z.to_nat (numVertices G)), b. by apply Hrun.
    + destruct (allEdgesRelaxed_outcome d G root HG Hlen Hroot)
        as [? | (? & _ & ?)]; [by left|by right].
  - intros G root d HG Hroot Hlen. split.
    + destruct (pathLengthsFromRoot_returns G root double_lt_wf
                  double_add_total HG Hroot) as (fuel & d' & Hrun & _).
      by exists fuel, d'.
    + apply allEdgesRelaxed_returns; [done..|].
      intros u v weight du _ _ _. apply double_add_total.
  - intros G root HG Hroot.
    destruct (pathLengthsFromRoot_ends G root int_lt_wf HG Hroot)
      as (fuel & r & Hrun & [[-> _] | (d' & -> & _)]);
      exists fuel; eexists; (split; [done|]); [by left|right; by eexists].
Qed.

Lemma checkers_terminate_witness :
  ((∃ b, isSubgraph Examples.scenario_T Examples.scenario_G = Return b)
   ∧ (∃ fuel b, isTreePlusIsolated fuel Examples.scenario_G 0
                = Some (Return b))
   ∧ ((∃ b, allEdgesRelaxed [0; 1; 3; 4] Examples.scenario_G 0 = Return b)
      ∨ (allEdgesRelaxed [0; 1; 3; 4] Examples.scenario_G 0 = Undefined
         ∧ ¬ sums_defined Examples.scenario_G [0; 1; 3; 4])))
  ∧ ((∃ fuel d', pathLengthsFromRoot fuel Examples.double_G 0
                 = Some (Return d'))
     ∧ (∃ b, allEdgesRelaxed
               [0%float; Double.max_value; Double.max_value]
               Examples.double_G 0 = Return b))
  ∧ (∃ fuel r, pathLengthsFromRoot fuel Examples.negative_loop 0 = Some r
               ∧ (r = Undefined ∨ ∃ d', r = Return d')).
Proof.
  destruct checkers_terminate as (Hall & Hdouble & Hint).
  assert (graph_wf Examples.scenario_G) as HG
    by (by apply (Graph_from_wf 4
          [(0, 1, 1); (0, 2, 4); (1, 2, 2); (1, 3, 5); (2, 3, 1)])).
  assert (graph_wf Examples.scenario_T) as HT
    by (by apply (Graph_from_wf 4 [(0, 1, 1); (1, 2, 2); (2, 3, 1)])).
  assert (graph_wf Examples.double_G) as HD
    by (by apply (Graph_from_wf 3 [(1, 2, (- 0x1p+1000)%float)])).
  assert (graph_wf Examples.negative_loop) as HN
    by (by apply (Graph_from_wf 1 [(0, 0, - 2 ^ 30)])).
  split; [|split].
  - apply (Hall Z _ Examples.scenario_T Examples.scenario_G 0
             [0; 1; 3; 4]); [done..|by vm_compute|by vm_compute].
  - apply (Hdouble Examples.double_G 0);
      [done|by vm_compute|by vm_compute].
  - apply (Hint Examples.negative_loop 0); [done|by vm_compute].
Defined.

(** C9, the claim as it is written, fails: [pathLengthsFromRoot] does not
    return on every graph.  On the [Graph<int>] with one vertex and the
    edge (0, 0) of weight [-2^30], with root 0, the distance of vertex 0
    goes from 0 to [-2^30] and to [-2^31], and the next sum,
    [-2^31 + -2^30], overflows in the third turn of the loop: the
    behaviour is undefined, and no amount of fuel gives a vector.  Nor
    does [allEdgesRelaxed] return on every vector: on the [Graph<int>]
    with the one edge (1, 2) of weight 5 and the distances
    [0, INT_MAX - 1, 0] the sum [INT_MAX - 1 + 5] overflows. *)
Lemma pathLengthsFromRoot_negative_loop_overflows :
  graph_wf Examples.negative_loop
  ∧ pathLengthsFromRoot 3 Examples.negative_loop 0 = Some Undefined
  ∧ (∀ fuel d,
       pathLengthsFromRoot fuel Examples.negative_loop 0 ≠ Some (Return d))
  ∧ graph_wf Examples.int_edge
  ∧ allEdgesRelaxed [0; Int.max_value - 1; 0] Examples.int_edge 0
    = Undefined.
Proof.
  assert (pathLengthsFromRoot 3 Examples.negative_loop 0 = Some Undefined)
    as Hrun by (by vm_compute).
  split_and!; [by apply (Graph_from_wf 1 [(0, 0, - 2 ^ 30)])|done|
    |by apply (Graph_from_wf 3 [(1, 2, 5)])|by vm_compute].
  intros fuel d Hfuel.
  by pose proof (pathLengthsFromRoot_deterministic _ _ _ _ _ _ Hrun Hfuel).
Qed.

(** * Further properties of the graph operations *)

Section GraphAlgebra.
Context {T : Type}.
Implicit Types (G : Graph T) (i j : Z) (weight : T).

(** The edges after [addEdge]: those there were, and the new one where
    there was none from [i] to [j]. *)
Lemma addEdge_edge G i j weight i' j' weight' :
  graph_wf G → 0 ≤ i < numVertices G → 0 ≤ j < numVertices G →
  edge (addEdge i j weight G).2 i' j' weight' ↔
  edge G i' j' weight'
  ∨ (i' = i ∧ j' = j ∧ weight' = weight ∧ ∀ x, ¬ edge G i j x).
Proof.
  intros HG Hi Hj. destruct (graph_wf_lookup G i HG Hi) as [m Hm].
  pose proof (lookup_lt_Some _ _ _ Hm) as Hlt.
  unfold addEdge. rewrite decide_False by lia. rewrite Hm. unfold edge. simpl.
  destruct (decide (i' = i)) as [->|Hne].
  - rewrite list_lookup_insert_eq by done. split.
    + intros (_ & m' & [= <-] & Hw). destruct (decide (j' = j)) as [->|Hj'].
      * rewrite map_insert_lookup in Hw. destruct (m !! j) as [x|] eqn:Hx;
          simpl in Hw; injection Hw as <-.
        -- left. split; [lia|eauto].
        -- right. split_and!; [done..|]. intros x (_ & m' & Hm' & Hx').
           congruence.
      * rewrite map_insert_lookup_ne in Hw by done. left. split; [lia|eauto].
    + intros [(_ & m' & Hm' & Hw) | (_ & -> & -> & Hno)].
      * assert (m' = m) as -> by congruence. split; [lia|].
        eexists. split; [done|]. destruct (decide (j = j')) as [->|Hj'].
        -- rewrite map_insert_lookup, Hw. done.
        -- by rewrite map_insert_lookup_ne.
      * split; [lia|]. eexists. split; [done|]. rewrite map_insert_lookup.
        destruct (m !! j) as [x|] eqn:Hx; [|done].
        destruct (Hno x). split; [lia|eauto].
  - assert (Z.to_nat i ≠ Z.to_nat i' ∨ i' < 0) as Hn by lia. split.
    + intros (Hi' & m' & Hm' & Hw). left. split; [done|].
      rewrite list_lookup_insert_ne in Hm' by lia. eauto.
    + intros [(Hi' & m' & Hm' & Hw) | (-> & _)]; [|done].
      split; [done|]. rewrite list_lookup_insert_ne by lia. eauto.
Qed.

(** The edges after [removeEdge]: those there were, but the one from [i] to
    [j]. *)
Lemma removeEdge_edge G i j i' j' weight' :
  graph_wf G →
  edge (removeEdge i j G).2 i' j' weight' ↔
  edge G i' j' weight' ∧ ¬ (i' = i ∧ j' = j).
Proof.
  intros HG. unfold removeEdge. case_decide as Hr.
  - destruct (graph_wf_lookup G i HG) as [m Hm]; [lia|].
    pose proof (lookup_lt_Some _ _ _ Hm) as Hlt.
    rewrite Hm. unfold edge. simpl.
    destruct (decide (i' = i)) as [->|Hne].
    + rewrite list_lookup_insert_eq by done. split.
      * intros (_ & m' & [= <-] & [Hj' Hw]%lookup_delete_Some).
        split; [split; [lia|eauto]|]. intros [_ ->]. done.
      * intros [(_ & m' & Hm' & Hw) Hnot].
        assert (m' = m) as -> by congruence. split; [lia|].
        eexists. split; [done|]. apply lookup_delete_Some. split; [|done].
        intros ->. by apply Hnot.
    + split.
      * intros (Hi' & m' & Hm' & Hw).
        rewrite list_lookup_insert_ne in Hm' by lia.
        split; [split; eauto|]. by intros [? _].
      * intros [(Hi' & m' & Hm' & Hw) _]. split; [done|].
        rewrite list_lookup_insert_ne by lia. eauto.
  - simpl. split; [|by intros [? _]]. intros He. split; [done|].
    intros [-> ->]. apply Hr.
    assert (has_edge G i j) as Hij by (by exists weight').
    apply (has_edge_range G _ _ HG) in Hij. lia.
Qed.

(** Two graphs with the same edges from [i] to [j] answer alike. *)
Lemma same_edge_same_answers G1 G2 i j :
  graph_wf G1 → graph_wf G2 →
  (∀ weight, edge G1 i j weight ↔ edge G2 i j weight) →
  isEdge G1 i j = isEdge G2 i j
  ∧ getEdgeWeight G1 i j = getEdgeWeight G2 i j.
Proof.
  intros H1 H2 Hsame. split.
  - destruct (isEdge_total G1 i j H1) as [E1|E1],
      (isEdge_total G2 i j H2) as [E2|E2]; rewrite E1, E2; try done.
    + apply isEdge_true in E1 as [w Hw]; [|done].
      assert (isEdge G2 i j = Return true) as E
        by (apply isEdge_true; [done|]; exists w; by apply Hsame).
      congruence.
    + apply isEdge_true in E2 as [w Hw]; [|done].
      assert (isEdge G1 i j = Return true) as E
        by (apply isEdge_true; [done|]; exists w; by apply Hsame).
      congruence.
  - destruct (getEdgeWeight_cases G1 i j) as [[w1 E1]|E1],
      (getEdgeWeight_cases G2 i j) as [[w2 E2]|E2]; rewrite E1, E2;
      try done.
    + apply getEdgeWeight_Return, Hsame, getEdgeWeight_Return in E1.
      congruence.
    + apply getEdgeWeight_Return, Hsame, getEdgeWeight_Return in E1.
      congruence.
    + apply getEdgeWeight_Return, Hsame, getEdgeWeight_Return in E2.
      congruence.
Qed.

Lemma addEdge_numVertices G i j weight :
  numVertices (addEdge i j weight G).2 = numVertices G.
Proof.
  unfold addEdge. case_decide; [done|]. by destruct (adjList G !! _).
Qed.

Lemma removeEdge_numVertices G i j :
  numVertices (removeEdge i j G).2 = numVertices G.
Proof.
  unfold removeEdge. case_decide; [|done]. by destruct (adjList G !! _).
Qed.

Lemma addEdge_returns G i j weight :
  graph_wf G → 0 ≤ i < numVertices G → 0 ≤ j < numVertices G →
  (addEdge i j weight G).1 = Return ().
Proof.
  intros HG Hi Hj. destruct (graph_wf_lookup G i HG Hi) as [m Hm].
  unfold addEdge. rewrite decide_False by lia. by rewrite Hm.
Qed.

Lemma removeEdge_returns G i j :
  graph_wf G → (removeEdge i j G).1 = Return ().
Proof.
  intros HG. unfold removeEdge. case_decide as Hr; [|done].
  destruct (graph_wf_lookup G i HG) as [m ->]; [lia|done].
Qed.

(** A well-formed graph is known by its number of vertices and its
    edges. *)
Lemma graph_eq G1 G2 :
  graph_wf G1 → graph_wf G2 → numVertices G1 = numVertices G2 →
  (∀ i j weight, edge G1 i j weight ↔ edge G2 i j weight) → G1 = G2.
Proof.
  intros (_ & Hl1 & _) (_ & Hl2 & _) HN Hsame.
  destruct G1 as [a1 n1], G2 as [a2 n2]. simpl in *. subst n2.
  f_equal; [|done].
  apply list_eq_same_length with (length a1); [lia|lia|].
  intros n m1 m2 Hn Hm1 Hm2. apply map_eq. intros j.
  apply option_eq. intros w. unfold edge in Hsame. simpl in Hsame.
  specialize (Hsame (Z.of_nat n) j w). rewrite Nat2Z.id in Hsame. split.
  - intros Hw. assert (0 ≤ Z.of_nat n ∧ ∃ m, a1 !! n = Some m ∧ m !! j = Some w)
      as (_ & m & Hm & Hw')%Hsame by (split; [lia|eauto]).
    congruence.
  - intros Hw. assert (0 ≤ Z.of_nat n ∧ ∃ m, a2 !! n = Some m ∧ m !! j = Some w)
      as (_ & m & Hm & Hw')%Hsame by (split; [lia|eauto]).
    congruence.
Qed.
End GraphAlgebra.

Section GraphLaws.
Context {T : Type}.
Implicit Types (G : Graph T) (i j : Z) (weight : T).

Lemma edge_dec G i j : (∃ x, edge G i j x) ∨ (∀ x, ¬ edge G i j x).
Proof.
  destruct (getEdgeWeight_cases G i j) as [[w Hw] | Hw].
  - left. exists w. by apply getEdgeWeight_Return.
  - right. intros x Hx%getEdgeWeight_Return. congruence.
Qed.

Lemma edge_functional G i j x y : edge G i j x → edge G i j y → x = y.
Proof. intros (_ & m & Hm & Hx) (_ & m' & Hm' & Hy). congruence. Qed.

Lemma addEdges_returns (l : list (Z * Z * T)) G :
  graph_wf G → Forall (triple_in_range (numVertices G)) l →
  (addEdges l G).1 = Return ()
  ∧ numVertices (addEdges l G).2 = numVertices G.
Proof.
  revert G. induction l as [|[[i0 j0] w0] l IH]; intros G HG Hl; [done|].
  apply Forall_cons in Hl as [[Hi0 Hj0] Hl]. simpl in Hi0, Hj0.
  pose proof (addEdge_returns G i0 j0 w0 HG Hi0 Hj0) as Hret.
  pose proof (addEdge_wf i0 j0 w0 G HG) as HG1.
  pose proof (addEdge_numVertices G i0 j0 w0) as HN1.
  simpl. destruct (addEdge i0 j0 w0 G) as [r G1]. simpl in *. subst r.
  destruct (IH G1 HG1) as [Hr HN]; [by rewrite HN1|].
  split; [done|congruence].
Qed.

(** A run of [addEdge] calls with triples in range: all return, and the
    edges afterwards are those there were and, for a pair without an edge,
    the first triple of the run. *)
Lemma addEdges_edge (l : list (Z * Z * T)) G i j weight :
  graph_wf G → Forall (triple_in_range (numVertices G)) l →
  (addEdges l G).1 = Return ()
  ∧ numVertices (addEdges l G).2 = numVertices G
  ∧ (edge (addEdges l G).2 i j weight ↔
     edge G i j weight
     ∨ ((∀ x, ¬ edge G i j x) ∧ first_weight l i j = Some weight)).
Proof.
  revert G. induction l as [|[[i0 j0] w0] l IH]; intros G HG Hl.
  - simpl. split_and!; [done..|]. split; [by left|]. by intros [? | [_ ?]].
  - apply Forall_cons in Hl as [[Hi0 Hj0] Hl]. simpl in Hi0, Hj0.
    pose proof (addEdge_returns G i0 j0 w0 HG Hi0 Hj0) as Hret.
    pose proof (addEdge_wf i0 j0 w0 G HG) as HG1.
    pose proof (addEdge_numVertices G i0 j0 w0) as HN1.
    pose proof (λ x, addEdge_edge G i0 j0 w0 i j x HG Hi0 Hj0) as Hedge.
    simpl. destruct (addEdge i0 j0 w0 G) as [r G1]. simpl in *. subst r.
    destruct (IH G1 HG1) as (Hr & HN & Hiff); [by rewrite HN1|].
    split_and!; [done|congruence|]. rewrite Hiff.
    case_decide as Hsame.
    + destruct Hsame as [-> ->]. split.
      * intros [He | [Hno _]].
        -- apply Hedge in He as [He | (_ & _ & -> & Hno)]; [by left|].
           by right.
        -- exfalso. destruct (edge_dec G i j) as [[x Hx] | Hno'].
           ++ apply (Hno x), Hedge. by left.
           ++ apply (Hno w0), Hedge. by right.
      * intros [He | [Hno [= ->]]]; left; apply Hedge; [by left|by right].
    + assert (∀ x, edge G1 i j x ↔ edge G i j x) as Hsame'.
      { intros x. rewrite Hedge. split; [|by left].
        intros [He | (-> & -> & _)]; [done|]. by destruct Hsame. }
      split.
      * intros [He | [Hno Hfirst]]; [left; by apply Hsame'|].
        right. split; [|done]. intros x Hx. by apply (Hno x), Hsame'.
      * intros [He | [Hno Hfirst]]; [left; by apply Hsame'|].
        right. split; [|done]. intros x Hx. by apply (Hno x), Hsame'.
Qed.
(** X1: [addEdge(i, j, w)] with both ends in range and no edge from [i] to
    [j] yet returns; the graph keeps its invariant and its size, the edge is
    there with the weight [w], and [isEdge] and [getEdgeWeight] answer for
    every other pair as before. *)
Theorem addEdge_new_edge G i j weight :
  graph_wf G → 0 ≤ i < numVertices G → 0 ≤ j < numVertices G →
  isEdge G i j = Return false →
  (addEdge i j weight G).1 = Return ()
  ∧ graph_wf (addEdge i j weight G).2
  ∧ numVertices (addEdge i j weight G).2 = numVertices G
  ∧ isEdge (addEdge i j weight G).2 i j = Return true
  ∧ getEdgeWeight (addEdge i j weight G).2 i j = Return weight
  ∧ ∀ i' j', ¬ (i' = i ∧ j' = j) →
      isEdge (addEdge i j weight G).2 i' j' = isEdge G i' j'
      ∧ getEdgeWeight (addEdge i j weight G).2 i' j' = getEdgeWeight G i' j'.
Proof.
  intros HG Hi Hj Hno.
  destruct (addEdge_fresh G i j weight HG Hi Hj Hno) as (Hret & His & Hget).
  pose proof (addEdge_wf i j weight G HG) as HG'.
  split_and!; [done..|apply addEdge_numVertices|done|done|].
  intros i' j' Hother. apply same_edge_same_answers; [done..|].
  intros x. rewrite addEdge_edge by done. split; [|by left].
  intros [He | (-> & -> & _)]; [done|]. by destruct Hother.
Qed.

(** X2: [addEdge(i, j, w)] where there is an edge from [i] to [j] already
    returns and leaves the whole graph as it is: the edge keeps the weight
    it had. *)
Theorem addEdge_existing_edge_noop G i j weight old :
  graph_wf G → getEdgeWeight G i j = Return old →
  addEdge i j weight G = (Return (), G)
  ∧ getEdgeWeight (addEdge i j weight G).2 i j = Return old.
Proof.
  intros HG Hold. apply getEdgeWeight_Return in Hold as He.
  rewrite (addEdge_existing G i j weight old HG He). done.
Qed.

(** X3: [addEdge] and [removeEdge] keep the invariant of the class (one
    adjacency map per vertex, every edge ends at a vertex) and the number
    of vertices, for all arguments; on a well-formed graph neither has
    undefined behaviour, and [removeEdge] always returns. *)
Theorem mutators_keep_invariant G i j weight :
  graph_wf G →
  graph_wf (addEdge i j weight G).2
  ∧ numVertices (addEdge i j weight G).2 = numVertices G
  ∧ (addEdge i j weight G).1 ≠ Undefined
  ∧ graph_wf (removeEdge i j G).2
  ∧ numVertices (removeEdge i j G).2 = numVertices G
  ∧ (removeEdge i j G).1 = Return ().
Proof.
  intros HG. split_and!.
  - by apply addEdge_wf.
  - apply addEdge_numVertices.
  - destruct (decide (0 ≤ i < numVertices G ∧ 0 ≤ j < numVertices G))
      as [[Hi Hj] | Hout].
    + by rewrite addEdge_returns.
    + unfold addEdge. by rewrite decide_True by lia.
  - by apply removeEdge_wf.
  - apply removeEdge_numVertices.
  - by apply removeEdge_returns.
Qed.

(** X4: [removeEdge(i, j)] returns for all arguments; afterwards [isEdge(i,
    j)] is false and [getEdgeWeight(i, j)] throws, every other pair answers
    as before, and with [i] or [j] out of range the graph is untouched. *)
Theorem removeEdge_removes_only_that_edge G i j :
  graph_wf G →
  (removeEdge i j G).1 = Return ()
  ∧ isEdge (removeEdge i j G).2 i j = Return false
  ∧ getEdgeWeight (removeEdge i j G).2 i j = Throw out_of_range
  ∧ (∀ i' j', ¬ (i' = i ∧ j' = j) →
       isEdge (removeEdge i j G).2 i' j' = isEdge G i' j'
       ∧ getEdgeWeight (removeEdge i j G).2 i' j' = getEdgeWeight G i' j')
  ∧ (¬ (0 ≤ i < numVertices G ∧ 0 ≤ j < numVertices G) →
     (removeEdge i j G).2 = G).
Proof.
  intros HG. pose proof (removeEdge_wf i j G HG) as HG'.
  assert (∀ x, ¬ edge (removeEdge i j G).2 i j x) as Hno.
  { intros x [_ Hnot]%removeEdge_edge; [|done]. by apply Hnot. }
  split_and!.
  - by apply removeEdge_returns.
  - destruct (isEdge_total _ i j HG') as [Htrue | ?]; [|done].
    apply isEdge_true in Htrue as [x Hx]; [|done]. by destruct (Hno x).
  - destruct (getEdgeWeight_cases (removeEdge i j G).2 i j)
      as [[x Hx%getEdgeWeight_Return] | ?]; [|done].
    by destruct (Hno x).
  - intros i' j' Hother. apply same_edge_same_answers; [done..|].
    intros x. rewrite removeEdge_edge by done. split; [by intros [? _]|].
    intros He. by split.
  - intros Hout. unfold removeEdge. rewrite decide_False; [done|lia].
Qed.

(** X5: [addEdge] and [removeEdge] undo each other: removing an edge that
    was just added where there was none gives the graph back, and so does
    adding again, with its weight, an edge that was just removed. *)
Theorem addEdge_removeEdge_round_trip G i j weight :
  graph_wf G → 0 ≤ i < numVertices G → 0 ≤ j < numVertices G →
  (isEdge G i j = Return false →
   removeEdge i j (addEdge i j weight G).2 = (Return (), G))
  ∧ (getEdgeWeight G i j = Return weight →
     addEdge i j weight (removeEdge i j G).2 = (Return (), G)).
Proof.
  intros HG Hi Hj.
  pose proof (addEdge_wf i j weight G HG) as HGa.
  pose proof (removeEdge_wf i j G HG) as HGr.
  pose proof (addEdge_numVertices G i j weight) as HNa.
  pose proof (removeEdge_numVertices G i j) as HNr.
  split.
  - intros Hno. apply injective_projections.
    + by apply removeEdge_returns.
    + simpl. apply graph_eq; [by apply removeEdge_wf|done| |].
      * by rewrite removeEdge_numVertices.
      * intros i' j' x. rewrite removeEdge_edge, addEdge_edge by done.
        split.
        -- intros [[He | (-> & -> & _)] Hnot]; [done|]. by destruct Hnot.
        -- intros He. split; [by left|]. intros [-> ->].
           assert (isEdge G i j = Return true) by (apply isEdge_true; eauto).
           congruence.
  - intros Hw%getEdgeWeight_Return. apply injective_projections.
    + apply addEdge_returns; [done|lia..].
    + simpl. apply graph_eq; [by apply addEdge_wf|done| |].
      * by rewrite addEdge_numVertices.
      * intros i' j' x. rewrite addEdge_edge by (done || lia).
        rewrite removeEdge_edge by done. split.
        -- intros [[He _] | (-> & -> & -> & _)]; done.
        -- intros He. destruct (decide (i' = i ∧ j' = j)) as [[-> ->]|Hne].
           ++ right. split_and!; [done..| |].
              ** by eapply edge_functional.
              ** intros y [_ Hnot]%removeEdge_edge; [|done]. by apply Hnot.
           ++ by left.
Qed.

(** X6: on a well-formed graph [isEdge] never throws, and it agrees with
    [getEdgeWeight]: either [isEdge(i, j)] is true and [getEdgeWeight(i,
    j)] returns a weight, or [isEdge(i, j)] is false and [getEdgeWeight(i,
    j)] throws [std::out_of_range]; with [i] or [j] out of range it is the
    second. *)
Theorem isEdge_agrees_with_getEdgeWeight G i j :
  graph_wf G →
  ((isEdge G i j = Return true ∧ ∃ weight, getEdgeWeight G i j = Return weight)
   ∨ (isEdge G i j = Return false
      ∧ getEdgeWeight G i j = Throw out_of_range))
  ∧ (¬ (0 ≤ i < numVertices G ∧ 0 ≤ j < numVertices G) →
     isEdge G i j = Return false).
Proof.
  intros HG. split.
  - destruct (isEdge_total G i j HG) as [Htrue | Hfalse].
    + left. split; [done|]. apply isEdge_true in Htrue as [w Hw]; [|done].
      exists w. by apply getEdgeWeight_Return.
    + right. split; [done|]. by apply getEdgeWeight_not_isEdge.
  - intros Hout. unfold isEdge. rewrite decide_False; [done|lia].
Qed.

(** X7: [Graph(N)] with [N >= 0] is a well-formed graph with [N] vertices
    and no edge: [isEdge] is false and [getEdgeWeight] throws for every
    pair, and every vertex has an empty adjacency map. *)
Theorem Graph_new_has_no_edge (N : Z) :
  0 ≤ N →
  ∃ G : Graph T,
    Graph_new N = Return G
    ∧ graph_wf G ∧ size G = N
    ∧ (∀ i j, isEdge G i j = Return false
              ∧ getEdgeWeight G i j = Throw out_of_range)
    ∧ (∀ v, 0 ≤ v < N → neighbours G v = Return ∅).
Proof.
  intros HN. unfold Graph_new. rewrite decide_True by done.
  eexists. split; [done|].
  assert (graph_wf (mkGraph (T:=T) (replicate (Z.to_nat N) ∅) N)) as HG.
  { apply (Graph_new_wf N). unfold Graph_new. by rewrite decide_True. }
  split_and!; [done..| |].
  - intros i j.
    assert (isEdge (mkGraph (T:=T) (replicate (Z.to_nat N) ∅) N) i j
            = Return false) as Hno.
    { destruct (isEdge_total _ i j HG) as [Htrue | ?]; [|done].
      apply isEdge_true in Htrue as [w Hw]; [|done].
      by apply edge_replicate_empty in Hw. }
    split; [done|]. by apply getEdgeWeight_not_isEdge.
  - intros v Hv. apply neighbours_Return. split; [lia|]. simpl.
    apply lookup_replicate. split; [done|lia].
Qed.

(** X8: a graph built by [Graph(N)] and a run of [addEdge] calls, as the
    constructor from a file does for the triples it reads.  With all
    triples in range the run returns, and [getEdgeWeight(i, j)] is the
    weight of the first triple from [i] to [j]: a later triple for the same
    pair changes nothing.  With a triple out of range the run ends in
    [std::out_of_range]. *)
Theorem Graph_from_first_triple_wins (N : Z) (l : list (Z * Z * T)) :
  0 ≤ N →
  (Forall (triple_in_range N) l →
   ∃ G, Graph_from N l = Return G
        ∧ graph_wf G ∧ size G = N
        ∧ ∀ i j weight,
            getEdgeWeight G i j = Return weight ↔
            first_weight l i j = Some weight)
  ∧ (¬ Forall (triple_in_range N) l →
     Graph_from N l = Throw out_of_range).
Proof.
  intros HN. unfold Graph_from, Graph_new. rewrite decide_True by done.
  simpl. set (G0 := mkGraph (T:=T) (replicate (Z.to_nat N) ∅) N).
  assert (graph_wf G0) as HG0.
  { apply (Graph_new_wf N). unfold Graph_new. by rewrite decide_True. }
  split.
  - intros Hl.
    pose proof (λ i j w, addEdges_edge l G0 i j w HG0 Hl) as Hrun.
    destruct (addEdges_returns l G0 HG0 Hl) as [Hret HNl].
    pose proof (addEdges_wf l G0 HG0) as HG.
    destruct (addEdges l G0) as [r G] eqn:E. simpl in *. subst r.
    exists G. split_and!; [done..|].
    intros i j w. rewrite getEdgeWeight_Return.
    destruct (Hrun i j w) as (_ & _ & ->). split.
    + intros [He | [_ ?]]; [|done]. by apply edge_replicate_empty in He.
    + intros Hfirst. right. split; [|done]. intros x.
      apply edge_replicate_empty.
  - intros Hnot. assert (numVertices G0 = N) as HN0 by done.
    clearbody G0. revert G0 HG0 HN0.
    induction l as [|[[i j] w] l IH]; intros G0 HG0 HN0.
    + by destruct Hnot.
    + simpl. destruct (decide (triple_in_range N (i, j, w))) as [[Hi Hj]|Hout].
      * simpl in Hi, Hj.
        pose proof (addEdge_returns G0 i j w HG0) as Hret.
        pose proof (addEdge_wf i j w G0 HG0) as HG1.
        pose proof (addEdge_numVertices G0 i j w) as HN1.
        destruct (addEdge i j w G0) as [r G1]. simpl in *.
        rewrite Hret by lia. apply IH; [|done|lia].
        intros Hl. apply Hnot. by constructor.
      * unfold addEdge. rewrite decide_True; [done|].
        unfold triple_in_range in Hout. simpl in Hout. lia.
Qed.
End GraphLaws.

Lemma addEdge_new_edge_witness :
  (addEdge 1 0 7 Examples.one_edge).1 = Return ()
  ∧ graph_wf (addEdge 1 0 7 Examples.one_edge).2
  ∧ numVertices (addEdge 1 0 7 Examples.one_edge).2
    = numVertices Examples.one_edge
  ∧ isEdge (addEdge 1 0 7 Examples.one_edge).2 1 0 = Return true
  ∧ getEdgeWeight (addEdge 1 0 7 Examples.one_edge).2 1 0 = Return 7
  ∧ ∀ i' j', ¬ (i' = 1 ∧ j' = 0) →
      isEdge (addEdge 1 0 7 Examples.one_edge).2 i' j'
      = isEdge Examples.one_edge i' j'
      ∧ getEdgeWeight (addEdge 1 0 7 Examples.one_edge).2 i' j'
        = getEdgeWeight Examples.one_edge i' j'.
Proof.
  apply addEdge_new_edge.
  - by apply (Graph_from_wf 2 [(0, 1, 3)]).
  - by vm_compute.
  - by vm_compute.
  - reflexivity.
Defined.

Lemma addEdge_existing_edge_noop_witness :
  addEdge 0 1 5 Examples.one_edge = (Return (), Examples.one_edge)
  ∧ getEdgeWeight (addEdge 0 1 5 Examples.one_edge).2 0 1 = Return 3.
Proof.
  apply addEdge_existing_edge_noop.
  - by apply (Graph_from_wf 2 [(0, 1, 3)]).
  - reflexivity.
Defined.

Lemma mutators_keep_invariant_witness :
  graph_wf (addEdge 5 0 7 Examples.one_edge).2
  ∧ numVertices (addEdge 5 0 7 Examples.one_edge).2
    = numVertices Examples.one_edge
  ∧ (addEdge 5 0 7 Examples.one_edge).1 ≠ Undefined
  ∧ graph_wf (removeEdge 5 0 Examples.one_edge).2
  ∧ numVertices (removeEdge 5 0 Examples.one_edge).2
    = numVertices Examples.one_edge
  ∧ (removeEdge 5 0 Examples.one_edge).1 = Return ().
Proof.
  apply mutators_keep_invariant. by apply (Graph_from_wf 2 [(0, 1, 3)]).
Defined.

Lemma removeEdge_removes_only_that_edge_witness :
  (removeEdge 0 1 Examples.scenario_G).1 = Return ()
  ∧ isEdge (removeEdge 0 1 Examples.scenario_G).2 0 1 = Return false
  ∧ getEdgeWeight (removeEdge 0 1 Examples.scenario_G).2 0 1
    = Throw out_of_range
  ∧ getEdgeWeight (removeEdge 0 1 Examples.scenario_G).2 0 2
    = getEdgeWeight Examples.scenario_G 0 2
  ∧ (removeEdge 9 1 Examples.scenario_G).2 = Examples.scenario_G.
Proof.
  assert (graph_wf Examples.scenario_G) as HG
    by (by apply (Graph_from_wf 4
          [(0, 1, 1); (0, 2, 4); (1, 2, 2); (1, 3, 5); (2, 3, 1)])).
  destruct (removeEdge_removes_only_that_edge Examples.scenario_G 0 1 HG)
    as (Hret & His & Hget & Hother & _).
  destruct (removeEdge_removes_only_that_edge Examples.scenario_G 9 1 HG)
    as (_ & _ & _ & _ & Hout).
  split_and!; [done..| |].
  - apply Hother. lia.
  - apply Hout. vm_compute. by intros [[_ H] _].
Defined.

Lemma addEdge_removeEdge_round_trip_witness :
  removeEdge 1 0 (addEdge 1 0 3 Examples.one_edge).2
  = (Return (), Examples.one_edge)
  ∧ addEdge 0 1 3 (removeEdge 0 1 Examples.one_edge).2
    = (Return (), Examples.one_edge).
Proof.
  assert (graph_wf Examples.one_edge) as HG
    by (by apply (Graph_from_wf 2 [(0, 1, 3)])).
  split.
  - apply (addEdge_removeEdge_round_trip Examples.one_edge 1 0 3 HG);
      [by vm_compute..|reflexivity].
  - apply (addEdge_removeEdge_round_trip Examples.one_edge 0 1 3 HG);
      [by vm_compute..|reflexivity].
Defined.

Lemma isEdge_agrees_with_getEdgeWeight_witness :
  ((isEdge Examples.scenario_G 1 3 = Return true
    ∧ ∃ weight, getEdgeWeight Examples.scenario_G 1 3 = Return weight)
   ∨ (isEdge Examples.scenario_G 1 3 = Return false
      ∧ getEdgeWeight Examples.scenario_G 1 3 = Throw out_of_range))
  ∧ isEdge Examples.scenario_G 1 4 = Return false.
Proof.
  assert (graph_wf Examples.scenario_G) as HG
    by (by apply (Graph_from_wf 4
          [(0, 1, 1); (0, 2, 4); (1, 2, 2); (1, 3, 5); (2, 3, 1)])).
  split.
  - apply (isEdge_agrees_with_getEdgeWeight Examples.scenario_G 1 3 HG).
  - apply (isEdge_agrees_with_getEdgeWeight Examples.scenario_G 1 4 HG).
    vm_compute. by intros [_ [_ H]].
Defined.

Lemma Graph_new_has_no_edge_witness :
  ∃ G : Graph Z,
    Graph_new 3 = Return G
    ∧ graph_wf G ∧ size G = 3
    ∧ (∀ i j, isEdge G i j = Return false
              ∧ getEdgeWeight G i j = Throw out_of_range)
    ∧ (∀ v, 0 ≤ v < 3 → neighbours G v = Return ∅).
Proof. apply Graph_new_has_no_edge. lia. Defined.

Lemma Graph_from_first_triple_wins_witness :
  (∃ G, Graph_from 2 [(0, 1, 3); (0, 1, 5)] = Return G
        ∧ graph_wf G ∧ size G = 2
        ∧ ∀ i j weight,
            getEdgeWeight G i j = Return weight ↔
            first_weight [(0, 1, 3); (0, 1, 5)] i j = Some weight)
  ∧ Graph_from (T:=Z) 2 [(0, 1, 3); (2, 1, 5)] = Throw out_of_range.
Proof.
  split.
  - apply (Graph_from_first_triple_wins 2 [(0, 1, 3); (0, 1, 5)]); [lia|].
    repeat constructor; simpl; lia.
  - apply (Graph_from_first_triple_wins 2 [(0, 1, 3); (2, 1, 5)]); [lia|].
    intros Hl. apply Forall_cons in Hl as [_ Hl].
    apply Forall_cons in Hl as [[Hr _] _]. simpl in Hr. lia.
Defined.

(** * Further properties of the checkers *)

Section SubgraphLaws.
Context {T : Type} {NT : Numeric T}.
Implicit Types (H G : Graph T).

(** An edge is in [G] with an equal weight. *)
Lemma edge_in_edge G v w weight :
  graph_wf G →
  edge_in G v w weight ↔ ∃ weight', edge G v w weight'
                                    ∧ eqb weight' weight = true.
Proof.
  intros HG. unfold edge_in. split.
  - intros (_ & w' & Hw'%getEdgeWeight_Return & Heq). eauto.
  - intros (w' & Hw' & Heq). split; [apply isEdge_true; eauto|].
    exists w'. split; [by apply getEdgeWeight_Return|done].
Qed.

(** When [isSubgraph] says yes. *)
Lemma isSubgraph_true_iff H G :
  graph_wf H → graph_wf G →
  isSubgraph H G = Return true ↔
  size H ≤ size G
  ∧ ∀ v w weight, edge H v w weight →
      ∃ weight', edge G v w weight' ∧ eqb weight' weight = true.
Proof.
  intros HH HG. unfold isSubgraph. case_decide as Hsize.
  { split; [done|]. intros [? _]. lia. }
  destruct (for_each_check
    (λ v, ∀ w weight, edge H v w weight → edge_in G v w weight)
    (isSubgraph_vertex H G) (seqZ 0 (size H))) as [[HF ->] | [HF ->]].
  - intros v Hv%elem_of_seqZ. apply isSubgraph_vertex_spec; [done..|lia].
  - simpl. split; [|done]. intros _. split; [lia|]. intros v w weight He.
    apply edge_in_edge; [done|].
    rewrite Forall_seqZ_vertices in HF. apply (HF v); [|done].
    assert (has_edge H v w) as Hvw by (by exists weight).
    apply (has_edge_range H _ _ HH) in Hvw. unfold size. lia.
  - simpl. split; [done|]. intros [_ Hall]. destruct HF.
    apply Forall_seqZ_vertices. intros v _ w weight He.
    apply edge_in_edge; [done|]. by apply Hall.
Qed.

(** X9: [isSubgraph(G, G)] is true exactly when every weight of [G] is
    equal to itself under [==]; so it is true for every graph whose weight
    type has a reflexive [==], and false for a graph with a weight that is
    not a number. *)
Theorem isSubgraph_reflexive G :
  graph_wf G →
  (isSubgraph G G = Return true ↔
   ∀ v w weight, edge G v w weight → eqb weight weight = true)
  ∧ ((∀ x : T, eqb x x = true) → isSubgraph G G = Return true).
Proof.
  intros HG.
  assert (isSubgraph G G = Return true ↔
          ∀ v w weight, edge G v w weight → eqb weight weight = true) as Hiff.
  { rewrite isSubgraph_true_iff by done. split.
    - intros [_ Hall] v w weight He.
      destruct (Hall v w weight He) as (w' & He' & Heq).
      by rewrite (edge_functional G v w w' weight He' He) in Heq.
    - intros Hall. split; [lia|]. intros v w weight He. exists weight.
      split; [done|]. by eapply Hall. }
  split; [done|]. intros Hrefl. apply Hiff. intros v w weight _.
  apply Hrefl.
Qed.

(** X10: [isSubgraph] is transitive when [==] on the weights is. *)
Theorem isSubgraph_transitive (A B C : Graph T) :
  graph_wf A → graph_wf B → graph_wf C →
  (∀ x y z : T, eqb x y = true → eqb y z = true → eqb x z = true) →
  isSubgraph A B = Return true → isSubgraph B C = Return true →
  isSubgraph A C = Return true.
Proof.
  intros HA HB HC Htrans.
  rewrite !isSubgraph_true_iff by done.
  intros [HAB Hab] [HBC Hbc]. split; [lia|]. intros v w weight He.
  destruct (Hab v w weight He) as (w1 & He1 & Heq1).
  destruct (Hbc v w w1 He1) as (w2 & He2 & Heq2).
  exists w2. split; [done|]. by eapply Htrans.
Qed.

(** X11: [isSubgraph(H, G)] stays true when an edge is added to [G],
    because [addEdge] changes no edge that is there, and when an edge is
    removed from [H]. *)
Theorem isSubgraph_monotone H G i j weight i' j' :
  graph_wf H → graph_wf G →
  isSubgraph H G = Return true →
  isSubgraph H (addEdge i j weight G).2 = Return true
  ∧ isSubgraph (removeEdge i' j' H).2 G = Return true.
Proof.
  intros HH HG.
  pose proof (addEdge_wf i j weight G HG) as HG'.
  pose proof (removeEdge_wf i' j' H HH) as HH'.
  rewrite !isSubgraph_true_iff by done.
  unfold size. rewrite addEdge_numVertices, removeEdge_numVertices.
  intros [Hsize Hall]. split; (split; [done|]); intros v w x He.
  - destruct (Hall v w x He) as (x' & He' & Heq). exists x'.
    split; [|done].
    destruct (decide (0 ≤ i < numVertices G ∧ 0 ≤ j < numVertices G))
      as [[Hi Hj] | Hout].
    + apply addEdge_edge; [done..|]. by left.
    + unfold addEdge. by rewrite decide_True by lia.
  - apply removeEdge_edge in He as [He _]; [|done]. by apply Hall.
Qed.
End SubgraphLaws.

Lemma int_eqb_refl (x : Z) : eqb x x = true.
Proof. simpl. unfold Int.eqb. apply Z.eqb_refl. Qed.

Lemma int_eqb_trans (x y z : Z) :
  eqb x y = true → eqb y z = true → eqb x z = true.
Proof.
  simpl. unfold Int.eqb. intros Hxy%Z.eqb_eq Hyz%Z.eqb_eq.
  apply Z.eqb_eq. congruence.
Qed.

Lemma scenario_G_wf : graph_wf Examples.scenario_G.
Proof.
  by apply (Graph_from_wf 4
    [(0, 1, 1); (0, 2, 4); (1, 2, 2); (1, 3, 5); (2, 3, 1)]).
Qed.

Lemma scenario_T_wf : graph_wf Examples.scenario_T.
Proof. by apply (Graph_from_wf 4 [(0, 1, 1); (1, 2, 2); (2, 3, 1)]). Qed.

Lemma isSubgraph_reflexive_witness :
  isSubgraph Examples.scenario_G Examples.scenario_G = Return true.
Proof.
  apply (isSubgraph_reflexive Examples.scenario_G scenario_G_wf).
  exact int_eqb_refl.
Defined.

Lemma isSubgraph_transitive_witness :
  isSubgraph Examples.scenario_T Examples.scenario_G = Return true.
Proof.
  apply (isSubgraph_transitive Examples.scenario_T Examples.scenario_G
           Examples.scenario_G).
  - exact scenario_T_wf.
  - exact scenario_G_wf.
  - exact scenario_G_wf.
  - exact int_eqb_trans.
  - reflexivity.
  - reflexivity.
Defined.

Lemma isSubgraph_monotone_witness :
  isSubgraph Examples.scenario_T (addEdge 3 0 9 Examples.scenario_G).2
  = Return true
  ∧ isSubgraph (removeEdge 1 2 Examples.scenario_T).2 Examples.scenario_G
    = Return true.
Proof.
  apply isSubgraph_monotone.
  - exact scenario_T_wf.
  - exact scenario_G_wf.
  - reflexivity.
Defined.

Section RelaxedLaws.
Context {T : Type} {NT : Numeric T}.
Implicit Types (G : Graph T) (d : list T).

(** What a true verdict tells about the vector and the edges. *)
Lemma allEdgesRelaxed_true d G source :
  graph_wf G → Z.of_nat (length d) = numVertices G →
  allEdgesRelaxed d G source = Return true →
  (∃ ds, vector_at d source = Return ds ∧ eqb ds zero = true)
  ∧ ∀ u v weight, edge G u v weight → relaxed d u v weight.
Proof.
  intros HG Hlen Hyes.
  destruct (vector_at_cases d source) as [[ds Hds] | Hthrow];
    [|unfold allEdgesRelaxed in Hyes; by rewrite Hthrow in Hyes].
  destruct (eqb ds zero) eqn:Hz;
    [|by rewrite (allEdgesRelaxed_source_not_zero d G source ds) in Hyes].
  assert (∃ ds, vector_at d source = Return ds ∧ eqb ds zero = true) as Hs
    by eauto.
  split; [done|]. by apply (allEdgesRelaxed_true_iff d G source).
Qed.

(** No sum overflows on a vector that is accepted. *)
Lemma allEdgesRelaxed_true_sums_defined d G source :
  graph_wf G → Z.of_nat (length d) = numVertices G →
  allEdgesRelaxed d G source = Return true → sums_defined G d.
Proof.
  intros HG Hlen Hyes u v weight du He Hdu Hinf.
  destruct (allEdgesRelaxed_true d G source HG Hlen Hyes) as [_ Hrel].
  assert (has_edge G u v) as Huv by (by exists weight).
  destruct (has_edge_range G u v HG Huv) as [_ Hv].
  destruct (lookup_lt_is_Some_2 d (Z.to_nat v)) as [dv Hdv]; [lia|].
  destruct (Hrel u v weight He du dv Hdu Hdv Hinf) as (sum & -> & _).
  by eexists.
Qed.

(** X12: [allEdgesRelaxed] on a vector with one distance per vertex throws
    nothing.  Its verdict is true exactly when [d[source] == 0] and every
    edge of [G] is relaxed: its origin has the distance [infinity<T>()],
    or the sum of the distance of its origin and the weight is defined and
    the distance of its end is not above it.  It returns a verdict when
    none of these sums overflows. *)
Theorem allEdgesRelaxed_verdict d G source :
  graph_wf G → Z.of_nat (length d) = numVertices G →
  0 ≤ source < numVertices G →
  ∃ ds,
    d !! Z.to_nat source = Some ds
    ∧ (allEdgesRelaxed d G source = Return true ↔
       eqb ds zero = true
       ∧ ∀ u v weight, edge G u v weight → relaxed d u v weight)
    ∧ (sums_defined G d → ∃ b, allEdgesRelaxed d G source = Return b)
    ∧ ∀ e, allEdgesRelaxed d G source ≠ Throw e.
Proof.
  intros HG Hlen Hs.
  destruct (vector_at_inside d source) as [ds Hds]; [lia|].
  pose proof Hds as [_ Hlook]%vector_at_Return.
  exists ds. split_and!; [done| | |].
  - destruct (eqb ds zero) eqn:Hz.
    + rewrite (allEdgesRelaxed_true_iff d G source HG Hlen) by eauto.
      split; [done|by intros [_ ?]].
    + rewrite (allEdgesRelaxed_source_not_zero d G source ds) by done.
      split; [done|by intros [? _]].
  - by apply allEdgesRelaxed_returns.
  - intros e.
    by destruct (allEdgesRelaxed_outcome d G source HG Hlen Hs)
      as [[b ->] | [-> _]].
Qed.

(** X13: a vector that [allEdgesRelaxed] accepts for [G] is accepted for
    [G] with an edge removed. *)
Theorem allEdgesRelaxed_fewer_edges d G source i j :
  graph_wf G → Z.of_nat (length d) = numVertices G →
  allEdgesRelaxed d G source = Return true →
  allEdgesRelaxed d (removeEdge i j G).2 source = Return true.
Proof.
  intros HG Hlen Hyes.
  destruct (allEdgesRelaxed_true d G source HG Hlen Hyes) as [Hs Hrel].
  apply allEdgesRelaxed_true_iff; [by apply removeEdge_wf| |done|].
  { unfold size. by rewrite removeEdge_numVertices. }
  intros u v weight He.
  apply removeEdge_edge in He as [He _]; [|done]. by apply Hrel.
Qed.
End RelaxedLaws.

Lemma allEdgesRelaxed_verdict_witness :
  ∃ ds,
    [0; 1; 3; 4] !! Z.to_nat 0 = Some ds
    ∧ (allEdgesRelaxed [0; 1; 3; 4] Examples.scenario_G 0 = Return true ↔
       eqb ds zero = true
       ∧ ∀ u v weight, edge Examples.scenario_G u v weight →
           relaxed [0; 1; 3; 4] u v weight)
    ∧ (sums_defined Examples.scenario_G [0; 1; 3; 4] →
       ∃ b, allEdgesRelaxed [0; 1; 3; 4] Examples.scenario_G 0 = Return b)
    ∧ ∀ e, allEdgesRelaxed [0; 1; 3; 4] Examples.scenario_G 0 ≠ Throw e.
Proof.
  apply allEdgesRelaxed_verdict; [exact scenario_G_wf|reflexivity|].
  by vm_compute.
Defined.

Lemma allEdgesRelaxed_fewer_edges_witness :
  allEdgesRelaxed [0; 1; 3; 4] (removeEdge 1 3 Examples.scenario_G).2 0
  = Return true.
Proof.
  apply allEdgesRelaxed_fewer_edges;
    [exact scenario_G_wf|reflexivity|reflexivity].
Defined.

Section DistanceLaws.
Context {T : Type} {NT : Numeric T}.
Context (tree : Graph T) (root : Z) (HG : graph_wf tree).
Implicit Types (d : list T) (q : list Z).

(** The loop of [pathLengthsFromRoot] throws nothing: it ends in a vector
    of the same length, or in a sum that overflows. *)
Lemma relax_loop_Return (fuel : nat) d q r :
  Z.of_nat (length d) = size tree →
  (∀ x, x ∈ q → 0 ≤ x < size tree) →
  relax_loop fuel tree d q = Some r →
  (r = Undefined ∧ add_overflows T)
  ∨ ∃ d', r = Return d' ∧ length d' = length d.
Proof.
  revert d q. induction fuel as [|fuel IH]; intros d [|u q] Hlen Hq; simpl;
    try done.
  - intros [= <-]. right. by exists d.
  - intros [= <-]. right. by exists d.
  - destruct (relax_vertex_spec tree u d q HG Hlen)
      as [[-> Hover] | (d1 & q1 & -> & Hlen1 & Hq1 & _ & _)].
    { apply Hq. by left. }
    { intros [= <-]. by left. }
    intros Hrun.
    destruct (IH d1 q1) as [? | (d' & -> & Hl)]; [lia| |done|by left|].
    + intros x [Hx | He]%Hq1; [apply Hq; by right|].
      by apply (has_edge_range tree _ _ HG) in He as [_ ?].
    + right. exists d'. split; [done|lia].
Qed.

(** The loop writes only the entries of ends of edges that leave a vertex
    reached from [root]. *)
Lemma relax_loop_untouched (fuel : nat) d q d' :
  0 ≤ root < numVertices tree →
  Z.of_nat (length d) = size tree →
  (∀ x, x ∈ q → reachable tree root x) →
  relax_loop fuel tree d q = Some (Return d') →
  ∀ x, 0 ≤ x → (∀ u, reachable tree root u → ¬ has_edge tree u x) →
    d' !! Z.to_nat x = d !! Z.to_nat x.
Proof.
  intros Hroot. revert d q.
  induction fuel as [|fuel IH]; intros d [|u q] Hlen Hq; simpl; try done.
  - by intros [= ->].
  - by intros [= ->].
  - assert (reachable tree root u) as Hu by (apply Hq; by left).
    destruct (relax_vertex_spec tree u d q HG Hlen)
      as [[-> _] | (d1 & q1 & -> & Hlen1 & Hq1 & Hframe & _)];
      [by apply (reachable_range tree root HG Hroot)|done|].
    intros Hrun x Hx Hno.
    rewrite (IH d1 q1); [|lia| |done..].
    + apply Hframe; [done|]. by apply Hno.
    + intros y [Hy | He]%Hq1; [apply Hq; by right|]. by eapply rtc_r.
Qed.

(** With a vertex as root the call throws nothing: if it ends, it returns
    a vector with one distance per vertex, or a sum overflowed. *)
Lemma pathLengthsFromRoot_Return (fuel : nat) r :
  0 ≤ root < numVertices tree →
  pathLengthsFromRoot fuel tree root = Some r →
  (r = Undefined ∧ add_overflows T)
  ∨ ∃ d, r = Return d ∧ Z.of_nat (length d) = numVertices tree.
Proof.
  destruct HG as (HN & _ & _). intros Hroot.
  unfold pathLengthsFromRoot, size. rewrite vector_new_Return by done.
  simpl.
  set (d0 := replicate (Z.to_nat (numVertices tree)) limits_max).
  assert (Z.of_nat (length d0) = numVertices tree) as Hlen0
    by (unfold d0; rewrite length_replicate; lia).
  assert (vector_set d0 root zero = Return (<[Z.to_nat root := zero]> d0))
    as -> by (apply vector_set_Return; split; [lia|done]).
  intros Hrun.
  apply relax_loop_Return in Hrun as [? | (d & -> & Hlen)]; [by left| | |].
  - right. exists d. split; [done|]. rewrite Hlen, length_insert. done.
  - by rewrite length_insert.
  - by intros x ->%list_elem_of_singleton.
Qed.

(** The length of a vector that is returned. *)
Lemma pathLengthsFromRoot_length (fuel : nat) d :
  0 ≤ root < numVertices tree →
  pathLengthsFromRoot fuel tree root = Some (Return d) →
  Z.of_nat (length d) = numVertices tree.
Proof.
  intros Hroot Hrun.
  by destruct (pathLengthsFromRoot_Return fuel _ Hroot Hrun)
    as [[? _] | (d' & [= <-] & ?)].
Qed.

(** X14: [pathLengthsFromRoot] with [root] out of range throws
    [std::out_of_range] before its loop.  With a vertex as root it throws
    nothing: when it ends, it returns a vector with one distance per
    vertex, or a sum of two values of the weight type overflowed, which is
    undefined behaviour; so it returns a vector when it ends and every sum
    of the weight type is defined, as for [double]. *)
Theorem pathLengthsFromRoot_outcome (fuel : nat) :
  (¬ (0 ≤ root < numVertices tree) →
   pathLengthsFromRoot fuel tree root = Some (Throw out_of_range))
  ∧ (0 ≤ root < numVertices tree →
     ∀ r, pathLengthsFromRoot fuel tree root = Some r →
       ((∃ d, r = Return d ∧ Z.of_nat (length d) = numVertices tree)
        ∨ (r = Undefined ∧ add_overflows T))
       ∧ (add_total T →
          ∃ d, r = Return d ∧ Z.of_nat (length d) = numVertices tree)).
Proof.
  split.
  - destruct HG as (HN & _ & _).
    unfold pathLengthsFromRoot, size. rewrite vector_new_Return by done.
    simpl. intros Hout. rewrite vector_set_outside; [done|].
    rewrite length_replicate. lia.
  - intros Hroot r Hrun.
    destruct (pathLengthsFromRoot_Return fuel r Hroot Hrun)
      as [[-> (a & b & Hab)] | (d & -> & Hlen)].
    + split; [right; split; [done|by exists a, b]|].
      intros Htotal. destruct (Htotal a b) as [? ?]. congruence.
    + split; [left|intros _]; by exists d.
Qed.

(** X15: in the vector that [pathLengthsFromRoot] returns, only the ends
    of edges that leave a vertex reached from [root] can differ from the
    initial values: every other vertex has [numeric_limits<T>::max()], or 0
    if it is [root]; so a vertex that [root] does not reach has
    [numeric_limits<T>::max()], whatever the weight type. *)
Theorem pathLengthsFromRoot_writes_only_reached (fuel : nat) d :
  0 ≤ root < numVertices tree →
  pathLengthsFromRoot fuel tree root = Some (Return d) →
  (∀ x, 0 ≤ x < numVertices tree →
     (∀ u, reachable tree root u → ¬ has_edge tree u x) →
     d !! Z.to_nat x = Some (if decide (x = root) then zero else limits_max))
  ∧ (∀ x, 0 ≤ x < numVertices tree → ¬ reachable tree root x →
       d !! Z.to_nat x = Some limits_max).
Proof.
  intros Hroot. unfold pathLengthsFromRoot, size.
  rewrite vector_new_Return by lia. simpl.
  set (d0 := replicate (Z.to_nat (numVertices tree)) limits_max).
  assert (Z.of_nat (length d0) = numVertices tree) as Hlen0
    by (unfold d0; rewrite length_replicate; lia).
  assert (vector_set d0 root zero = Return (<[Z.to_nat root := zero]> d0))
    as -> by (apply vector_set_Return; split; [lia|done]).
  intros Hrun.
  assert (∀ x, 0 ≤ x < numVertices tree →
    (∀ u, reachable tree root u → ¬ has_edge tree u x) →
    d !! Z.to_nat x = Some (if decide (x = root) then zero else limits_max))
    as Hmain.
  { intros x Hx Hno.
    rewrite (relax_loop_untouched fuel (<[Z.to_nat root := zero]> d0)
               [root] d Hroot); [| |..|done|lia|done].
    - case_decide as Hxr.
      + subst x. apply list_lookup_insert_eq. lia.
      + rewrite list_lookup_insert_ne by lia.
        apply lookup_replicate. split; [done|lia].
    - by rewrite length_insert.
    - intros y ->%list_elem_of_singleton. apply rtc_refl. }
  split; [done|]. intros x Hx Hnr.
  rewrite Hmain; [|done|].
  - rewrite decide_False; [done|]. intros ->. apply Hnr, rtc_refl.
  - intros u Hu He. apply Hnr. by eapply rtc_r.
Qed.

(** X16: on a graph that [isTreePlusIsolated] accepts for [root],
    [pathLengthsFromRoot] leaves the distance of [root] at 0: no edge from
    a reached vertex leads back to [root]. *)
Theorem pathLengthsFromRoot_root_zero_on_tree (fuel fuel' : nat) d :
  0 ≤ root < numVertices tree →
  isTreePlusIsolated fuel' tree root = Some (Return true) →
  pathLengthsFromRoot fuel tree root = Some (Return d) →
  d !! Z.to_nat root = Some zero.
Proof.
  intros Hroot Htree Hrun.
  destruct (isTreePlusIsolated_verdict tree root HG Hroot)
    as (b & Hb & Hrev & _).
  assert (b = true) as ->.
  { specialize (Hb _ (Nat.le_refl _)).
    by injection (isTreePlusIsolated_deterministic _ _ _ _ _ _ Htree Hb). }
  unfold pathLengthsFromRoot, size in Hrun.
  rewrite vector_new_Return in Hrun by lia. simpl in Hrun.
  set (d0 := replicate (Z.to_nat (numVertices tree)) limits_max) in *.
  assert (Z.of_nat (length d0) = numVertices tree) as Hlen0
    by (unfold d0; rewrite length_replicate; lia).
  assert (vector_set d0 root zero = Return (<[Z.to_nat root := zero]> d0))
    as Hset by (apply vector_set_Return; split; [lia|done]).
  rewrite Hset in Hrun.
  rewrite (relax_loop_untouched fuel (<[Z.to_nat root := zero]> d0)
             [root] d Hroot); [| |..|done|lia|].
  - apply list_lookup_insert_eq. lia.
  - by rewrite length_insert.
  - intros y ->%list_elem_of_singleton. apply rtc_refl.
  - intros u Hu He. enough (true = false) by done. apply Hrev.
    exists u, root. split_and!; [done..|by left].
Qed.
End DistanceLaws.

Lemma pathLengthsFromRoot_outcome_witness :
  pathLengthsFromRoot 0 Examples.scenario_G 4 = Some (Throw out_of_range)
  ∧ ((∃ d, Return [0; 1; 3; 4] = Return d
           ∧ Z.of_nat (length d) = numVertices Examples.scenario_T)
     ∨ (Return [0; 1; 3; 4] = Undefined ∧ add_overflows Z))
  ∧ ((∃ d : list Z, Undefined = Return d
           ∧ Z.of_nat (length d) = numVertices Examples.negative_loop)
     ∨ (@Undefined (list Z) = Undefined ∧ add_overflows Z)).
Proof.
  assert (graph_wf Examples.negative_loop) as HN
    by (by apply (Graph_from_wf 1 [(0, 0, - 2 ^ 30)])).
  split_and!.
  - apply (pathLengthsFromRoot_outcome Examples.scenario_G 4 scenario_G_wf).
    vm_compute. by intros [_ H].
  - apply (pathLengthsFromRoot_outcome Examples.scenario_T 0 scenario_T_wf 4);
      [by vm_compute|reflexivity].
  - apply (pathLengthsFromRoot_outcome Examples.negative_loop 0 HN 3);
      [by vm_compute|reflexivity].
Defined.

Lemma pathLengthsFromRoot_writes_only_reached_witness :
  (∀ x, 0 ≤ x < numVertices Examples.one_edge →
     (∀ u, reachable Examples.one_edge 1 u →
           ¬ has_edge Examples.one_edge u x) →
     [Int.max_value; 0] !! Z.to_nat x
     = Some (if decide (x = 1) then zero else limits_max))
  ∧ (∀ x, 0 ≤ x < numVertices Examples.one_edge →
       ¬ reachable Examples.one_edge 1 x →
       [Int.max_value; 0] !! Z.to_nat x = Some limits_max).
Proof.
  apply (pathLengthsFromRoot_writes_only_reached Examples.one_edge 1
           (Graph_from_wf 2 [(0, 1, 3)] _ eq_refl) 1);
    [by vm_compute|reflexivity].
Defined.

Lemma pathLengthsFromRoot_root_zero_on_tree_witness :
  [0; 1; 3; 4] !! Z.to_nat 0 = Some zero.
Proof.
  apply (pathLengthsFromRoot_root_zero_on_tree Examples.scenario_T 0
           scenario_T_wf 4 4); [by vm_compute|reflexivity|reflexivity].
Defined.

(** ** [pathLengthsFromRoot] ends in a fixed point *)

Section FixedPoint.
Context {T : Type} {NT : Numeric T}.
Context (lt_irrefl : ∀ x : T, ltb x x = false).
Context (lt_trans : ∀ x y z : T,
  ltb x y = true → ltb y z = true → ltb x z = true).
Context (tree : Graph T) (root : Z) (HG : graph_wf tree).
Implicit Types (d : list T) (q : list Z).

(** A settled edge stays settled when the distance of another vertex than
    its origin gets smaller. *)
Lemma edge_settled_decrease d x y weight (v : nat) old new :
  Z.to_nat x ≠ v → d !! v = Some old → ltb new old = true →
  edge_settled d x y weight →
  edge_settled (<[v := new]> d) x y weight.
Proof.
  intros Hxv Hold Hlt Hok dx dy Hdx Hdy.
  rewrite list_lookup_insert_ne in Hdx by done.
  destruct (decide (Z.to_nat y = v)) as [<-|Hyv].
  - rewrite list_lookup_insert_eq in Hdy by (by eapply lookup_lt_Some).
    injection Hdy as <-.
    destruct (Hok dx old Hdx Hold) as (sum & Hsum & Hgt).
    exists sum. split; [done|].
    unfold gtb in *. destruct (ltb sum new) eqn:E; [|done].
    by rewrite (lt_trans _ _ _ E Hlt) in Hgt.
  - rewrite list_lookup_insert_ne in Hdy by done. by apply Hok.
Qed.

(** One edge of the current vertex [u]. *)
Lemma relax_edge_settles u (e : Z * T) (past : list (Z * T)) d q d' q' :
  0 ≤ u < Z.of_nat (length d) → 0 ≤ e.1 < Z.of_nat (length d) →
  (∀ x, 0 ≤ x < numVertices tree → x ≠ u → vertex_settled tree d q x) →
  (u ∈ q ∨ ∀ e', e' ∈ past → edge_settled d u e'.1 e'.2) →
  relax_edge u e (d, q) = Return (Next (d', q')) →
  (∀ x, 0 ≤ x < numVertices tree → x ≠ u → vertex_settled tree d' q' x)
  ∧ (u ∈ q' ∨ ∀ e', e' ∈ past ++ [e] → edge_settled d' u e'.1 e'.2).
Proof.
  intros Hu Hv Hothers Hcur. unfold relax_edge, plus. simpl.
  destruct (vector_at_inside d e.1 Hv) as [dv Hdv].
  destruct (vector_at_inside d u Hu) as [du Hdu].
  rewrite Hdv, Hdu. simpl.
  apply vector_at_Return in Hdv as [_ Hdv].
  apply vector_at_Return in Hdu as [_ Hdu].
  destruct (add du e.2) as [sum|] eqn:Hsum; [simpl|done].
  destruct (gtb dv sum) eqn:Hgt.
  - assert (vector_set d e.1 sum = Return (<[Z.to_nat e.1 := sum]> d)) as ->
      by (by apply vector_set_Return).
    simpl. intros [= <- <-]. split.
    + intros x Hx Hxu. destruct (decide (x = e.1)) as [->|Hxv].
      { left. apply elem_of_app. right. by left. }
      destruct (Hothers x Hx Hxu) as [Hq | [Hmax | Hset]].
      * left. apply elem_of_app. by left.
      * right. left. rewrite list_lookup_insert_ne by lia. done.
      * right. right. intros y w He.
        eapply edge_settled_decrease; [lia|done|done|by apply Hset].
    + destruct (decide (u = e.1)) as [Hue|Hue].
      { left. apply elem_of_app. right. rewrite Hue. by left. }
      destruct Hcur as [Hq | Hdone]; [left; apply elem_of_app; by left|].
      right. intros e' [He' | ->%list_elem_of_singleton]%elem_of_app.
      * eapply edge_settled_decrease; [lia|done|done|by apply Hdone].
      * intros du' dv' Hdu' Hdv'.
        rewrite list_lookup_insert_ne in Hdu' by lia.
        rewrite list_lookup_insert_eq in Hdv' by (by eapply lookup_lt_Some).
        assert (du' = du) as -> by congruence. injection Hdv' as <-.
        exists sum. split; [done|]. unfold gtb. apply lt_irrefl.
  - intros [= <- <-]. split; [done|].
    destruct Hcur as [Hq | Hdone]; [by left|right].
    intros e' [He' | ->%list_elem_of_singleton]%elem_of_app;
      [by apply Hdone|].
    intros du' dv' Hdu' Hdv'. exists sum. split; congruence.
Qed.

(** All edges of the current vertex. *)
Lemma relax_edges_settle u (l past : list (Z * T)) d q d' q' :
  0 ≤ u < Z.of_nat (length d) →
  (∀ e, e ∈ l → 0 ≤ e.1 < Z.of_nat (length d)) →
  (∀ x, 0 ≤ x < numVertices tree → x ≠ u → vertex_settled tree d q x) →
  (u ∈ q ∨ ∀ e', e' ∈ past → edge_settled d u e'.1 e'.2) →
  for_each (relax_edge u) l (d, q) = Return (Next (d', q')) →
  (∀ x, 0 ≤ x < numVertices tree → x ≠ u → vertex_settled tree d' q' x)
  ∧ (u ∈ q' ∨ ∀ e', e' ∈ past ++ l → edge_settled d' u e'.1 e'.2).
Proof.
  revert past d q. induction l as [|e l IH]; intros past d q Hu Hl Ho Hc.
  - simpl. intros [= <- <-]. by rewrite app_nil_r.
  - rewrite for_each_cons.
    destruct (relax_edge_spec u e d q)
      as [[-> _] | (d1 & q1 & He & Hcase)];
      [done|apply Hl; by left|done|].
    rewrite He. simpl. intros Hrest.
    assert (length d1 = length d) as Hlen1.
    { destruct Hcase as [[-> _] | (Hlt & _)]; [done|].
      by apply dist_lt_length. }
    destruct (relax_edge_settles u e past d q d1 q1) as [Ho1 Hc1];
      [done|apply Hl; by left|done..|].
    rewrite cons_middle, app_assoc.
    apply (IH (past ++ [e]) d1 q1); [by rewrite Hlen1| |done..].
    intros e' He'. rewrite Hlen1. apply Hl. by right.
Qed.

(** The [while] loop. *)
Lemma relax_loop_settles (fuel : nat) d q d' :
  Z.of_nat (length d) = size tree →
  (∀ x, x ∈ q → 0 ≤ x < size tree) →
  (∀ x, 0 ≤ x < numVertices tree → vertex_settled tree d q x) →
  relax_loop fuel tree d q = Some (Return d') →
  ∀ x, 0 ≤ x < numVertices tree → vertex_settled tree d' [] x.
Proof.
  revert d q. induction fuel as [|fuel IH]; intros d [|u q] Hlen Hq Hinv;
    simpl; try done.
  - by intros [= <-].
  - by intros [= <-].
  - assert (0 ≤ u < size tree) as Hu by (apply Hq; by left).
    destruct (relax_vertex_spec tree u d q HG Hlen Hu)
      as [[-> _] | (d1 & q1 & Hstep & Hlen1 & Hq1 & _ & _)]; [done|].
    rewrite Hstep. intros Hrun.
    apply (IH d1 q1); [lia| | |done].
    + intros x [Hx | He]%Hq1; [apply Hq; by right|].
      by apply (has_edge_range tree _ _ HG) in He as [_ ?].
    + unfold relax_vertex in Hstep.
      destruct (neighbours_vertex tree u HG Hu) as [m Hm].
      rewrite Hm in Hstep. simpl in Hstep.
      pose proof Hm as [_ Hlook]%neighbours_Return.
      destruct (relax_edges_settle u (map_to_list m) [] d q d1 q1)
        as [Ho Hc]; [unfold size in *; lia| | | |done|].
      * intros [v w] Hvw%elem_of_map_to_list.
        destruct HG as (_ & _ & Hkeys). unfold size in *.
        pose proof (Hkeys _ _ _ _ Hlook Hvw). simpl. lia.
      * intros x Hx Hxu. destruct (Hinv x Hx) as [Hin | Hrest];
          [|by right].
        left. apply elem_of_cons in Hin as [->|Hin]; done.
      * right. intros e' He'. by apply elem_of_nil in He'.
      * intros x Hx. destruct (decide (x = u)) as [->|Hxu]; [|by apply Ho].
        destruct Hc as [Hin | Hall]; [by left|]. right. right.
        intros v w (_ & m' & Hm' & Hw). assert (m' = m) as -> by congruence.
        apply (Hall (v, w)). by apply elem_of_map_to_list.
Qed.

(** The vector that [pathLengthsFromRoot] returns: a vertex has the
    distance [numeric_limits<T>::max()], or each of its edges is
    settled. *)
Lemma pathLengthsFromRoot_settled (fuel : nat) d :
  0 ≤ root < numVertices tree →
  pathLengthsFromRoot fuel tree root = Some (Return d) →
  ∀ u v weight du dv, edge tree u v weight →
    d !! Z.to_nat u = Some du → d !! Z.to_nat v = Some dv →
    du = limits_max ∨ ∃ sum, add du weight = Some sum ∧ gtb dv sum = false.
Proof.
  intros Hroot. unfold pathLengthsFromRoot, size.
  rewrite vector_new_Return by lia. simpl.
  set (d0 := replicate (Z.to_nat (numVertices tree)) limits_max).
  assert (Z.of_nat (length d0) = numVertices tree) as Hlen0
    by (unfold d0; rewrite length_replicate; lia).
  assert (vector_set d0 root zero = Return (<[Z.to_nat root := zero]> d0))
    as -> by (apply vector_set_Return; split; [lia|done]).
  intros Hrun u v weight du dv He Hdu Hdv.
  assert (0 ≤ u < numVertices tree) as Hu.
  { assert (has_edge tree u v) as Huv by (by exists weight).
    by apply (has_edge_range tree _ _ HG) in Huv as [? _]. }
  destruct (relax_loop_settles fuel (<[Z.to_nat root := zero]> d0) [root] d)
    with (x := u) as [Hin | [Hmax | Hset]]; try done.
  - by rewrite length_insert.
  - by intros x ->%list_elem_of_singleton.
  - intros x Hx. destruct (decide (x = root)) as [->|Hne]; [left; by left|].
    right. left. rewrite list_lookup_insert_ne by lia.
    apply lookup_replicate. split; [done|lia].
  - by apply elem_of_nil in Hin.
  - left. congruence.
  - right. by eapply Hset.
Qed.

(** X17: the vector that [pathLengthsFromRoot] returns is a fixed point of
    its own test, on every graph: for an edge from [u] to [v], [u] has the
    distance [numeric_limits<T>::max()], or the sum of the distance of [u]
    and the weight is defined and the distance of [v] is not above it.  So
    for a weight type without a native infinity the vector passes
    [allEdgesRelaxed] on the same graph whenever the distance of [root] is
    still 0.  The order [<] of the weights is irreflexive and
    transitive. *)
Theorem pathLengthsFromRoot_fixed_point (fuel : nat) d :
  0 ≤ root < numVertices tree →
  pathLengthsFromRoot fuel tree root = Some (Return d) →
  (∀ u v weight du dv, edge tree u v weight →
     d !! Z.to_nat u = Some du → d !! Z.to_nat v = Some dv →
     du = limits_max
     ∨ ∃ sum, add du weight = Some sum ∧ gtb dv sum = false)
  ∧ (has_infinity = false → eqb (limits_max : T) limits_max = true →
     (∃ dr, d !! Z.to_nat root = Some dr ∧ eqb dr zero = true) →
     allEdgesRelaxed d tree root = Return true).
Proof.
  intros Hroot Hrun.
  pose proof (pathLengthsFromRoot_settled fuel d Hroot Hrun) as Hfix.
  split; [done|]. intros Hno Hmax (dr & Hdr & Hzero).
  pose proof (pathLengthsFromRoot_length tree root HG fuel d Hroot Hrun)
    as Hlen.
  apply allEdgesRelaxed_true_iff; [done|done| |].
  { exists dr. split; [|done]. apply vector_at_Return. split; [lia|done]. }
  intros u v weight He du dv Hdu Hdv Hinf.
  destruct (Hfix u v weight du dv He Hdu Hdv) as [-> | (sum & Hsum & Hgt)].
  - unfold neqb, infinity in Hinf. rewrite Hno, Hmax in Hinf. done.
  - exists sum. split; [done|]. unfold leb. by rewrite Hgt.
Qed.
End FixedPoint.

Lemma int_ltb_irrefl (x : Z) : ltb x x = false.
Proof. simpl. unfold Int.ltb. apply Z.ltb_irrefl. Qed.

Lemma int_ltb_trans (x y z : Z) :
  ltb x y = true → ltb y z = true → ltb x z = true.
Proof.
  simpl. unfold Int.ltb. intros Hxy%Z.ltb_lt Hyz%Z.ltb_lt.
  apply Z.ltb_lt. lia.
Qed.

Lemma pathLengthsFromRoot_fixed_point_witness :
  (∀ u v weight du dv, edge Examples.scenario_G u v weight →
     [0; 1; 3; 4] !! Z.to_nat u = Some du →
     [0; 1; 3; 4] !! Z.to_nat v = Some dv →
     du = limits_max
     ∨ ∃ sum, add du weight = Some sum ∧ gtb dv sum = false)
  ∧ allEdgesRelaxed [0; 1; 3; 4] Examples.scenario_G 0 = Return true.
Proof.
  destruct (pathLengthsFromRoot_fixed_point int_ltb_irrefl int_ltb_trans
              Examples.scenario_G 0 scenario_G_wf 6 [0; 1; 3; 4])
    as [Hfix Hcheck]; [by vm_compute|reflexivity|].
  split; [done|]. apply Hcheck; [reflexivity|reflexivity|].
  exists 0. by split.
Defined.

(** ** What [isTreePlusIsolated] accepts *)

Section TreeAccepted.
Context {T : Type} {NT : Numeric T}.
Context (G : Graph T) (root : Z).
Context (HG : graph_wf G) (Hroot : 0 ≤ root < numVertices G).

(** On a graph that is accepted the traversal ran to its end, and its
    marks tell which vertices [root] reaches. *)
Lemma accepted_reachable_dec (fuel : nat) :
  isTreePlusIsolated fuel G root = Some (Return true) →
  ∀ v, reachable G root v ∨ ¬ reachable G root v.
Proof.
  intros Hyes v.
  destruct (isTreePlusIsolated_verdict G root HG Hroot)
    as (b & Hb & Hrev & _).
  specialize (Hb _ (Nat.le_refl _)).
  assert (b = true) as ->
    by (by injection (isTreePlusIsolated_deterministic _ _ _ _ _ _ Hyes Hb)).
  destruct (visit_loop_spec G root HG Hroot (Z.to_nat (numVertices G)) []
              _ [root] (visit_inv_init G root Hroot))
    as [[_ Hre] | (P' & marked' & _ & Hinv)]; [simpl; lia|..].
  - by specialize (Hrev Hre).
  - destruct (visit_inv_final G root _ _ _ Hinv) as [Hmarked _].
    destruct (decide (0 ≤ v)) as [Hv|Hv].
    + destruct (marked' !! Z.to_nat v) as [[]|] eqn:E.
      * left. by apply Hmarked.
      * right. intros [_ ?]%Hmarked. congruence.
      * right. intros [_ ?]%Hmarked. congruence.
    + right. by intros [? _]%Hmarked.
Qed.

(** A graph that is accepted is a tree plus isolated vertices. *)
Lemma accepted_is_tree (fuel : nat) :
  isTreePlusIsolated fuel G root = Some (Return true) →
  tree_plus_isolated G root.
Proof.
  intros Hyes. pose proof (accepted_reachable_dec fuel Hyes) as Hdec.
  destruct (isTreePlusIsolated_verdict G root HG Hroot)
    as (b & Hb & Hrev & Hun & _).
  specialize (Hb _ (Nat.le_refl _)).
  assert (b = true) as ->
    by (by injection (isTreePlusIsolated_deterministic _ _ _ _ _ _ Hyes Hb)).
  assert (∀ u v, has_edge G u v → reachable G root u) as Hsrc.
  { intros u v He. destruct (Hdec u) as [?|Hnr]; [done|].
    enough (true = false) by done. apply Hun. exists u, v.
    pose proof (has_edge_range G _ _ HG He) as [? _].
    split_and!; [lia|lia|done|done]. }
  split_and!; [done| |].
  - intros u He. enough (true = false) by done. apply Hrev.
    exists u, root. split_and!; [by eapply Hsrc|done|by left].
  - intros u u' v He He'. destruct (decide (u = u')) as [|Hne]; [done|].
    enough (true = false) by done. apply Hrev. exists u, v.
    split_and!; [by eapply Hsrc|done|]. right. exists u'.
    split_and!; [done|by eapply Hsrc|done].
Qed.

(** X18: with fuel for one loop turn per vertex, [isTreePlusIsolated(G,
    root)] is true exactly when [G] is a tree with the root [root] plus
    isolated vertices: every edge leaves a vertex that [root] reaches, no
    edge leads to [root], and no vertex has two incoming edges. *)
Theorem isTreePlusIsolated_accepts_trees (fuel : nat) :
  (Z.to_nat (numVertices G) ≤ fuel)%nat →
  isTreePlusIsolated fuel G root = Some (Return true) ↔
  tree_plus_isolated G root.
Proof.
  intros Hfuel. split; [apply accepted_is_tree|].
  intros (Hsrc & Hnoroot & Huniq).
  destruct (isTreePlusIsolated_verdict G root HG Hroot)
    as (b & Hb & _ & _ & Htrue).
  rewrite (Hb fuel Hfuel). f_equal. f_equal. apply Htrue.
  - intros (u & v & _ & He & [-> | (u' & Hne & _ & He')]).
    + by apply (Hnoroot u).
    + apply Hne. by eapply Huniq.
  - intros (v & w & _ & Hnr & He). apply Hnr. by eapply Hsrc.
Qed.
End TreeAccepted.

Lemma isTreePlusIsolated_accepts_trees_witness :
  isTreePlusIsolated 4 Examples.scenario_T 0 = Some (Return true) ↔
  tree_plus_isolated Examples.scenario_T 0.
Proof.
  apply (isTreePlusIsolated_accepts_trees Examples.scenario_T 0
           scenario_T_wf); [by vm_compute|vm_compute; lia].
Defined.

(** ** [pathLengthsFromRoot] on a tree *)

Section TreeDistances.
Context {T : Type} {NT : Numeric T}.
Context (G : Graph T) (root : Z).
Context (HG : graph_wf G) (Hroot : 0 ≤ root < numVertices G).
Context (Htree : tree_plus_isolated G root).
Implicit Types (P q todo : list Z) (d : list T) (u v : Z).

(** The state in which the loop is entered. *)
Lemma relax_inv_init :
  relax_inv G root [] None []
    (<[Z.to_nat root := zero]>
       (replicate (Z.to_nat (numVertices G)) limits_max))
    [root].
Proof.
  split.
  - rewrite length_insert, length_replicate. lia.
  - apply NoDup_singleton.
  - by intros x ->%list_elem_of_singleton.
  - by apply list_elem_of_singleton.
  - by intros x ->%list_elem_of_singleton.
  - intros x Hx Hnot. rewrite list_lookup_insert_ne.
    + apply lookup_replicate. split; [done|lia].
    + intros Heq. apply Hnot, list_elem_of_singleton. lia.
  - intros p v w dp Hp. by apply elem_of_nil in Hp.
  - done.
  - done.
  - apply list_lookup_insert_eq. rewrite length_replicate. lia.
Qed.

(** A vertex is popped. *)
Lemma relax_inv_pop P todo d q u m :
  neighbours G u = Return m →
  relax_inv G root P None todo d (u :: q) →
  relax_inv G root P (Some u) (map_to_list m).*1 d q.
Proof.
  intros Hm [Hlen Hnd Hrange Hr Hpar Hfresh Hch _ _ Hzero].
  split; try done.
  - intros x Hx Hne. destruct (Hpar x Hx Hne) as [?|(?&?&_)]; [by left|done].
  - intros u' v w du [= ->] He Hv.
    destruct Hv. apply (has_edge_neighbours G u' m v Hm). by exists w.
  - intros u' [= ->]. split; [apply NoDup_fst_map_to_list|].
    intros v Hv. by apply (has_edge_neighbours G u' m v).
Qed.

(** The edges of the current vertex are all followed. *)
Lemma relax_inv_done P d q u :
  relax_inv G root P (Some u) [] d q →
  relax_inv G root (P ++ [u]) None [] d q.
Proof.
  intros [Hlen Hnd Hrange Hr Hpar Hfresh Hch Hcur Htodo Hzero].
  assert (seen (P ++ [u]) None q = seen P (Some u) q) as Heq
    by (unfold seen; simpl; by rewrite <- app_assoc).
  split; rewrite ?Heq; try done.
  - intros x Hx Hne. left.
    destruct (Hpar x Hx Hne) as [(p & Hp & He) | (u' & [= <-] & He & _)].
    + exists p. split; [apply elem_of_app; by left|done].
    + exists u. split; [apply elem_of_app; right; by left|done].
  - intros p v w dp [Hp | ->%list_elem_of_singleton]%elem_of_app He Hdp.
    + by eapply Hch.
    + eapply Hcur; [done..|apply not_elem_of_nil|done].
Qed.

(** There are no more vertices seen than vertices. *)
Lemma relax_inv_bound P cur todo d q :
  relax_inv G root P cur todo d q →
  (length P + length (option_list cur) + length q ≤
   Z.to_nat (numVertices G))%nat.
Proof.
  intros [_ Hnd Hrange _ _ _ _ _ _ _].
  assert (seen P cur q ⊆+ seqZ 0 (numVertices G)) as Hsub.
  { apply NoDup_submseteq; [done|]. intros x Hx%Hrange.
    apply elem_of_seqZ. lia. }
  apply submseteq_length in Hsub. rewrite length_seqZ in Hsub.
  unfold seen in Hsub. rewrite !length_app in Hsub. lia.
Qed.

(** One edge of the current vertex: its end was not seen before, so it has
    [numeric_limits<T>::max()] and gets [child_distance], unless the sum
    overflows. *)
Lemma relax_edge_on_tree P todo d q u v weight :
  relax_inv G root P (Some u) (v :: todo) d q →
  edge G u v weight →
  (relax_edge u (v, weight) (d, q) = Undefined ∧ tree_overflow G root)
  ∨ ∃ d' q', relax_edge u (v, weight) (d, q) = Return (Next (d', q'))
             ∧ relax_inv G root P (Some u) todo d' q'.
Proof.
  intros Hinv He. pose proof Hinv as Hinv0.
  destruct Hinv as [Hlen Hnd Hrange Hr Hpar Hfresh Hch Hcur Htodo Hzero].
  destruct Htree as (_ & Hnoroot & Huniq).
  destruct (Htodo u eq_refl) as [Hndt Hedges].
  apply NoDup_cons in Hndt as [Hvt Hndt].
  assert (has_edge G u v) as Huv by (by exists weight).
  destruct (has_edge_range G u v HG Huv) as [Hur Hvr].
  assert (v ≠ root) as Hvroot by (intros ->; by apply (Hnoroot u)).
  assert (u ∈ seen P (Some u) q) as Hus
    by (rewrite (elem_of_seen G root Hroot); right; by left).
  assert (u ∉ P) as HuP.
  { unfold seen in Hnd. simpl in Hnd.
    apply NoDup_app in Hnd as (_ & Hd & _). intros Hu.
    apply (Hd u Hu). by left. }
  assert (v ∉ seen P (Some u) q) as Hvs.
  { intros Hin.
    destruct (Hpar v Hin Hvroot) as [(p & Hp & Hpv) | (u' & _ & _ & Hnot)].
    - by rewrite (Huniq p u v Hpv Huv) in Hp.
    - apply Hnot. by left. }
  assert (u ≠ v) as Hne by (intros ->; done).
  pose proof (Hfresh v Hvr Hvs) as Hdv.
  destruct (lookup_lt_is_Some_2 d (Z.to_nat u)) as [du Hdu]; [lia|].
  unfold relax_edge, plus. simpl.
  assert (vector_at d v = Return limits_max) as ->
    by (apply vector_at_Return; split; [lia|done]).
  assert (vector_at d u = Return du) as ->
    by (apply vector_at_Return; split; [lia|done]).
  simpl. destruct (add du weight) as [sum|] eqn:Hsum; simpl;
    [right|left; split; [done|by exists P, todo, d, q, u, v, weight, du]].
  assert (∀ x, x ∈ v :: todo → x ≠ v → x ∈ todo) as Htail
    by (by intros x [?|?]%elem_of_cons).
  destruct (gtb limits_max sum) eqn:Hgt.
  - assert (vector_set d v sum = Return (<[Z.to_nat v := sum]> d)) as ->
      by (apply vector_set_Return; split; [lia|done]).
    simpl. do 2 eexists. split; [done|].
    assert (seen P (Some u) (q ++ [v]) = seen P (Some u) q ++ [v]) as Heq
      by (unfold seen; by rewrite !app_assoc).
    assert (∀ x, x ∈ seen P (Some u) q →
      <[Z.to_nat v := sum]> d !! Z.to_nat x = d !! Z.to_nat x) as Hsame.
    { intros x Hx. apply list_lookup_insert_ne.
      pose proof (Hrange x Hx). intros Hxv.
      assert (x = v) as -> by lia. done. }
    split; rewrite ?Heq.
    + by rewrite length_insert.
    + apply NoDup_app. split_and!; [done| |apply NoDup_singleton].
      intros x Hx ->%list_elem_of_singleton. done.
    + intros x [Hx | ->%list_elem_of_singleton]%elem_of_app; [eauto|done].
    + apply elem_of_app. by left.
    + intros x [Hx | ->%list_elem_of_singleton]%elem_of_app Hxr.
      * destruct (Hpar x Hx Hxr) as [? | (u' & Hu' & He' & Hxt)];
          [by left|].
        right. exists u'. split_and!; [done..|].
        intros Hin. apply Hxt. by right.
      * right. by exists u.
    + intros x Hx Hnot. apply not_elem_of_app in Hnot as [Hnot Hxv].
      rewrite list_lookup_insert_ne; [by apply Hfresh|].
      intros Heq'. apply Hxv, list_elem_of_singleton. lia.
    + intros p c w dp Hp Hpc Hdp.
      assert (p ∈ seen P (Some u) q) as Hps
        by (rewrite (elem_of_seen G root Hroot); by left).
      rewrite Hsame in Hdp by done.
      assert (c ≠ v) as Hcv.
      { intros ->. assert (has_edge G p v) as Hpv by (by exists w).
        by rewrite (Huniq p u v Hpv Huv) in Hp. }
      destruct (Hch p c w dp Hp Hpc Hdp) as (s & Hs & Hdc & Hiff).
      assert (has_edge G p c) as Hpc' by (by exists w).
      destruct (has_edge_range G p c HG Hpc') as [_ Hcr].
      exists s. split_and!; [done| |].
      * rewrite list_lookup_insert_ne by lia. done.
      * rewrite <- Hiff, elem_of_app, list_elem_of_singleton. tauto.
    + intros u' c w du' [= <-] Huc Hct Hdu'.
      rewrite Hsame in Hdu' by done.
      assert (du' = du) as -> by congruence.
      destruct (decide (c = v)) as [->|Hcv].
      * rewrite (edge_functional G u v w weight Huc He).
        exists sum. split_and!; [done| |].
        -- rewrite list_lookup_insert_eq by lia. unfold child_distance.
           by rewrite Hgt.
        -- rewrite Hgt. split; [done|]. intros _. apply elem_of_app.
           right. by left.
      * destruct (Hcur u c w du eq_refl Huc) as (s & Hs & Hdc & Hiff);
          [by intros ?%Htail|done|].
        assert (has_edge G u c) as Huc' by (by exists w).
        destruct (has_edge_range G u c HG Huc') as [_ Hcr].
        exists s. split_and!; [done| |].
        -- rewrite list_lookup_insert_ne by lia. done.
        -- rewrite <- Hiff, elem_of_app, list_elem_of_singleton. tauto.
    + intros u' [= <-]. split; [done|]. intros x Hx. apply Hedges.
      by right.
    + rewrite list_lookup_insert_ne by lia. done.
  - do 2 eexists. split; [done|]. split; try done.
    + intros x Hx Hxr.
      destruct (Hpar x Hx Hxr) as [? | (u' & Hu' & He' & Hxt)]; [by left|].
      right. exists u'. split_and!; [done..|].
      intros Hin. apply Hxt. by right.
    + intros u' c w du' [= <-] Huc Hct Hdu'.
      assert (du' = du) as -> by congruence.
      destruct (decide (c = v)) as [->|Hcv].
      * rewrite (edge_functional G u v w weight Huc He).
        exists sum. split_and!; [done| |].
        -- rewrite Hdv. unfold child_distance. by rewrite Hgt.
        -- by rewrite Hgt.
      * apply (Hcur u c w du eq_refl Huc); [|done]. by intros ?%Htail.
    + intros u' [= <-]. split; [done|]. intros x Hx. apply Hedges.
      by right.
Qed.

(** The [for] loop over the edges of the current vertex. *)
Lemma relax_edges_on_tree (l : list (Z * T)) P d q u :
  (∀ e, e ∈ l → edge G u e.1 e.2) →
  relax_inv G root P (Some u) l.*1 d q →
  (for_each (relax_edge u) l (d, q) = Undefined ∧ tree_overflow G root)
  ∨ ∃ d' q', for_each (relax_edge u) l (d, q) = Return (Next (d', q'))
             ∧ relax_inv G root P (Some u) [] d' q'.
Proof.
  revert d q. induction l as [|[v w] l IH]; intros d q Hl Hinv.
  - right. by exists d, q.
  - simpl in Hinv. rewrite for_each_cons.
    destruct (relax_edge_on_tree P (l.*1) d q u v w Hinv)
      as [[-> Hover] | (d1 & q1 & -> & Hinv1)];
      [apply (Hl (v, w)); by left|by left|].
    simpl. apply IH; [|done]. intros e He. apply Hl. by right.
Qed.

(** The [while] loop: one turn per vertex popped, each vertex once. *)
Lemma relax_loop_on_tree (fuel : nat) P d q :
  relax_inv G root P None [] d q →
  (Z.to_nat (numVertices G) ≤ fuel + length P)%nat →
  ∃ r, relax_loop fuel G d q = Some r
       ∧ ((r = Undefined ∧ tree_overflow G root)
          ∨ ∃ P' d', r = Return d' ∧ relax_inv G root P' None [] d' []).
Proof.
  revert P d q.
  induction fuel as [|fuel IH]; intros P d [|u q] Hinv Hfuel.
  - exists (Return d). split; [done|]. right. by exists P, d.
  - apply relax_inv_bound in Hinv. simpl in *. lia.
  - exists (Return d). split; [done|]. right. by exists P, d.
  - simpl. unfold relax_vertex.
    destruct (neighbours_vertex G u HG) as [m Hm].
    { apply (rinv_range _ _ _ _ _ _ _ Hinv).
      rewrite (elem_of_seen G root Hroot). right. right. by left. }
    rewrite Hm. simpl.
    destruct (relax_edges_on_tree (map_to_list m) P d q u)
      as [[-> Hover] | (d' & q' & -> & Hinv')].
    + intros [v w] Hvw%elem_of_map_to_list.
      apply neighbours_Return in Hm as [Hu Hm]. split; [done|eauto].
    + by eapply relax_inv_pop.
    + exists Undefined. split; [done|by left].
    + apply (IH (P ++ [u])); [by apply relax_inv_done|].
      rewrite length_app. simpl. lia.
Qed.

(** The call on a tree, with one unit of fuel per vertex. *)
Lemma pathLengthsFromRoot_tree_result (fuel : nat) :
  (Z.to_nat (numVertices G) ≤ fuel)%nat →
  ∃ r, pathLengthsFromRoot fuel G root = Some r
       ∧ ((r = Undefined ∧ tree_overflow G root)
          ∨ ∃ P d, r = Return d ∧ relax_inv G root P None [] d []).
Proof.
  intros Hfuel. unfold pathLengthsFromRoot, size.
  rewrite vector_new_Return by lia. simpl.
  assert (vector_set (replicate (Z.to_nat (numVertices G)) limits_max)
            root zero
          = Return (<[Z.to_nat root := zero]>
                      (replicate (Z.to_nat (numVertices G)) limits_max)))
    as ->.
  { apply vector_set_Return. split; [|done]. rewrite length_replicate. lia. }
  apply (relax_loop_on_tree fuel []); [apply relax_inv_init|simpl; lia].
Qed.

(** A vector that is returned on a tree satisfies the invariant. *)
Lemma pathLengthsFromRoot_tree_inv (fuel : nat) d :
  pathLengthsFromRoot fuel G root = Some (Return d) →
  ∃ P, relax_inv G root P None [] d [].
Proof.
  intros Hrun.
  destruct (pathLengthsFromRoot_tree_result
              (fuel `max` Z.to_nat (numVertices G)))
    as (r & Hrun' & Hr); [lia|].
  pose proof (pathLengthsFromRoot_deterministic _ _ _ _ _ _ Hrun' Hrun)
    as ->.
  destruct Hr as [[? _] | (P & d' & [= <-] & Hinv)]; [done|].
  by exists P.
Qed.

(** On a tree the distance of [root] is never written again. *)
Lemma pathLengthsFromRoot_tree_root (fuel : nat) d :
  pathLengthsFromRoot fuel G root = Some (Return d) →
  d !! Z.to_nat root = Some zero.
Proof.
  intros Hrun. destruct Htree as (_ & Hnoroot & _).
  unfold pathLengthsFromRoot, size in Hrun.
  rewrite vector_new_Return in Hrun by lia. simpl in Hrun.
  set (d0 := replicate (Z.to_nat (numVertices G)) limits_max) in *.
  assert (Z.of_nat (length d0) = numVertices G) as Hlen0
    by (unfold d0; rewrite length_replicate; lia).
  assert (vector_set d0 root zero = Return (<[Z.to_nat root := zero]> d0))
    as Hset by (apply vector_set_Return; split; [lia|done]).
  rewrite Hset in Hrun.
  rewrite (relax_loop_untouched G root HG fuel (<[Z.to_nat root := zero]> d0)
             [root] d Hroot); [| |..|done|lia|].
  - apply list_lookup_insert_eq. lia.
  - by rewrite length_insert.
  - intros y ->%list_elem_of_singleton. apply rtc_refl.
  - intros u _. apply Hnoroot.
Qed.
End TreeDistances.

Section AcceptedTree.
Context {T : Type} {NT : Numeric T}.
Context (tree : Graph T) (root : Z).
Context (HG : graph_wf tree) (Hroot : 0 ≤ root < numVertices tree).

(** X20: on a graph that [isTreePlusIsolated] accepts for [root], the loop
    of [pathLengthsFromRoot] pops every vertex at most once: the call ends
    within one turn per vertex, for every weight type of [Numeric] and all
    weights.  It returns a vector with one distance per vertex, unless a sum of a
    distance and a weight overflows, which is undefined behaviour; so it
    returns when every sum of the weight type is defined, as for
    [double]. *)
Theorem pathLengthsFromRoot_ends_on_accepted_tree (fuel fuel' : nat) :
  isTreePlusIsolated fuel' tree root = Some (Return true) →
  (Z.to_nat (numVertices tree) ≤ fuel)%nat →
  ∃ r, pathLengthsFromRoot fuel tree root = Some r
       ∧ ((∃ d, r = Return d ∧ Z.of_nat (length d) = numVertices tree)
          ∨ (r = Undefined ∧ add_overflows T))
       ∧ (add_total T →
          ∃ d, r = Return d ∧ Z.of_nat (length d) = numVertices tree).
Proof.
  intros Hyes Hfuel.
  pose proof (accepted_is_tree tree root HG Hroot fuel' Hyes) as Htree.
  destruct (pathLengthsFromRoot_tree_result tree root HG Hroot Htree fuel
              Hfuel) as (r & Hrun & Hr).
  exists r. split; [done|].
  destruct Hr as [[-> Hover] | (P & d & -> & Hinv)].
  - destruct Hover as (_ & _ & _ & _ & _ & _ & b & a & _ & _ & _ & Hab).
    split; [right; split; [done|by exists a, b]|].
    intros Htotal. destruct (Htotal a b) as [? ?]. congruence.
  - pose proof (rinv_length _ _ _ _ _ _ _ Hinv) as Hlen.
    split; [left|intros _]; by exists d.
Qed.

(** X21: the distances that [pathLengthsFromRoot] returns on a graph that
    [isTreePlusIsolated] accepts for [root].  With [P] the vertices that
    were popped, each once: [root] is in [P] and has the distance 0; a
    vertex outside [P] has [numeric_limits<T>::max()]; and for an edge of
    weight [weight] that leaves [p] in [P] the sum [d[p] + weight] is
    defined, and the end [v] of the edge has that sum as its distance and
    is in [P] if the sum is below [numeric_limits<T>::max()], and has
    [numeric_limits<T>::max()] and is not in [P] otherwise. *)
Theorem pathLengthsFromRoot_distances_on_accepted_tree (fuel fuel' : nat) d :
  isTreePlusIsolated fuel' tree root = Some (Return true) →
  pathLengthsFromRoot fuel tree root = Some (Return d) →
  ∃ P : list Z,
    NoDup P ∧ root ∈ P
    ∧ d !! Z.to_nat root = Some zero
    ∧ (∀ x, 0 ≤ x < numVertices tree → x ∉ P →
         d !! Z.to_nat x = Some limits_max)
    ∧ (∀ p v weight dp, p ∈ P → edge tree p v weight →
         d !! Z.to_nat p = Some dp →
         ∃ sum, add dp weight = Some sum
                ∧ d !! Z.to_nat v = Some (child_distance sum)
                ∧ (v ∈ P ↔ gtb limits_max sum = true)).
Proof.
  intros Hyes Hrun.
  pose proof (accepted_is_tree tree root HG Hroot fuel' Hyes) as Htree.
  destruct (pathLengthsFromRoot_tree_inv tree root HG Hroot Htree fuel d
              Hrun) as [P Hinv].
  destruct Hinv as [_ Hnd _ Hr _ Hfresh Hch _ _ Hzero].
  assert (seen P None [] = P) as Heq
    by (unfold seen; simpl; by rewrite app_nil_r).
  rewrite Heq in *. exists P. by split_and!.
Qed.
End AcceptedTree.

Lemma pathLengthsFromRoot_ends_on_accepted_tree_witness :
  ∃ r, pathLengthsFromRoot 4 Examples.scenario_T 0 = Some r
       ∧ ((∃ d, r = Return d
                ∧ Z.of_nat (length d) = numVertices Examples.scenario_T)
          ∨ (r = Undefined ∧ add_overflows Z))
       ∧ (add_total Z →
          ∃ d, r = Return d
               ∧ Z.of_nat (length d) = numVertices Examples.scenario_T).
Proof.
  apply (pathLengthsFromRoot_ends_on_accepted_tree Examples.scenario_T 0
           scenario_T_wf) with (fuel' := 4%nat);
    [by vm_compute|by vm_compute|vm_compute; lia].
Defined.

Lemma pathLengthsFromRoot_distances_on_accepted_tree_witness :
  ∃ P : list Z,
    NoDup P ∧ 0 ∈ P
    ∧ [0; 1; 3; 4] !! Z.to_nat 0 = Some 0
    ∧ (∀ x, 0 ≤ x < numVertices Examples.scenario_T → x ∉ P →
         [0; 1; 3; 4] !! Z.to_nat x = Some Int.max_value)
    ∧ (∀ p v weight dp, p ∈ P → edge Examples.scenario_T p v weight →
         [0; 1; 3; 4] !! Z.to_nat p = Some dp →
         ∃ sum, add dp weight = Some sum
                ∧ [0; 1; 3; 4] !! Z.to_nat v = Some (child_distance sum)
                ∧ (v ∈ P ↔ gtb Int.max_value sum = true)).
Proof.
  assert (0 ≤ 0 < numVertices Examples.scenario_T) as Hroot
    by (by vm_compute).
  assert (isTreePlusIsolated 4 Examples.scenario_T 0 = Some (Return true))
    as Hyes by (by vm_compute).
  assert (pathLengthsFromRoot 4 Examples.scenario_T 0
          = Some (Return [0; 1; 3; 4])) as Hrun by (by vm_compute).
  exact (pathLengthsFromRoot_distances_on_accepted_tree Examples.scenario_T
           0 scenario_T_wf Hroot 4 4 [0; 1; 3; 4] Hyes Hrun).
Defined.

(** ** The four checks together, on [Graph<int>] *)

Lemma wrap_small (z : Z) : - 2 ^ 31 ≤ z < 2 ^ 31 → Int.wrap z = z.
Proof. intros Hz. unfold Int.wrap. rewrite Z.mod_small; lia. Qed.

(** A sum of two [int] that is defined is their sum in [Z]. *)
Lemma int_add_Some (a b sum : Z) :
  Int.add a b = Some sum →
  sum = Int.wrap a + Int.wrap b ∧ - 2 ^ 31 ≤ sum < 2 ^ 31.
Proof.
  unfold Int.add, Int.min_value, Int.max_value.
  destruct (_ && _) eqn:E; [|done]. intros [= <-].
  apply andb_true_iff in E as [?%Z.leb_le ?%Z.leb_le]. lia.
Qed.

Lemma weights_withinb_spec (lo hi : Z) (G : Graph Z) :
  weights_withinb lo hi G = true → weights_within lo hi G.
Proof.
  unfold weights_withinb. rewrite forallb_forall.
  intros Hall u v weight (_ & m & Hm & Hw).
  specialize (Hall m). rewrite forallb_forall in Hall.
  assert (In m (adjList G)) as Hin.
  { apply list_elem_of_In. by eapply list_elem_of_lookup_2. }
  specialize (Hall Hin (v, weight)). simpl in Hall.
  assert (In (v, weight) (map_to_list m)) as Hin'
    by (by apply list_elem_of_In, elem_of_map_to_list).
  apply Hall in Hin'. lia.
Qed.

Lemma NoDup_range_length (l : list Z) (N : Z) :
  0 ≤ N → NoDup l → (∀ x, x ∈ l → 0 ≤ x < N) → Z.of_nat (length l) ≤ N.
Proof.
  intros HN Hnd Hrange.
  assert (l ⊆+ seqZ 0 N) as Hsub.
  { apply NoDup_submseteq; [done|]. intros x Hx%Hrange.
    apply elem_of_seqZ. lia. }
  apply submseteq_length in Hsub. rewrite length_seqZ in Hsub. lia.
Qed.

Section Walks.
Context (G : Graph Z) (root : Z).
Implicit Types (l : list Z) (u v W : Z).

Lemma walk_reachable l v W : walk G root l v W → reachable G root v.
Proof.
  induction 1 as [|l v x weight W _ IH He]; [apply rtc_refl|].
  eapply rtc_r; [done|]. by exists weight.
Qed.

Lemma reachable_walk v : reachable G root v → ∃ l W, walk G root l v W.
Proof.
  revert v. apply (rtc_ind_r (λ v, ∃ l W, walk G root l v W)).
  - exists [], 0. constructor.
  - intros u v _ [weight He] (l & W & Hw).
    exists (u :: l), (W + weight). by econstructor.
Qed.

Lemma walk_range l v W :
  graph_wf G → 0 ≤ root < numVertices G → walk G root l v W →
  ∀ x, x ∈ v :: l → 0 ≤ x < numVertices G.
Proof.
  intros HG Hroot. induction 1 as [|l v x weight W _ IH He].
  - by intros x ->%list_elem_of_singleton.
  - intros y [->|Hy]%elem_of_cons; [|by apply IH].
    assert (has_edge G v x) as Hvx by (by exists weight).
    by apply (has_edge_range G v x HG) in Hvx as [_ ?].
Qed.

(** Every vertex of a walk but [root] is entered from a vertex before it. *)
Lemma walk_parent l v W :
  walk G root l v W →
  ∀ x, x ∈ v :: l → x ≠ root → ∃ p, has_edge G p x ∧ p ∈ l.
Proof.
  induction 1 as [|l v x weight W _ IH He].
  - by intros x ->%list_elem_of_singleton.
  - intros y [->|Hy]%elem_of_cons Hne.
    + exists v. split; [by exists weight|by left].
    + destruct (IH y Hy Hne) as (p & Hp & Hin).
      exists p. split; [done|by right].
Qed.

Lemma walk_weight_bound (B : Z) l v W :
  weights_within 0 B G → walk G root l v W →
  0 ≤ W ≤ Z.of_nat (length l) * B.
Proof.
  intros Hw. induction 1 as [|l v x weight W _ IH He]; [simpl; lia|].
  pose proof (Hw v x weight He). simpl length. nia.
Qed.
End Walks.

Lemma walk_subgraph (H G : Graph Z) (root : Z) l v W :
  (∀ u x weight, edge H u x weight → edge G u x weight) →
  walk H root l v W → walk G root l v W.
Proof.
  intros Hsub. induction 1 as [|l v x weight W _ IH He]; [constructor|].
  econstructor; [done|by apply Hsub].
Qed.

Section ShortestPaths.
Context (G tree : Graph Z) (root B : Z).
Context (HG : graph_wf G) (HT : graph_wf tree).
Context (Hsize : numVertices tree = numVertices G).
Context (Hroot : 0 ≤ root < numVertices G).
Context (HB0 : 0 ≤ B) (HB : numVertices G * B < Int.max_value).
Context (HwG : weights_within 0 B G) (HwT : weights_within 0 B tree).
Implicit Types (l P : list Z) (d : list Z) (u v W : Z).

(** On a tree, a vertex that was popped has the weight of the walk from
    [root] as its distance: no sum on the way reaches [INT_MAX]. *)
Lemma tree_walk_distance P d v :
  tree_plus_isolated tree root →
  relax_inv tree root P None [] d [] →
  d !! Z.to_nat root = Some 0 →
  reachable tree root v →
  ∃ l W, walk tree root l v W ∧ NoDup (v :: l)
         ∧ (v ∈ P → d !! Z.to_nat v = Some W).
Proof.
  intros (_ & Hnoroot & Huniq) Hinv Hd0. revert v.
  assert (seen P None [] = P) as Heq
    by (unfold seen; simpl; by rewrite app_nil_r).
  destruct Hinv as [_ _ _ _ Hpar _ Hch _ _ _]. rewrite Heq in *.
  apply (rtc_ind_r (λ v, ∃ l W, walk tree root l v W ∧ NoDup (v :: l)
                           ∧ (v ∈ P → d !! Z.to_nat v = Some W))).
  - exists [], 0. split_and!; [constructor|apply NoDup_singleton|done].
  - intros u v _ [weight He] (l & W & Hwalk & Hnd & Hdu).
    assert (has_edge tree u v) as Huv by (by exists weight).
    assert (v ≠ root) as Hvr by (intros ->; by apply (Hnoroot u)).
    assert (NoDup (v :: u :: l)) as Hnd'.
    { apply NoDup_cons. split; [|done]. intros Hin.
      destruct (walk_parent tree root l u W Hwalk v Hin Hvr)
        as (p & Hp & Hpl).
      rewrite (Huniq p u v Hp Huv) in Hpl.
      by apply NoDup_cons in Hnd as [? _]. }
    exists (u :: l), (W + weight). split_and!; [by econstructor|done|].
    intros HvP.
    assert (u ∈ P) as HuP.
    { destruct (Hpar v HvP Hvr) as [(p & Hp & Hpv)|(? & ? & _)]; [|done].
      by rewrite <- (Huniq p u v Hpv Huv). }
    destruct (Hch u v weight W HuP He (Hdu HuP)) as (sum & Hsum & Hdv & Hiff).
    apply Hiff in HvP. rewrite Hdv. f_equal.
    unfold child_distance. rewrite HvP.
    apply int_add_Some in Hsum as [-> _].
    assert (walk tree root (u :: l) v (W + weight)) as Hwalk'
      by (by econstructor).
    pose proof (walk_weight_bound tree root B l u W HwT Hwalk).
    pose proof (HwT u v weight He).
    assert (Z.of_nat (length (v :: u :: l)) ≤ numVertices tree) as Hlen.
    { apply NoDup_range_length; [lia|done|].
      apply (walk_range tree root (u :: l) v (W + weight)); [done|lia|done]. }
    simpl length in Hlen. rewrite !Nat2Z.inj_succ in Hlen.
    assert ((Z.of_nat (length l) + 1) * B ≤ numVertices G * B)
      by (apply Z.mul_le_mono_nonneg_r; lia).
    unfold Int.max_value in HB.
    rewrite (wrap_small W), (wrap_small weight) by lia. done.
Qed.

(** What the distances on an accepted tree look like: [INT_MAX], or the
    weight of a walk in the tree, of less than [N] edges. *)
Lemma tree_distance_cases P d v :
  tree_plus_isolated tree root →
  relax_inv tree root P None [] d [] →
  d !! Z.to_nat root = Some 0 →
  0 ≤ v < numVertices G →
  ((v ∉ P) ∧ d !! Z.to_nat v = Some Int.max_value)
  ∨ (v ∈ P ∧ ∃ l W, walk tree root l v W ∧ d !! Z.to_nat v = Some W
               ∧ 0 ≤ W ≤ (numVertices G - 1) * B).
Proof.
  intros Htree Hinv Hd0 Hv.
  assert (seen P None [] = P) as Heq
    by (unfold seen; simpl; by rewrite app_nil_r).
  destruct (decide (v ∈ P)) as [HvP|HvP].
  - right. split; [done|].
    assert (reachable tree root v) as Hreach.
    { destruct (decide (v = root)) as [->|Hne]; [apply rtc_refl|].
      destruct (rinv_parent _ _ _ _ _ _ _ Hinv v) as [(p & _ & Hp)|(?&?&_)];
        [by rewrite Heq|done| |done].
      destruct Htree as (Hsrc & _ & _).
      eapply rtc_r; [by eapply Hsrc|done]. }
    destruct (tree_walk_distance P d v Htree Hinv Hd0 Hreach)
      as (l & W & Hwalk & Hnd & Hd).
    exists l, W. split_and!; [done|by apply Hd|..].
    + by apply (walk_weight_bound tree root B l v W HwT).
    + pose proof (walk_weight_bound tree root B l v W HwT Hwalk).
      assert (Z.of_nat (length (v :: l)) ≤ numVertices tree) as Hlen.
      { apply NoDup_range_length; [lia|done|].
        apply (walk_range tree root l v W); [done|lia|done]. }
      simpl length in Hlen. rewrite Nat2Z.inj_succ in Hlen.
      assert (Z.of_nat (length l) * B ≤ (numVertices G - 1) * B)
        by (apply Z.mul_le_mono_nonneg_r; lia).
      lia.
  - left. split; [done|].
    apply (rinv_fresh _ _ _ _ _ _ _ Hinv); [lia|by rewrite Heq].
Qed.

(** An edge of [tree] is an edge of [G], with the same weight. *)
Lemma subgraph_edge u v weight :
  isSubgraph tree G = Return true →
  edge tree u v weight → edge G u v weight.
Proof.
  intros [_ Hsub]%isSubgraph_true_iff He; [|done..].
  destruct (Hsub u v weight He) as (weight' & He' & Heq).
  pose proof (HwT u v weight He). pose proof (HwG u v weight' He').
  simpl in Heq. unfold Int.eqb in Heq. apply Z.eqb_eq in Heq.
  unfold Int.max_value in HB.
  rewrite !wrap_small in Heq by nia. by subst.
Qed.

(** Along a walk in [G] the distances stay below the weight walked. *)
Lemma walk_lower_bound d l v W :
  (∀ x, 0 ≤ x < numVertices G →
     ∃ dx, d !! Z.to_nat x = Some dx
           ∧ (dx = Int.max_value ∨ 0 ≤ dx ≤ (numVertices G - 1) * B)) →
  d !! Z.to_nat root = Some 0 →
  (∀ u x weight, edge G u x weight → relaxed d u x weight) →
  walk G root l v W →
  ∃ dv, d !! Z.to_nat v = Some dv
        ∧ 0 ≤ dv ≤ (numVertices G - 1) * B ∧ dv ≤ W.
Proof.
  intros Hcases Hd0 Hrel.
  induction 1 as [|l u v weight W _ (du & Hdu & Hbound & Hle) He].
  - exists 0. split; [done|]. nia.
  - assert (has_edge G u v) as Huv by (by exists weight).
    destruct (has_edge_range G u v HG Huv) as [_ Hv].
    destruct (Hcases v Hv) as (dv & Hdv & Hcase).
    pose proof (HwG u v weight He).
    unfold Int.max_value in *.
    assert (du + weight < 2 ^ 31 - 1) by nia.
    destruct (Hrel u v weight He du dv Hdu Hdv) as (sum & Hsum & Hrl).
    { unfold neqb, infinity. simpl. unfold Int.eqb, Int.max_value.
      rewrite (wrap_small du), (wrap_small (2 ^ 31 - 1)) by lia.
      apply negb_true_iff, Z.eqb_neq. lia. }
    apply int_add_Some in Hsum as [-> _].
    unfold leb, gtb in Hrl. simpl in Hrl. unfold Int.ltb in Hrl.
    apply negb_true_iff, Z.ltb_ge in Hrl.
    rewrite (wrap_small du), (wrap_small weight),
      (wrap_small (du + weight)) in Hrl by lia.
    exists dv. split; [done|]. destruct Hcase as [->|Hdvb].
    + rewrite wrap_small in Hrl by lia. lia.
    + rewrite wrap_small in Hrl by nia. lia.
Qed.

(** X22: the four checks together decide shortest paths on [Graph<int>],
    when no sum can overflow.  [G] and [tree] have the same [N] vertices,
    the weights are between 0 and [B], and [N * B] is below [INT_MAX].  If
    [isSubgraph(tree, G)] and [isTreePlusIsolated(tree, root)] say yes, and
    [allEdgesRelaxed] says yes for [G] and the vector [d] that
    [pathLengthsFromRoot(tree, root)] returns, then for a vertex [v] that
    [root] reaches in [G], [d[v]] is the weight of a walk from [root] to
    [v] in [G], and no walk from [root] to [v] in [G] weighs less; and a
    vertex that [root] does not reach in [G] has [INT_MAX]. *)
Theorem checks_give_shortest_paths (fuel fuel' : nat) d :
  isSubgraph tree G = Return true →
  isTreePlusIsolated fuel tree root = Some (Return true) →
  pathLengthsFromRoot fuel' tree root = Some (Return d) →
  allEdgesRelaxed d G root = Return true →
  ∀ v, 0 ≤ v < numVertices G →
    (reachable G root v →
     ∃ l dv, d !! Z.to_nat v = Some dv ∧ walk G root l v dv
             ∧ ∀ l' W, walk G root l' v W → dv ≤ W)
    ∧ (¬ reachable G root v → d !! Z.to_nat v = Some Int.max_value).
Proof using All.
  intros Hsub Hyes Hrun Hrelaxed v Hv.
  assert (0 ≤ root < numVertices tree) as Hroot' by lia.
  pose proof (accepted_is_tree tree root HT Hroot' fuel Hyes) as Htree.
  destruct (pathLengthsFromRoot_tree_inv tree root HT Hroot' Htree fuel' d
              Hrun) as [P Hinv].
  pose proof (pathLengthsFromRoot_tree_root tree root HT Hroot' Htree fuel'
                d Hrun) as Hd0.
  pose proof (rinv_length _ _ _ _ _ _ _ Hinv) as Hlen.
  assert (∀ u x weight, edge G u x weight → relaxed d u x weight) as Hrel.
  { apply (allEdgesRelaxed_true d G root HG); [lia|done]. }
  assert (∀ x, 0 ≤ x < numVertices G →
     ∃ dx, d !! Z.to_nat x = Some dx
           ∧ (dx = Int.max_value ∨ 0 ≤ dx ≤ (numVertices G - 1) * B))
    as Hcases.
  { intros x Hx.
    destruct (tree_distance_cases P d x Htree Hinv Hd0 Hx)
      as [[_ Hmax] | (_ & l & W & _ & HW & Hbound)]; eauto. }
  split.
  - intros (l0 & W0 & Hwalk0)%reachable_walk.
    destruct (walk_lower_bound d l0 v W0 Hcases Hd0 Hrel Hwalk0)
      as (dv & Hdv & Hbound & _).
    destruct (tree_distance_cases P d v Htree Hinv Hd0 Hv)
      as [[_ Hmax] | (_ & l & W & Hwalk & HW & _)].
    { unfold Int.max_value in *.
      assert (numVertices G * B - B < 2 ^ 31 - 1) by lia.
      assert (dv = 2 ^ 31 - 1) by congruence. lia. }
    assert (W = dv) as -> by congruence.
    exists l, dv. split_and!; [done| |].
    + apply (walk_subgraph tree G); [|done].
      intros u x weight. by apply subgraph_edge.
    + intros l' W' Hwalk'.
      destruct (walk_lower_bound d l' v W' Hcases Hd0 Hrel Hwalk')
        as (dv' & Hdv' & _ & Hle).
      assert (dv' = dv) as -> by congruence. done.
  - intros Hnot.
    apply (pathLengthsFromRoot_unreached tree root HT Hroot' fuel' d v Hrun);
      [lia|].
    intros Hreach. apply Hnot.
    apply reachable_walk in Hreach as (l & W & Hwalk).
    apply (walk_reachable G root l v W), (walk_subgraph tree G); [|done].
    intros u x weight. by apply subgraph_edge.
Qed.
End ShortestPaths.

Lemma checks_give_shortest_paths_witness :
  ∃ l dv, [0; 1; 3; 4] !! Z.to_nat 3 = Some dv
          ∧ walk Examples.scenario_G 0 l 3 dv
          ∧ ∀ l' W, walk Examples.scenario_G 0 l' 3 W → dv ≤ W.
Proof.
  assert (0 ≤ 3 < numVertices Examples.scenario_G) as Hv
    by (by vm_compute).
  assert (0 ≤ 0 < numVertices Examples.scenario_G) as Hroot
    by (by vm_compute).
  assert (0 ≤ 5) as HB0 by lia.
  assert (numVertices Examples.scenario_G * 5 < Int.max_value) as HB
    by (by vm_compute).
  assert (weights_within 0 5 Examples.scenario_G) as HwG
    by (by apply weights_withinb_spec; vm_compute).
  assert (weights_within 0 5 Examples.scenario_T) as HwT
    by (by apply weights_withinb_spec; vm_compute).
  assert (isSubgraph Examples.scenario_T Examples.scenario_G = Return true)
    as Hsub by (by vm_compute).
  assert (isTreePlusIsolated 4 Examples.scenario_T 0 = Some (Return true))
    as Hyes by (by vm_compute).
  assert (pathLengthsFromRoot 4 Examples.scenario_T 0
          = Some (Return [0; 1; 3; 4])) as Hrun by (by vm_compute).
  assert (allEdgesRelaxed [0; 1; 3; 4] Examples.scenario_G 0 = Return true)
    as Hrelaxed by (by vm_compute).
  assert (reachable Examples.scenario_G 0 3) as Hreach.
  { apply (rtc_l _ _ 1); [exists 1|apply rtc_once; exists 5];
      apply getEdgeWeight_Return; by vm_compute. }
  exact (proj1 (checks_give_shortest_paths Examples.scenario_G
           Examples.scenario_T 0 5 scenario_G_wf scenario_T_wf eq_refl Hroot
           HB0 HB HwG HwT 4 4 [0; 1; 3; 4] Hsub Hyes Hrun Hrelaxed 3 Hv)
         Hreach).
Defined.

(** ** [pathLengthsFromRoot] on every [Graph<int>] and [Graph<double>] *)

(** Along a walk through vertices that have another distance than
    [INT_MAX], settled edges bound the distance of the end by that of the
    start plus the weight walked. *)
Lemma settled_walk (G : Graph Z) (d : list Z) (v : Z) l y W :
  graph_wf G → Z.of_nat (length d) = numVertices G →
  weights_within Int.min_value Int.max_value G →
  (∀ u x weight du dx, edge G u x weight →
     d !! Z.to_nat u = Some du → d !! Z.to_nat x = Some dx →
     du = limits_max
     ∨ ∃ sum, add du weight = Some sum ∧ gtb dx sum = false) →
  walk G v l y W →
  (∀ x, x ∈ l → d !! Z.to_nat x ≠ Some Int.max_value) →
  ∀ dv dy, d !! Z.to_nat v = Some dv → d !! Z.to_nat y = Some dy →
    Int.wrap dy ≤ Int.wrap dv + W.
Proof.
  intros HG Hlen Hint Hset.
  induction 1 as [|l u y weight W _ IH He]; intros Hl dv dy Hdv Hdy.
  - assert (dy = dv) as -> by congruence. lia.
  - assert (has_edge G u y) as Huy by (by exists weight).
    destruct (has_edge_range G u y HG Huy) as [Hu _].
    destruct (lookup_lt_is_Some_2 d (Z.to_nat u)) as [du Hdu]; [lia|].
    assert (Int.wrap du ≤ Int.wrap dv + W) as Hle.
    { apply IH; [|done..]. intros x Hx. apply Hl. by right. }
    destruct (Hset u y weight du dy He Hdu Hdy)
      as [-> | (sum & Hsum & Hgt)].
    { by destruct (Hl u (list_elem_of_here _ _)). }
    apply int_add_Some in Hsum as [Hsum Hrange].
    pose proof (Hint u y weight He) as Hw.
    unfold Int.min_value, Int.max_value in Hw.
    rewrite (wrap_small weight) in Hsum by lia.
    unfold gtb in Hgt. simpl in Hgt. unfold Int.ltb in Hgt.
    apply Z.ltb_ge in Hgt. rewrite (wrap_small sum) in Hgt by lia. lia.
Qed.

(** X19: [pathLengthsFromRoot] ends on every well-formed [Graph<double>]
    and [Graph<int>], tree or not.  On a [Graph<double>] it returns a
    vector with one distance per vertex.  On a [Graph<int>] it returns
    such a vector or comes to a sum that overflows, which is undefined
    behaviour; and it returns no vector in which a cycle of negative
    weight runs through vertices that all have another distance than
    [INT_MAX]. *)
Theorem pathLengthsFromRoot_ends_int_double :
  (∀ (tree : Graph float) (root : Z),
     graph_wf tree → 0 ≤ root < numVertices tree →
     ∃ fuel d, pathLengthsFromRoot fuel tree root = Some (Return d)
               ∧ Z.of_nat (length d) = numVertices tree)
  ∧ (∀ (tree : Graph Z) (root : Z),
       graph_wf tree → 0 ≤ root < numVertices tree →
       (∃ fuel r, pathLengthsFromRoot fuel tree root = Some r
          ∧ ((∃ d, r = Return d
                   ∧ Z.of_nat (length d) = numVertices tree)
             ∨ r = Undefined))
       ∧ (weights_within Int.min_value Int.max_value tree →
          ∀ fuel d v l W,
            pathLengthsFromRoot fuel tree root = Some (Return d) →
            walk tree v l v W →
            (∀ x, x ∈ l → d !! Z.to_nat x ≠ Some Int.max_value) →
            0 ≤ W)).
Proof.
  split; intros tree root HG Hroot.
  - by apply (pathLengthsFromRoot_returns tree root double_lt_wf
                double_add_total).
  - split.
    + destruct (pathLengthsFromRoot_ends tree root int_lt_wf HG Hroot)
        as (fuel & r & Hrun & [[-> _] | (d & -> & Hlen)]);
        exists fuel; eexists; (split; [done|]); [by right|left; by eexists].
    + intros Hint fuel d v l W Hrun Hwalk Hl.
      pose proof (pathLengthsFromRoot_length tree root HG fuel d Hroot Hrun)
        as Hlen.
      destruct l as [|u l].
      { inversion Hwalk. lia. }
      assert (0 ≤ v < numVertices tree) as Hv.
      { apply (walk_range tree v (u :: l) v W HG); [|done|by left].
        inversion Hwalk as [|? ? ? weight ? ? He]; subst.
        assert (has_edge tree u v) as Huv by (by exists weight).
        by apply (has_edge_range tree u v HG) in Huv as [_ ?]. }
      destruct (lookup_lt_is_Some_2 d (Z.to_nat v)) as [dv Hdv]; [lia|].
      pose proof (settled_walk tree d v (u :: l) v W HG Hlen Hint
        (pathLengthsFromRoot_settled int_ltb_irrefl int_ltb_trans tree root
           HG fuel d Hroot Hrun) Hwalk Hl dv dv Hdv Hdv).
      lia.
Qed.

Lemma pathLengthsFromRoot_ends_int_double_witness :
  (∃ fuel d, pathLengthsFromRoot fuel Examples.double_G 1
             = Some (Return d)
             ∧ Z.of_nat (length d) = numVertices Examples.double_G)
  ∧ (∃ fuel r, pathLengthsFromRoot fuel Examples.negative_loop 0 = Some r
       ∧ ((∃ d, r = Return d
                ∧ Z.of_nat (length d) = numVertices Examples.negative_loop)
          ∨ r = Undefined))
  ∧ 0 ≤ 0 + 2 + 3.
Proof.
  destruct pathLengthsFromRoot_ends_int_double as [Hdouble Hint].
  assert (graph_wf Examples.two_cycle) as HC
    by (by apply (Graph_from_wf 2 [(0, 1, 2); (1, 0, 3)])).
  split; [|split].
  - apply Hdouble; [|by vm_compute].
    by apply (Graph_from_wf 3 [(1, 2, (-0x1p+1000)%float)]).
  - apply (Hint Examples.negative_loop 0); [|by vm_compute].
    by apply (Graph_from_wf 1 [(0, 0, - 2 ^ 30)]).
  - destruct (Hint Examples.two_cycle 0 HC) as [_ Hcycle];
      [by vm_compute|].
    assert (weights_within Int.min_value Int.max_value Examples.two_cycle)
      as Hw by (by apply weights_withinb_spec; vm_compute).
    apply (Hcycle Hw 2%nat [0; 2] 0 [1; 0]); [by vm_compute| |].
    + apply (walk_snoc _ _ [0] 1 0 3); [apply (walk_snoc _ _ [] 0 1 2)|];
        [constructor|apply getEdgeWeight_Return; by vm_compute..].
    + intros x Hx. repeat apply elem_of_cons in Hx as [->|Hx];
        [by vm_compute..|by apply elem_of_nil in Hx].
Defined.

(** ** [pathLengthsFromRoot] on a tree of [int] weights *)

Section IntTree.
Context (tree : Graph Z) (root : Z).
Context (HG : graph_wf tree) (Hroot : 0 ≤ root < numVertices tree).
Context (Hint : weights_within Int.min_value Int.max_value tree).
Context (Hwalks : ∀ l v W, walk tree root l v W →
  Int.min_value ≤ W < Int.max_value).
Implicit Types (P q todo l : list Z) (d : list Z) (u v W : Z).

(** A vertex that was seen has the weight of the walk from [root] as its
    distance. *)
Lemma seen_distance P cur todo d q l v W :
  tree_plus_isolated tree root →
  relax_inv tree root P cur todo d q →
  walk tree root l v W → v ∈ seen P cur q → d !! Z.to_nat v = Some W.
Proof.
  intros (_ & Hnoroot & Huniq) Hinv.
  induction 1 as [|l u x weight W Hwalk IH He]; intros Hseen.
  - apply (rinv_zero _ _ _ _ _ _ _ Hinv).
  - assert (has_edge tree u x) as Hux by (by exists weight).
    assert (x ≠ root) as Hxr by (intros ->; by apply (Hnoroot u)).
    pose proof (Hwalks l u W Hwalk) as HW.
    pose proof (Hint u x weight He) as Hw.
    unfold Int.min_value, Int.max_value in *.
    assert (∀ sum, add W weight = Some sum → sum = W + weight) as Hsum.
    { intros sum [-> _]%int_add_Some.
      rewrite (wrap_small W), (wrap_small weight) by lia. done. }
    destruct (rinv_parent _ _ _ _ _ _ _ Hinv x Hseen Hxr)
      as [(p & Hp & Hpx) | (u' & Hcur & Hu'x & Hxt)].
    + rewrite (Huniq p u x Hpx Hux) in Hp.
      assert (d !! Z.to_nat u = Some W) as Hdu.
      { apply IH. rewrite (elem_of_seen tree root Hroot). by left. }
      destruct (rinv_children _ _ _ _ _ _ _ Hinv u x weight W Hp He Hdu)
        as (sum & Hs & -> & Hiff).
      apply Hiff in Hseen. unfold child_distance. rewrite Hseen.
      f_equal. by apply Hsum.
    + rewrite (Huniq u' u x Hu'x Hux) in Hcur.
      assert (d !! Z.to_nat u = Some W) as Hdu.
      { apply IH. rewrite (elem_of_seen tree root Hroot). right. by left. }
      destruct (rinv_cur _ _ _ _ _ _ _ Hinv u x weight W Hcur He Hxt Hdu)
        as (sum & Hs & -> & Hiff).
      apply Hiff in Hseen. unfold child_distance. rewrite Hseen.
      f_equal. by apply Hsum.
Qed.

(** A vertex that was seen is reached from [root]. *)
Lemma seen_reachable P cur todo d q x :
  tree_plus_isolated tree root →
  relax_inv tree root P cur todo d q →
  x ∈ seen P cur q → reachable tree root x.
Proof.
  intros (Hsrc & _ & _) Hinv Hseen.
  destruct (decide (x = root)) as [->|Hxr]; [apply rtc_refl|].
  destruct (rinv_parent _ _ _ _ _ _ _ Hinv x Hseen Hxr)
    as [(p & _ & Hpx) | (u & _ & Hux & _)];
    (eapply rtc_r; [by eapply Hsrc|done]).
Qed.

(** No sum of the loop overflows. *)
Lemma no_tree_overflow :
  tree_plus_isolated tree root → ¬ tree_overflow tree root.
Proof.
  intros Htree (P & todo & d & q & u & v & weight & du & Hinv & He & Hdu
                & Hnone).
  assert (u ∈ seen P (Some u) q) as Hseen
    by (rewrite (elem_of_seen tree root Hroot); right; by left).
  destruct (reachable_walk tree root u) as (l & W & Hwalk);
    [by eapply seen_reachable|].
  rewrite (seen_distance P (Some u) (v :: todo) d q l u W Htree Hinv Hwalk
             Hseen) in Hdu.
  injection Hdu as <-.
  pose proof (Hwalks l u W Hwalk) as HW.
  pose proof (Hwalks (u :: l) v (W + weight) (walk_snoc _ _ _ _ _ _ _ Hwalk He))
    as HW'.
  pose proof (Hint u v weight He) as Hw.
  simpl in Hnone. unfold Int.add, Int.min_value, Int.max_value in *.
  rewrite (wrap_small W), (wrap_small weight) in Hnone by lia.
  destruct (_ && _) eqn:E; [done|].
  apply andb_false_iff in E as [E%Z.leb_gt | E%Z.leb_gt]; lia.
Qed.

(** X23: what [pathLengthsFromRoot] computes on a [Graph<int>] that
    [isTreePlusIsolated] accepts for [root], when every walk from [root]
    weighs at least [INT_MIN] and less than [INT_MAX], so that no sum
    overflows: within one loop turn per vertex it returns a vector in
    which every vertex that [root] reaches has the weight of the walk from
    [root] to it, and every other vertex has [INT_MAX]. *)
Theorem pathLengthsFromRoot_computes_walk_weights (fuel fuel' : nat) :
  isTreePlusIsolated fuel' tree root = Some (Return true) →
  (Z.to_nat (numVertices tree) ≤ fuel)%nat →
  ∃ d, pathLengthsFromRoot fuel tree root = Some (Return d)
       ∧ Z.of_nat (length d) = numVertices tree
       ∧ (∀ l v W, walk tree root l v W → d !! Z.to_nat v = Some W)
       ∧ (∀ v, 0 ≤ v < numVertices tree → ¬ reachable tree root v →
            d !! Z.to_nat v = Some Int.max_value).
Proof using All.
  intros Hyes Hfuel.
  pose proof (accepted_is_tree tree root HG Hroot fuel' Hyes) as Htree.
  destruct (pathLengthsFromRoot_tree_result tree root HG Hroot Htree fuel
              Hfuel) as (r & Hrun & [[_ Hover] | (P & d & -> & Hinv)]).
  { by apply no_tree_overflow in Hover. }
  exists d. split_and!; [done|apply (rinv_length _ _ _ _ _ _ _ Hinv)| |].
  - assert (∀ l v W, walk tree root l v W → v ∈ seen P None []) as Hall.
    { induction 1 as [|l u x weight W Hwalk IH He].
      - apply (rinv_root _ _ _ _ _ _ _ Hinv).
      - assert (u ∈ P) as HuP.
        { rewrite (elem_of_seen tree root Hroot) in IH.
          destruct IH as [? | [? | Hnil]]; [done|done|].
          by apply elem_of_nil in Hnil. }
        pose proof (seen_distance P None [] d [] l u W Htree Hinv Hwalk IH)
          as Hdu.
        destruct (rinv_children _ _ _ _ _ _ _ Hinv u x weight W HuP He Hdu)
          as (sum & Hs & _ & Hiff).
        apply Hiff. apply int_add_Some in Hs as [-> Hrange].
        pose proof (Hwalks l u W Hwalk) as HW.
        pose proof (Hwalks (u :: l) x (W + weight)
                      (walk_snoc _ _ _ _ _ _ _ Hwalk He)) as HW'.
        pose proof (Hint u x weight He) as Hw.
        unfold Int.min_value, Int.max_value in *.
        rewrite (wrap_small W), (wrap_small weight) by lia.
        unfold gtb. simpl. unfold Int.ltb, Int.max_value.
        rewrite (wrap_small (W + weight)), (wrap_small (2 ^ 31 - 1)) by lia.
        apply Z.ltb_lt. lia. }
    intros l v W Hwalk.
    by apply (seen_distance P None [] d [] l v W Htree Hinv Hwalk), Hall
      with l W.
  - intros v Hv Hnr.
    exact (pathLengthsFromRoot_unreached tree root HG Hroot fuel d v Hrun Hv
             Hnr).
Qed.
End IntTree.


(** On a tree a walk from the root comes to no vertex twice. *)
Lemma tree_walk_NoDup (G : Graph Z) (root : Z) l v W :
  tree_plus_isolated G root → walk G root l v W → NoDup (v :: l).
Proof.
  intros (_ & Hnoroot & Huniq).
  induction 1 as [|l u x weight W Hwalk IH He]; [apply NoDup_singleton|].
  assert (has_edge G u x) as Hux by (by exists weight).
  apply NoDup_cons. split; [|done]. intros Hin.
  assert (x ≠ root) as Hxr by (intros ->; by apply (Hnoroot u)).
  destruct (walk_parent G root l u W Hwalk x Hin Hxr) as (p & Hp & Hpl).
  rewrite (Huniq p u x Hp Hux) in Hpl.
  by apply NoDup_cons in IH as [? _].
Qed.

(** So with weights between 0 and [B] it weighs less than [N * B]. *)
Lemma tree_walks_bounded (G : Graph Z) (root B : Z) :
  graph_wf G → 0 ≤ root < numVertices G → tree_plus_isolated G root →
  weights_within 0 B G → 0 ≤ B → numVertices G * B < Int.max_value →
  ∀ l v W, walk G root l v W → Int.min_value ≤ W < Int.max_value.
Proof.
  intros HG Hroot Htree Hw HB0 HB l v W Hwalk.
  pose proof (walk_weight_bound G root B l v W Hw Hwalk).
  assert (Z.of_nat (length (v :: l)) ≤ numVertices G) as Hlen.
  { apply NoDup_range_length; [lia|by eapply tree_walk_NoDup|].
    by apply (walk_range G root l v W). }
  simpl length in Hlen. rewrite Nat2Z.inj_succ in Hlen.
  assert (Z.of_nat (length l) * B ≤ (numVertices G - 1) * B)
    by (apply Z.mul_le_mono_nonneg_r; lia).
  unfold Int.min_value, Int.max_value in *. lia.
Qed.

Lemma pathLengthsFromRoot_computes_walk_weights_witness :
  ∃ d, pathLengthsFromRoot 4 Examples.scenario_T 0 = Some (Return d)
       ∧ Z.of_nat (length d) = numVertices Examples.scenario_T
       ∧ (∀ l v W, walk Examples.scenario_T 0 l v W →
            d !! Z.to_nat v = Some W)
       ∧ (∀ v, 0 ≤ v < numVertices Examples.scenario_T →
            ¬ reachable Examples.scenario_T 0 v →
            d !! Z.to_nat v = Some Int.max_value).
Proof.
  assert (0 ≤ 0 < numVertices Examples.scenario_T) as Hroot
    by (by vm_compute).
  assert (isTreePlusIsolated 4 Examples.scenario_T 0 = Some (Return true))
    as Hyes by (by vm_compute).
  assert (weights_within Int.min_value Int.max_value Examples.scenario_T)
    as Hint by (by apply weights_withinb_spec; vm_compute).
  assert (weights_within 0 2 Examples.scenario_T) as Hw
    by (by apply weights_withinb_spec; vm_compute).
  assert (∀ l v W, walk Examples.scenario_T 0 l v W →
            Int.min_value ≤ W < Int.max_value) as Hwalks.
  { apply (tree_walks_bounded Examples.scenario_T 0 2 scenario_T_wf Hroot);
      [|done|lia|by vm_compute].
    by apply (accepted_is_tree Examples.scenario_T 0 scenario_T_wf Hroot 4). }
  assert (Z.to_nat (numVertices Examples.scenario_T) ≤ 4)%nat as Hfuel
    by (vm_compute; lia).
  exact (pathLengthsFromRoot_computes_walk_weights Examples.scenario_T 0
           scenario_T_wf Hroot Hint Hwalks 4 4 Hyes Hfuel).
Defined.
